(** * Blackout Breaker: the redaction pipeline of [PDFProcessor]

    A shallow embedding of the page analysis of the PDF processor
    (scan of the raster for black rectangles, merging of the candidates,
    association of the text items with the merged regions, and the
    decision of the export and overlay paths), with the properties the
    design document states about it.

    Conventions.
    - Raster coordinates are integers ([Z]). The numbers of the text layer
      (PDF.js transforms, widths, the scale) are exact rationals ([Q]) in
      the embedding of the whole pipeline, which serves the statements
      that do not turn on rounding; the association of text and the two
      renderers are embedded once more in IEEE doubles (module [Double]),
      for the statements that turn on the outcome of a comparison between
      such numbers.
    - A JavaScript string is the list of its UTF-16 code units.
    - A JavaScript [Set] of integers is a [gset]; an array is a [list]
      read with [!!] ([undefined] is [None]). *)

From Stdlib Require Import ZArith QArith Qabs Qminmax Qround Lia Lqa Bool Sorted.
From Stdlib Require Import Floats.
From stdpp Require Import base decidable list strings gmap sets sorting.

Local Open Scope Z_scope.
#[local] Set Warnings "-clear-no-such-hyp".
#[local] Set Warnings "-inexact-float".

(** ** JavaScript strings *)

Definition code_unit := N.
Definition js_string := list code_unit.

(** [WhiteSpace] and [LineTerminator] of ECMAScript, what [trim] strips. *)
Definition is_white_space (c : code_unit) : bool :=
  ((9 <=? c) && (c <=? 13) || (c =? 32) || (c =? 160) || (c =? 5760)
   || (8192 <=? c) && (c <=? 8202) || (c =? 8232) || (c =? 8233)
   || (c =? 8239) || (c =? 8287) || (c =? 12288) || (c =? 65279))%N.

Fixpoint trimStart (s : js_string) : js_string :=
  match s with
  | c :: s' => if is_white_space c then trimStart s' else s
  | [] => []
  end.

Definition trim (s : js_string) : js_string :=
  rev (trimStart (rev (trimStart s))).

Definition js_string_eqb (s t : js_string) : bool := bool_decide (s = t).

(** The code units of an ASCII literal. *)
Definition of_ascii (s : string) : js_string :=
  (λ a, N.of_nat (Ascii.nat_of_ascii a)) <$> String.list_ascii_of_string s.

(** The placeholder ["1111"]. *)
Definition sentinel : js_string := of_ascii "1111".

(** ** Records of the page analysis *)

(** [item.transform] and [viewport.transform]: the six entries of a PDF.js
    matrix, [scaleX, skewX, skewY, scaleY, translateX, translateY]. *)
Record Matrix := mkMatrix { m0 : Q; m1 : Q; m2 : Q; m3 : Q; m4 : Q; m5 : Q }.

Module TextItem.
(** An entry of [textContent.items]; [width] is [None] when the
    property is missing. *)
Record t := mk {
  str : js_string;
  transform : Matrix;
  width : option Q;
  fontName : js_string
}.
End TextItem.

Module FoundText.
(** An entry of a redaction's [hiddenText]. *)
Record t := mk {
  text : js_string;
  x : Q;
  y : Q;
  width : Q;
  height : Q;
  fontSize : Q;
  transform : Matrix;
  fontName : js_string;
  index : nat
}.
End FoundText.

Module Redaction.
Record t := mk {
  page : nat;
  x : Z;
  y : Z;
  width : Z;
  height : Z;
  pdfX : Q;
  pdfY : Q;
  pdfWidth : Q;
  pdfHeight : Q;
  hiddenText : list FoundText.t
}.

(** The raster rectangle of a redaction. *)
Definition box (r : t) : Z * Z * Z * Z := (x r, y r, width r, height r).
End Redaction.

Module ImageData.
(** [data] holds the RGBA samples, four per pixel, row by row. *)
Record t := mk { data : list Z; width : Z; height : Z }.
End ImageData.

Module Viewport.
Record t := mk { transform : Matrix; width : Q; height : Q }.
End Viewport.

Module PageData.
(** The page record [processPage] returns (the two canvases left out). *)
Record t := mk {
  pageNum : nat;
  width : Q;
  height : Q;
  pdfWidth : Q;
  pdfHeight : Q;
  viewport : Viewport.t;
  redactions : list Redaction.t;
  textItems : list TextItem.t
}.
End PageData.

Module LoadResult.
(** The value [loadPdf] resolves with. *)
Record t := mk {
  numPages : nat;
  pages : list PageData.t;
  redactions : list Redaction.t
}.
End LoadResult.

(** How a call ends: with a value, or with a thrown error (for an
    [async] function: resolved or rejected). *)
Inductive completion (A : Type) : Type :=
  | Normal (a : A)
  | Throw (e : js_string).
Arguments Normal {A} a.
Arguments Throw {A} e.

(** ** Loops over integer ranges *)

(** The values taken by [v] in [for (v = lo; v <= hi; v += step)]. *)
Definition countUp (lo hi step : Z) : list Z :=
  if hi <? lo then []
  else (λ k, lo + step * k) <$> seqZ 0 ((hi - lo) / step + 1).

(** [a < b] on numbers. *)
Definition Qltb (a b : Q) : bool := negb (Qle_bool b a).

(** * The processor

    [scale] is the field [this.scale] (1.5 unless [setScale] changed it;
    [setScale] keeps it between 0.5 and 3). *)
Section Processor.

Variable scale : Q.

(** ** [mergeRedactions] *)

Definition gap : Z := 10.

(** The test of the inner loop: [current], grown by [gap] on each side,
    meets [other]. *)
Definition adjacent (current other : Redaction.t) : bool :=
  (Redaction.x current - gap <=? Redaction.x other + Redaction.width other)
  && (Redaction.x current + Redaction.width current + gap >=? Redaction.x other)
  && (Redaction.y current - gap <=? Redaction.y other + Redaction.height other)
  && (Redaction.y current + Redaction.height current + gap >=? Redaction.y other).

(** The body of that test: [current] becomes the bounding box of both. *)
Definition absorb (current other : Redaction.t) : Redaction.t :=
  let newX := Z.min (Redaction.x current) (Redaction.x other) in
  let newY := Z.min (Redaction.y current) (Redaction.y other) in
  let newMaxX := Z.max (Redaction.x current + Redaction.width current)
                       (Redaction.x other + Redaction.width other) in
  let newMaxY := Z.max (Redaction.y current + Redaction.height current)
                       (Redaction.y other + Redaction.height other) in
  {| Redaction.page := Redaction.page current;
     Redaction.x := newX;
     Redaction.y := newY;
     Redaction.width := newMaxX - newX;
     Redaction.height := newMaxY - newY;
     Redaction.pdfX := (inject_Z newX / scale)%Q;
     Redaction.pdfY := (inject_Z newY / scale)%Q;
     Redaction.pdfWidth := (inject_Z (newMaxX - newX) / scale)%Q;
     Redaction.pdfHeight := (inject_Z (newMaxY - newY) / scale)%Q;
     Redaction.hiddenText := Redaction.hiddenText current |}.

(** One iteration of [for (let j = 0; j < redactions.length; j++)]. *)
Definition absorbStep (redactions : list Redaction.t)
    (st : Redaction.t * gset nat * bool) (j : nat)
    : Redaction.t * gset nat * bool :=
  let '(current, used, didMerge) := st in
  if decide (j ∈ used) then st
  else match redactions !! j with
       | Some other =>
           if adjacent current other
           then (absorb current other, {[j]} ∪ used, true)
           else st
       | None => st
       end.

(** One pass of the inner [for], started with [didMerge = false]. *)
Definition absorbPass (redactions : list Redaction.t)
    (current : Redaction.t) (used : gset nat)
    : Redaction.t * gset nat * bool :=
  foldl (absorbStep redactions) (current, used, false)
        (seq 0 (length redactions)).

(** [while (didMerge)]: each pass that merges consumes an index, so
    [length redactions + 1] passes are enough (lemma
    [absorbLoop_fuel]). *)
Fixpoint absorbLoop (fuel : nat) (redactions : list Redaction.t)
    (current : Redaction.t) (used : gset nat) : Redaction.t * gset nat :=
  match fuel with
  | O => (current, used)
  | S fuel' =>
      let '(current', used', didMerge) := absorbPass redactions current used in
      if didMerge then absorbLoop fuel' redactions current' used'
      else (current', used')
  end.

(** One iteration of the outer [for (let i = 0; ...)]. *)
Definition mergeStep (redactions : list Redaction.t)
    (st : list Redaction.t * gset nat) (i : nat)
    : list Redaction.t * gset nat :=
  let '(merged, used) := st in
  if decide (i ∈ used) then st
  else match redactions !! i with
       | Some r =>
           let '(current, used') :=
             absorbLoop (S (length redactions)) redactions r ({[i]} ∪ used) in
           (merged ++ [current], used')
       | None => st
       end.

Definition mergeRedactions (redactions : list Redaction.t)
    : list Redaction.t :=
  if (length redactions <? 2)%nat then redactions
  else (foldl (mergeStep redactions) ([], ∅) (seq 0 (length redactions))).1.

(** ** [detectRedactions] *)

Definition blackThreshold : Z := 30.
Definition minRedactionSize : Z := 20.

Section Scan.

Variable imageData : ImageData.t.
Variable pageNum : nat.

Let data := ImageData.data imageData.
Let width := ImageData.width imageData.
Let height := ImageData.height imageData.

(** [data[idx] < blackThreshold]; a sample past the end of [data] is
    [undefined], and [undefined < 30] is false. *)
Definition sampleBelow (idx : Z) : bool :=
  match data !! Z.to_nat idx with
  | Some v => v <? blackThreshold
  | None => false
  end.

Definition isBlack (x y : Z) : bool :=
  if (x <? 0) || (x >=? width) || (y <? 0) || (y >=? height) then false
  else
    let idx := (y * width + x) * 4 in
    sampleBelow idx && sampleBelow (idx + 1) && sampleBelow (idx + 2).

(** [while (minX > 0 && isBlack(minX - 1, y)) minX--;] runs at most
    [minX] times. *)
Fixpoint expandLeft (fuel : nat) (minX y : Z) : Z :=
  match fuel with
  | O => minX
  | S fuel' =>
      if (minX >? 0) && isBlack (minX - 1) y
      then expandLeft fuel' (minX - 1) y else minX
  end.

(** [while (maxX < width - 1 && isBlack(maxX + 1, y)) maxX++;] runs at
    most [width - 1 - maxX] times. *)
Fixpoint expandRight (fuel : nat) (maxX y : Z) : Z :=
  match fuel with
  | O => maxX
  | S fuel' =>
      if (maxX <? width - 1) && isBlack (maxX + 1) y
      then expandRight fuel' (maxX + 1) y else maxX
  end.

(** The inner [for (tx = minX; tx <= maxX; tx += 3)] of the vertical
    expansion: no sampled pixel of the row fails [isBlack]. *)
Definition rowBlack (minX maxX row : Z) : bool :=
  forallb (λ tx, isBlack tx row) (countUp minX maxX 3).

(** [while (allBlackAbove && minY > 0)]: the row above is tried, and
    given back ([minY++]) when a sample of it is not black. *)
Fixpoint expandUp (fuel : nat) (minX maxX minY : Z) : Z :=
  match fuel with
  | O => minY
  | S fuel' =>
      if minY >? 0 then
        if rowBlack minX maxX (minY - 1)
        then expandUp fuel' minX maxX (minY - 1) else minY
      else minY
  end.

Fixpoint expandDown (fuel : nat) (minX maxX maxY : Z) : Z :=
  match fuel with
  | O => maxY
  | S fuel' =>
      if maxY <? height - 1 then
        if rowBlack minX maxX (maxY + 1)
        then expandDown fuel' minX maxX (maxY + 1) else maxY
      else maxY
  end.

(** The keys [getKey(vx, vy)] are the pairs themselves. *)
Definition markVisited (visited : gset (Z * Z)) (minX maxX minY maxY : Z)
    : gset (Z * Z) :=
  foldl (λ v vy, foldl (λ v' vx, {[ (vx, vy) ]} ∪ v') v (countUp minX maxX 5))
        visited (countUp minY maxY 5).

(** [(blackPixelCount, totalPixels)] after the two loops of stride 2. *)
Definition countSamples (minX maxX minY maxY : Z) : Z * Z :=
  foldl (λ c vy,
           foldl (λ c' vx, ((if isBlack vx vy then c'.1 + 1 else c'.1), c'.2 + 1))
                 c (countUp minX maxX 2))
        (0, 0) (countUp minY maxY 2).

(** [blackPixelCount / totalPixels > 0.85]; the box holds its corner, so
    [totalPixels] is at least 1. *)
Definition dense (c : Z * Z) : bool :=
  Qltb 0.85 (inject_Z c.1 / inject_Z c.2).

(** The body of the two scan loops at the seed [(x, y)]. *)
Definition scanCell (st : list Redaction.t * gset (Z * Z)) (y x : Z)
    : list Redaction.t * gset (Z * Z) :=
  let '(redactions, visited) := st in
  if decide ((x, y) ∈ visited) then st
  else if isBlack x y then
    let minX := expandLeft (Z.to_nat x) x y in
    let maxX := expandRight (Z.to_nat (width - 1 - x)) x y in
    let minY := expandUp (Z.to_nat y) minX maxX y in
    let maxY := expandDown (Z.to_nat (height - 1 - y)) minX maxX y in
    let visited' := markVisited visited minX maxX minY maxY in
    let rectWidth := maxX - minX in
    let rectHeight := maxY - minY in
    if (rectWidth >=? minRedactionSize) && (rectHeight >=? 8) then
      if dense (countSamples minX maxX minY maxY)
      then (redactions ++
              [ {| Redaction.page := pageNum;
                   Redaction.x := minX;
                   Redaction.y := minY;
                   Redaction.width := rectWidth;
                   Redaction.height := rectHeight;
                   Redaction.pdfX := (inject_Z minX / scale)%Q;
                   Redaction.pdfY := (inject_Z minY / scale)%Q;
                   Redaction.pdfWidth := (inject_Z rectWidth / scale)%Q;
                   Redaction.pdfHeight := (inject_Z rectHeight / scale)%Q;
                   Redaction.hiddenText := [] |} ],
            visited')
      else (redactions, visited')
    else (redactions, visited')
  else st.

Definition scanRow (st : list Redaction.t * gset (Z * Z)) (y : Z)
    : list Redaction.t * gset (Z * Z) :=
  foldl (λ st' x, scanCell st' y x) st (countUp 0 (width - 1) 5).

(** The list [redactions] when the scan loops are over, before merging. *)
Definition scanCandidates : list Redaction.t :=
  (foldl scanRow ([], ∅) (countUp 0 (height - 1) 5)).1.

Definition detectRedactions : list Redaction.t :=
  mergeRedactions scanCandidates.

End Scan.

(** ** [findTextInArea] *)

Section TextGeometry.

Variable vt : Matrix.            (* [viewport.transform] *)
Variable item : TextItem.t.

(** [a || b] on numbers: [b] when [a] is 0. *)
Definition js_or (a b : Q) : Q := if Qeq_bool a 0 then b else a.

Definition fontSize : Q := js_or (Qabs (m0 (TextItem.transform item))) 12.

Definition strLength : Q := inject_Z (Z.of_nat (length (TextItem.str item))).

(** [item.width || (item.str.length * fontSize * 0.6)]. *)
Definition itemWidth : Q :=
  match TextItem.width item with
  | Some w => js_or w (strLength * fontSize * 0.6)
  | None => strLength * fontSize * 0.6
  end.

Definition canvasX : Q := m0 vt * m4 (TextItem.transform item) + m4 vt.
Definition canvasY : Q := m3 vt * m5 (TextItem.transform item) + m5 vt.

Definition scaledWidth : Q := itemWidth * scale.
Definition scaledHeight : Q := fontSize * scale.

Definition textLeft : Q := canvasX.
Definition textRight : Q := canvasX + scaledWidth.
Definition textTop : Q := canvasY - scaledHeight.
Definition textBottom : Q := canvasY.
Definition textCenterY : Q := (textTop + textBottom) / 2.

Variable redaction : Redaction.t.

Definition redactLeft : Q := inject_Z (Redaction.x redaction).
Definition redactRight : Q :=
  inject_Z (Redaction.x redaction + Redaction.width redaction).
Definition redactTop : Q := inject_Z (Redaction.y redaction).
Definition redactBottom : Q :=
  inject_Z (Redaction.y redaction + Redaction.height redaction).

Definition overlapWidth : Q :=
  Qmax 0 (Qmin textRight redactRight - Qmax textLeft redactLeft).
Definition overlapHeight : Q :=
  Qmax 0 (Qmin textBottom redactBottom - Qmax textTop redactTop).

(** When [scaledWidth] is 0 so is [overlapWidth]: the quotient is [NaN]
    in JavaScript and 0 here, and neither is at least 0.5. *)
Definition horizontalOverlapRatio : Q := overlapWidth / scaledWidth.
Definition verticalInside : bool :=
  Qle_bool redactTop textCenterY && Qle_bool textCenterY redactBottom.

(** The condition under which [findTextInArea] takes the item. *)
Definition insideRedaction : bool :=
  Qle_bool 0.5 horizontalOverlapRatio && verticalInside
  && Qltb 0 overlapHeight.

(** The condition of [renderTextForExport] and of the overlay of
    [js/app.js], whose [textWidth] and [horizontalOverlap] are
    [scaledWidth] and [overlapWidth]. *)
Definition drawnOver : bool :=
  Qltb (scaledWidth * 0.3) overlapWidth && verticalInside.

End TextGeometry.

(** [!item.str || item.str.trim() === ''], or the trimmed text is the
    placeholder: the item is passed over. *)
Definition skipped (item : TextItem.t) : bool :=
  js_string_eqb (TextItem.str item) []
  || js_string_eqb (trim (TextItem.str item)) []
  || js_string_eqb (trim (TextItem.str item)) sentinel.

Definition found (vt : Matrix) (item : TextItem.t) (i : nat) : FoundText.t :=
  {| FoundText.text := TextItem.str item;
     FoundText.x := canvasX vt item;
     FoundText.y := canvasY vt item;
     FoundText.width := scaledWidth item;
     FoundText.height := scaledHeight item;
     FoundText.fontSize := (fontSize item * scale)%Q;
     FoundText.transform := TextItem.transform item;
     FoundText.fontName := TextItem.fontName item;
     FoundText.index := i |}.

(** One iteration of [for (let i = 0; i < textItems.length; i++)];
    [assignedTextIndices] is the set shared by the calls of one page. *)
Definition findStep (textItems : list TextItem.t) (redaction : Redaction.t)
    (vt : Matrix) (st : list FoundText.t * gset nat) (i : nat)
    : list FoundText.t * gset nat :=
  let '(foundText, assignedTextIndices) := st in
  if decide (i ∈ assignedTextIndices) then st
  else match textItems !! i with
       | Some item =>
           if skipped item then st
           else if insideRedaction vt item redaction
                then (foundText ++ [found vt item i],
                      {[i]} ∪ assignedTextIndices)
                else st
       | None => st
       end.

(** The comparator of [foundText.sort]. *)
Definition byPosition (a b : FoundText.t) : Q :=
  if Qltb (Qabs (FoundText.y a - FoundText.y b)) 5
  then FoundText.x a - FoundText.x b
  else FoundText.y a - FoundText.y b.

(** [Array.prototype.sort] as a stable insertion sort: an element goes
    before the first one it compares below. With a comparator that is a
    consistent order every conforming sort returns this list; with one
    that is not, the order is up to the engine, and what is stated of such
    inputs is stated of every permutation. *)
Fixpoint sortInsert {A} (cmp : A → A → Q) (e : A) (l : list A) : list A :=
  match l with
  | [] => [e]
  | p :: l' => if Qltb (cmp e p) 0 then e :: l else p :: sortInsert cmp e l'
  end.

Definition js_sort {A} (cmp : A → A → Q) (l : list A) : list A :=
  foldl (λ acc e, sortInsert cmp e acc) [] l.

(** The result is the pair of the returned array and of the set
    [assignedTextIndices] as the call leaves it. *)
Definition findTextInArea (textItems : list TextItem.t)
    (redaction : Redaction.t) (vt : Matrix) (assignedTextIndices : gset nat)
    : list FoundText.t * gset nat :=
  let '(foundText, assigned') :=
    foldl (findStep textItems redaction vt) ([], assignedTextIndices)
          (seq 0 (length textItems)) in
  (js_sort byPosition foundText, assigned').

(** ** [processPage] *)

Definition setHiddenText (r : Redaction.t) (h : list FoundText.t)
    : Redaction.t :=
  {| Redaction.page := Redaction.page r;
     Redaction.x := Redaction.x r; Redaction.y := Redaction.y r;
     Redaction.width := Redaction.width r;
     Redaction.height := Redaction.height r;
     Redaction.pdfX := Redaction.pdfX r; Redaction.pdfY := Redaction.pdfY r;
     Redaction.pdfWidth := Redaction.pdfWidth r;
     Redaction.pdfHeight := Redaction.pdfHeight r;
     Redaction.hiddenText := h |}.

(** [for (const redaction of pageRedactions) redaction.hiddenText = ...],
    with [assignedTextIndices] starting empty. *)
Definition assignHiddenText (textItems : list TextItem.t) (vt : Matrix)
    (pageRedactions : list Redaction.t) : list Redaction.t * gset nat :=
  foldl (λ st redaction,
           let '(foundText, assigned') :=
             findTextInArea textItems redaction vt st.2 in
           (st.1 ++ [setHiddenText redaction foundText], assigned'))
        ([], ∅) pageRedactions.

(** What the rendering of a page hands to the analysis: the viewport,
    the pixels of the canvas and the text items. *)
Record Rendered := mkRendered {
  r_viewport : Viewport.t;
  r_imageData : ImageData.t;
  r_textItems : list TextItem.t
}.

Definition processPage (r : Rendered) (pageNum : nat) : PageData.t :=
  let pageRedactions := detectRedactions (r_imageData r) pageNum in
  let vt := Viewport.transform (r_viewport r) in
  {| PageData.pageNum := pageNum;
     PageData.width := Viewport.width (r_viewport r);
     PageData.height := Viewport.height (r_viewport r);
     PageData.pdfWidth := (Viewport.width (r_viewport r) / scale)%Q;
     PageData.pdfHeight := (Viewport.height (r_viewport r) / scale)%Q;
     PageData.viewport := r_viewport r;
     PageData.redactions :=
       (assignHiddenText (r_textItems r) vt pageRedactions).1;
     PageData.textItems := r_textItems r |}.

(** ** [loadPdf]

    The loop over the pages runs inside one [try]: a page whose
    rendering throws rejects the whole load. *)
Definition loadStep (st : completion LoadResult.t * nat)
    (p : completion Rendered) : completion LoadResult.t * nat :=
  match st.1, p with
  | Normal acc, Normal r =>
      let pageData := processPage r st.2 in
      (Normal {| LoadResult.numPages := LoadResult.numPages acc;
                 LoadResult.pages := LoadResult.pages acc ++ [pageData];
                 LoadResult.redactions :=
                   LoadResult.redactions acc ++ PageData.redactions pageData |},
       S st.2)
  | Normal _, Throw e => (Throw e, S st.2)
  | Throw e, _ => st
  end.

Definition loadPdf (rendered : list (completion Rendered))
    : completion LoadResult.t :=
  (foldl loadStep
         (Normal {| LoadResult.numPages := length rendered;
                    LoadResult.pages := [];
                    LoadResult.redactions := [] |}, 1%nat)
         rendered).1.

(** ** [renderTextForExport] *)

(** The call [ctx.fillText(item.str, canvasX, canvasY)] with the font
    size set before it. *)
Record FillText := mkFillText {
  ft_font : Q; ft_text : js_string; ft_x : Q; ft_y : Q
}.

(** The loop over [redactions] that sets [isInRedaction]. *)
Definition isInRedaction (vt : Matrix) (item : TextItem.t)
    (redactions : list Redaction.t) : bool :=
  existsb (drawnOver vt item) redactions.

Definition renderTextForExport (page : PageData.t) : list FillText :=
  let vt := Viewport.transform (PageData.viewport page) in
  omap (λ item,
          if skipped item then None
          else if isInRedaction vt item (PageData.redactions page)
               then Some {| ft_font := (fontSize item * scale)%Q;
                            ft_text := TextItem.str item;
                            ft_x := canvasX vt item;
                            ft_y := canvasY vt item |}
               else None)
       (PageData.textItems page).

(** ** [renderTextLayerForRedactions] of [js/app.js] *)

(** The [span] appended to the text layer. *)
Record Span := mkSpan {
  sp_text : js_string; sp_left : Q; sp_top : Q; sp_fontSize : Q
}.

(** [displayWidth] and [displayHeight] are the sizes of the canvas on
    screen. *)
Definition renderTextLayerForRedactions (displayWidth displayHeight : Q)
    (page : PageData.t) : list Span :=
  let scaleX := (displayWidth / PageData.width page)%Q in
  let scaleY := (displayHeight / PageData.height page)%Q in
  let vt := Viewport.transform (PageData.viewport page) in
  omap (λ item,
          if skipped item then None
          else if isInRedaction vt item (PageData.redactions page)
               then Some {| sp_text := TextItem.str item;
                            sp_left := (canvasX vt item * scaleX)%Q;
                            sp_top := ((canvasY vt item - fontSize item * scale)
                                       * scaleY)%Q;
                            sp_fontSize := (fontSize item * scale * scaleY)%Q |}
               else None)
       (PageData.textItems page).

End Processor.

(** * The text layer in double precision

    The association of text and the two renderers once more, with the
    numbers of the text layer as the engine has them: IEEE 754 binary64
    ([float]), every operation rounded as the engine rounds it. The
    statements that turn on the outcome of a comparison between such
    numbers are made of these definitions; the embedding in exact
    rationals above serves the statements that do not. *)
Module Double.

Local Open Scope float_scope.

(** ** Numbers *)

(** The number of an integer of the raster or of a length (exact below
    2^53, and every coordinate of a canvas is). *)
Definition ofZ (z : Z) : float :=
  if (z <? 0)%Z then - of_uint63 (Uint63.of_Z (- z))
  else of_uint63 (Uint63.of_Z z).

(** [a || b] on numbers: [b] when [a] is 0, -0 or [NaN]. *)
Definition js_or (a b : float) : float :=
  if is_zero a || is_nan a then b else a.

(** [Math.max(a, b)] and [Math.min(a, b)]: [NaN] when an argument is,
    and -0 below +0. *)
Definition js_max (a b : float) : float :=
  if is_nan a then a else if is_nan b then b
  else if a <? b then b else if b <? a then a
  else if get_sign a then b else a.

Definition js_min (a b : float) : float :=
  if is_nan a then a else if is_nan b then b
  else if a <? b then a else if b <? a then b
  else if get_sign a then a else b.

(** ** Records *)

Record Matrix := mkMatrix {
  m0 : float; m1 : float; m2 : float; m3 : float; m4 : float; m5 : float
}.

Module TextItem.
Record t := mk {
  str : js_string;
  transform : Matrix;
  width : option float;
  fontName : js_string
}.
End TextItem.

Module FoundText.
Record t := mk {
  text : js_string;
  x : float;
  y : float;
  width : float;
  height : float;
  fontSize : float;
  transform : Matrix;
  fontName : js_string;
  index : nat
}.
End FoundText.

Module Redaction.
Record t := mk {
  page : nat;
  x : Z;
  y : Z;
  width : Z;
  height : Z;
  pdfX : float;
  pdfY : float;
  pdfWidth : float;
  pdfHeight : float;
  hiddenText : list FoundText.t
}.
End Redaction.

Module Viewport.
Record t := mk { transform : Matrix; width : float; height : float }.
End Viewport.

Module PageData.
Record t := mk {
  pageNum : nat;
  width : float;
  height : float;
  pdfWidth : float;
  pdfHeight : float;
  viewport : Viewport.t;
  redactions : list Redaction.t;
  textItems : list TextItem.t
}.
End PageData.

Section Processor.

Variable scale : float.          (* [this.scale] *)

(** ** [findTextInArea] *)

Section TextGeometry.

Variable vt : Matrix.            (* [viewport.transform] *)
Variable item : TextItem.t.

Definition fontSize : float := js_or (abs (m0 (TextItem.transform item))) 12.

Definition strLength : float := ofZ (Z.of_nat (length (TextItem.str item))).

(** [item.width || (item.str.length * fontSize * 0.6)]. *)
Definition itemWidth : float :=
  match TextItem.width item with
  | Some w => js_or w (strLength * fontSize * 0.6)
  | None => strLength * fontSize * 0.6
  end.

Definition canvasX : float := m0 vt * m4 (TextItem.transform item) + m4 vt.
Definition canvasY : float := m3 vt * m5 (TextItem.transform item) + m5 vt.

Definition scaledWidth : float := itemWidth * scale.
Definition scaledHeight : float := fontSize * scale.

Definition textLeft : float := canvasX.
Definition textRight : float := canvasX + scaledWidth.
Definition textTop : float := canvasY - scaledHeight.
Definition textBottom : float := canvasY.
Definition textCenterY : float := (textTop + textBottom) / 2.

Variable redaction : Redaction.t.

Definition redactLeft : float := ofZ (Redaction.x redaction).
Definition redactRight : float :=
  ofZ (Redaction.x redaction) + ofZ (Redaction.width redaction).
Definition redactTop : float := ofZ (Redaction.y redaction).
Definition redactBottom : float :=
  ofZ (Redaction.y redaction) + ofZ (Redaction.height redaction).

Definition overlapLeft : float := js_max textLeft redactLeft.
Definition overlapRight : float := js_min textRight redactRight.
Definition overlapWidth : float := js_max 0 (overlapRight - overlapLeft).

Definition overlapTop : float := js_max textTop redactTop.
Definition overlapBottom : float := js_min textBottom redactBottom.
Definition overlapHeight : float := js_max 0 (overlapBottom - overlapTop).

Definition horizontalOverlapRatio : float := overlapWidth / scaledWidth.
Definition verticalInside : bool :=
  (redactTop <=? textCenterY) && (textCenterY <=? redactBottom).

(** The condition under which [findTextInArea] takes the item. *)
Definition insideRedaction : bool :=
  (0.5 <=? horizontalOverlapRatio) && verticalInside && (0 <? overlapHeight).

(** The condition of [renderTextForExport] and of the overlay of
    [js/app.js], whose [textWidth] and [horizontalOverlap] are
    [scaledWidth] and [overlapWidth]. *)
Definition drawnOver : bool :=
  (scaledWidth * 0.3 <? overlapWidth) && verticalInside.

End TextGeometry.

(** [!item.str || item.str.trim() === ''], or the trimmed text is the
    placeholder: the item is passed over. *)
Definition skipped (item : TextItem.t) : bool :=
  js_string_eqb (TextItem.str item) []
  || js_string_eqb (trim (TextItem.str item)) []
  || js_string_eqb (trim (TextItem.str item)) sentinel.

Definition found (vt : Matrix) (item : TextItem.t) (i : nat) : FoundText.t :=
  {| FoundText.text := TextItem.str item;
     FoundText.x := canvasX vt item;
     FoundText.y := canvasY vt item;
     FoundText.width := scaledWidth item;
     FoundText.height := scaledHeight item;
     FoundText.fontSize := fontSize item * scale;
     FoundText.transform := TextItem.transform item;
     FoundText.fontName := TextItem.fontName item;
     FoundText.index := i |}.

(** One iteration of [for (let i = 0; i < textItems.length; i++)];
    [assignedTextIndices] is the set shared by the calls of one page. *)
Definition findStep (textItems : list TextItem.t) (redaction : Redaction.t)
    (vt : Matrix) (st : list FoundText.t * gset nat) (i : nat)
    : list FoundText.t * gset nat :=
  let '(foundText, assignedTextIndices) := st in
  if decide (i ∈ assignedTextIndices) then st
  else match textItems !! i with
       | Some item =>
           if skipped item then st
           else if insideRedaction vt item redaction
                then (foundText ++ [found vt item i],
                      {[i]} ∪ assignedTextIndices)
                else st
       | None => st
       end.

(** The comparator of [foundText.sort]. *)
Definition byPosition (a b : FoundText.t) : float :=
  if abs (FoundText.y a - FoundText.y b) <? 5
  then FoundText.x a - FoundText.x b
  else FoundText.y a - FoundText.y b.

(** [Array.prototype.sort] as a stable insertion sort: an element goes
    before the first one it compares below. *)
Fixpoint sortInsert {A} (cmp : A → A → float) (e : A) (l : list A) : list A :=
  match l with
  | [] => [e]
  | p :: l' => if cmp e p <? 0 then e :: l else p :: sortInsert cmp e l'
  end.

Definition js_sort {A} (cmp : A → A → float) (l : list A) : list A :=
  foldl (λ acc e, sortInsert cmp e acc) [] l.

(** The result is the pair of the returned array and of the set
    [assignedTextIndices] as the call leaves it. *)
Definition findTextInArea (textItems : list TextItem.t)
    (redaction : Redaction.t) (vt : Matrix) (assignedTextIndices : gset nat)
    : list FoundText.t * gset nat :=
  let '(foundText, assigned') :=
    foldl (findStep textItems redaction vt) ([], assignedTextIndices)
          (seq 0 (length textItems)) in
  (js_sort byPosition foundText, assigned').

(** ** The loop of [processPage] over the regions *)

Definition setHiddenText (r : Redaction.t) (h : list FoundText.t)
    : Redaction.t :=
  {| Redaction.page := Redaction.page r;
     Redaction.x := Redaction.x r; Redaction.y := Redaction.y r;
     Redaction.width := Redaction.width r;
     Redaction.height := Redaction.height r;
     Redaction.pdfX := Redaction.pdfX r; Redaction.pdfY := Redaction.pdfY r;
     Redaction.pdfWidth := Redaction.pdfWidth r;
     Redaction.pdfHeight := Redaction.pdfHeight r;
     Redaction.hiddenText := h |}.

(** [for (const redaction of pageRedactions) redaction.hiddenText = ...],
    with [assignedTextIndices] starting empty. *)
Definition assignHiddenText (textItems : list TextItem.t) (vt : Matrix)
    (pageRedactions : list Redaction.t) : list Redaction.t * gset nat :=
  foldl (λ st redaction,
           let '(foundText, assigned') :=
             findTextInArea textItems redaction vt st.2 in
           (st.1 ++ [setHiddenText redaction foundText], assigned'))
        ([], ∅) pageRedactions.

(** ** [renderTextForExport] *)

(** The call [ctx.fillText(item.str, canvasX, canvasY)] with the font
    size set before it. *)
Record FillText := mkFillText {
  ft_font : float; ft_text : js_string; ft_x : float; ft_y : float
}.

(** The loop over [redactions] that sets [isInRedaction]. *)
Definition isInRedaction (vt : Matrix) (item : TextItem.t)
    (redactions : list Redaction.t) : bool :=
  existsb (drawnOver vt item) redactions.

Definition renderTextForExport (page : PageData.t) : list FillText :=
  let vt := Viewport.transform (PageData.viewport page) in
  omap (λ item,
          if skipped item then None
          else if isInRedaction vt item (PageData.redactions page)
               then Some {| ft_font := fontSize item * scale;
                            ft_text := TextItem.str item;
                            ft_x := canvasX vt item;
                            ft_y := canvasY vt item |}
               else None)
       (PageData.textItems page).

(** ** [renderTextLayerForRedactions] of [js/app.js] *)

(** The [span] appended to the text layer. *)
Record Span := mkSpan {
  sp_text : js_string; sp_left : float; sp_top : float; sp_fontSize : float
}.

(** [displayWidth] and [displayHeight] are the sizes of the canvas on
    screen. *)
Definition renderTextLayerForRedactions (displayWidth displayHeight : float)
    (page : PageData.t) : list Span :=
  let scaleX := displayWidth / PageData.width page in
  let scaleY := displayHeight / PageData.height page in
  let vt := Viewport.transform (PageData.viewport page) in
  omap (λ item,
          if skipped item then None
          else if isInRedaction vt item (PageData.redactions page)
               then Some {| sp_text := TextItem.str item;
                            sp_left := canvasX vt item * scaleX;
                            sp_top := (canvasY vt item - fontSize item * scale)
                                      * scaleY;
                            sp_fontSize := fontSize item * scale * scaleY |}
               else None)
       (PageData.textItems page).

End Processor.

End Double.

(** * The other methods *)

(** ** [setScale] *)

(** The value [setScale] stores in [this.scale] and returns. *)
Definition setScale (newScale : Q) : Q := Qmax 0.5 (Qmin 3 newScale).

(** ** The rendering of a page in [processPage] *)





(** ** The fixed canvas of [processPage] *)

(** [ctx.fillRect(x, y, w, h)] with an opaque fill style and whole
    coordinates, on a canvas whose samples are [img]: the pixels of the
    rectangle that are on the canvas take the samples of the colour. *)
Definition channel (colour : Z * Z * Z * Z) (c : Z) : Z :=
  let '(r, g, b, a) := colour in
  if c =? 0 then r else if c =? 1 then g else if c =? 2 then b else a.

Definition fillRect (colour : Z * Z * Z * Z) (x y w h : Z) (img : ImageData.t)
    : ImageData.t :=
  ImageData.mk
    (imap (λ k v,
             let p := Z.of_nat k / 4 in
             let px := p mod ImageData.width img in
             let py := p / ImageData.width img in
             if (x <=? px) && (px <? x + w) && (y <=? py) && (py <? y + h)
             then channel colour (Z.of_nat k mod 4) else v)
          (ImageData.data img))
    (ImageData.width img) (ImageData.height img).

(** ['#FFFFFF']. *)
Definition white : Z * Z * Z * Z := (255, 255, 255, 255).

(** The copy of the original canvas with every redaction painted over,
    one pixel wider on each side. *)
Definition fixedCanvas (originalCanvas : ImageData.t)
    (pageRedactions : list Redaction.t) : ImageData.t :=
  foldl (λ canvas redaction,
           fillRect white (Redaction.x redaction - 1) (Redaction.y redaction - 1)
                    (Redaction.width redaction + 2)
                    (Redaction.height redaction + 2) canvas)
        originalCanvas pageRedactions.

(** ** [downloadFixedPdf] *)

Fixpoint startsWith (pat s : js_string) : bool :=
  match pat, s with
  | [], _ => true
  | p :: pat', c :: s' => (p =? c)%N && startsWith pat' s'
  | _ :: _, [] => false
  end.

(** [s.includes(pat)]. *)
Fixpoint includes (pat s : js_string) : bool :=
  startsWith pat s
  || match s with
     | [] => false
     | _ :: s' => includes pat s'
     end.

(** [s.replace(pat, rep)] with a string for pattern, and no [$] in [rep]:
    the first occurrence of [pat] is replaced. *)
Fixpoint replaceFirst (pat rep s : js_string) : js_string :=
  if startsWith pat s then rep ++ drop (length pat) s
  else match s with
       | [] => []
       | c :: s' => c :: replaceFirst pat rep s'
       end.

(** The name the file is saved under; [None] is [null], returned when
    [exportAsPdf] finds no page. *)
Definition downloadFixedPdf (pages : list PageData.t) (fileName : js_string)
    : option js_string :=
  match pages with
  | [] => None
  | _ :: _ =>
      Some (replaceFirst (of_ascii ".pdf") (of_ascii "_unredacted.pdf") fileName)
  end.

(** * The application ([js/app.js]) *)

(** ** [generateDocId] *)

(** [[a-zA-Z0-9]]. *)
Definition isAlnum (c : code_unit) : bool :=
  ((48 <=? c) && (c <=? 57) || (65 <=? c) && (c <=? 90)
   || (97 <=? c) && (c <=? 122))%N.

(** [filename.replace(/[^a-zA-Z0-9]/g, '_')]. *)
Definition sanitize (filename : js_string) : js_string :=
  (λ c, if isAlnum c then c else 95%N) <$> filename.

(** The decimal digits of a number, as a template literal prints an
    integer. *)
Fixpoint digits (d : Decimal.uint) : js_string :=
  match d with
  | Decimal.Nil => []
  | Decimal.D0 d' => 48%N :: digits d'
  | Decimal.D1 d' => 49%N :: digits d'
  | Decimal.D2 d' => 50%N :: digits d'
  | Decimal.D3 d' => 51%N :: digits d'
  | Decimal.D4 d' => 52%N :: digits d'
  | Decimal.D5 d' => 53%N :: digits d'
  | Decimal.D6 d' => 54%N :: digits d'
  | Decimal.D7 d' => 55%N :: digits d'
  | Decimal.D8 d' => 56%N :: digits d'
  | Decimal.D9 d' => 57%N :: digits d'
  end.

(** [now] is the value of [Date.now()]. *)
Definition generateDocId (now : N) (filename : js_string) : js_string :=
  of_ascii "doc_" ++ digits (N.to_uint now) ++ of_ascii "_" ++ sanitize filename.

(** ** [zoom] *)

(** [Math.round]. *)
Definition js_round (x : Q) : Z := Qfloor (x + 0.5)%Q.

(** The new scale and the number shown before the percent sign. *)
Definition zoom (scale delta : Q) : Q * Z :=
  let newScale := setScale (scale + delta) in
  (newScale, js_round (newScale * 100 / 1.5)%Q).

(** ** [navigatePage] and [goToPage]

    The page number is a number: [parseInt] of the page field, which is
    [NaN] when the field holds no number, plus the step. The value is
    what [goToPage] writes into the page field. *)
Definition goToPage (numPages pageNum : float) : float :=
  Double.js_max 1 (Double.js_min numPages pageNum).

Definition navigatePage (numPages currentPage delta : float) : float :=
  let newPage :=
    Double.js_max 1 (Double.js_min numPages (currentPage + delta)%float) in
  goToPage numPages newPage.

(** ** [renderDiffView] *)

(** The object [byPage]: under each page number the redactions of the
    page, each with its index in [doc.redactions]. *)
Definition byPage (redactions : list Redaction.t)
    : gmap nat (list (nat * Redaction.t)) :=
  foldl (λ m ir,
           <[Redaction.page ir.2 :=
               default [] (m !! Redaction.page ir.2) ++ [ir]]> m)
        ∅ (imap (λ index r, (index, r)) redactions).

(** The groups in the order of the loop over
    [Object.keys(byPage).sort((a, b) => a - b)]. *)
Definition diffGroups (redactions : list Redaction.t)
    : list (nat * list (nat * Redaction.t)) :=
  (λ pageNum, (pageNum, default [] (byPage redactions !! pageNum)))
    <$> merge_sort Nat.le (elements (dom (byPage redactions))).

(** ** [jumpToRedaction] *)

(** The [data-redaction-index] of the highlights [renderDocument] puts
    over a page of the original viewer, in document order. *)
Definition highlights (page : PageData.t) : list nat :=
  imap (λ rIndex _, rIndex) (PageData.redactions page).

(** The highlight that [jumpToRedaction] marks active, by its
    [data-redaction-index]: the first page wrapper of number [pageNum],
    and in it the first highlight of index [index % 100].  The scroll
    position it also sets is left out. *)
Definition jumpToRedaction (pages : list PageData.t) (pageNum index : nat)
    : option nat :=
  pageWrapper ← find (λ page, bool_decide (PageData.pageNum page = pageNum))
                     pages;
  find (λ rIndex, bool_decide (rIndex = index mod 100)%nat)
       (highlights pageWrapper).

(** ** The documents of the application and its one processor *)

(** The fields of the [PDFProcessor] that outlive a call. *)
Module ProcessorState.
Record t := mk {
  scale : Q;
  fileName : js_string;
  pages : list PageData.t;
  redactions : list Redaction.t
}.
End ProcessorState.

(** A file handed to the application: its name, and what reading it and
    rendering its pages gives.  The outer completion is that of the
    reader and of [getDocument], the inner ones those of the pages. *)
Module File.
Record t := mk {
  name : js_string;
  document : completion (list (completion Rendered))
}.
End File.

(** The entry of [this.documents] ([dateAdded] left out). *)
Module Doc.
Record t := mk {
  name : js_string;
  file : File.t;
  numPages : nat;
  pages : list PageData.t;
  redactions : list Redaction.t;
  isFixed : bool
}.
End Doc.

Module App.
Record t := mk {
  processor : ProcessorState.t;
  documents : gmap js_string Doc.t;
  currentDocId : option js_string
}.
End App.

(** The two constructors. *)
Definition newApp : App.t :=
  App.mk (ProcessorState.mk 1.5 [] [] []) ∅ None.

(** The pages before the first one that throws. *)
Fixpoint normalPrefix (rendered : list (completion Rendered)) : list Rendered :=
  match rendered with
  | Normal r :: rest => r :: normalPrefix rest
  | _ => []
  end.

(** [loadPdf] with the fields it writes: the name at once; the pages
    and the redactions are emptied when the document is open, and every
    page that is processed is pushed. *)
Definition loadPdfState (st : ProcessorState.t) (file : File.t)
    : ProcessorState.t * completion LoadResult.t :=
  let scale := ProcessorState.scale st in
  match File.document file with
  | Throw e =>
      (ProcessorState.mk scale (File.name file) (ProcessorState.pages st)
                         (ProcessorState.redactions st),
       Throw e)
  | Normal rendered =>
      let pushed := imap (λ j r, processPage scale r (S j))
                         (normalPrefix rendered) in
      (ProcessorState.mk scale (File.name file) pushed
                         (p ← pushed; PageData.redactions p),
       loadPdf scale rendered)
  end.

Definition selectDocument (docId : js_string) (app : App.t) : App.t :=
  match App.documents app !! docId with
  | None => app
  | Some _ => App.mk (App.processor app) (App.documents app) (Some docId)
  end.

(** [now] is the value of [Date.now()]. *)
Definition processFile (now : N) (file : File.t) (app : App.t) : App.t :=
  let docId := generateDocId now (File.name file) in
  let '(processor, result) := loadPdfState (App.processor app) file in
  match result with
  | Normal result =>
      let docData :=
        {| Doc.name := File.name file; Doc.file := file;
           Doc.numPages := LoadResult.numPages result;
           Doc.pages := LoadResult.pages result;
           Doc.redactions := LoadResult.redactions result;
           Doc.isFixed := false |} in
      selectDocument docId
        (App.mk processor (<[docId := docData]> (App.documents app))
                (App.currentDocId app))
  | Throw _ => App.mk processor (App.documents app) (App.currentDocId app)
  end.

(** [downloadFixed]: the new state, and what is saved, if anything: the
    pages the export is drawn from and the name of the file.  An empty
    name is falsy, and the document is then not marked. *)
Definition downloadFixed (app : App.t)
    : App.t * option (list PageData.t * js_string) :=
  match App.currentDocId app with
  | None => (app, None)
  | Some docId =>
      match App.documents app !! docId with
      | None => (app, None)
      | Some doc =>
          let processor := App.processor app in
          match downloadFixedPdf (ProcessorState.pages processor)
                                 (ProcessorState.fileName processor) with
          | None => (app, None)
          | Some fileName =>
              let saved := Some (ProcessorState.pages processor, fileName) in
              match fileName with
              | [] => (app, saved)
              | _ :: _ =>
                  (App.mk processor
                          (<[docId := {| Doc.name := Doc.name doc;
                                         Doc.file := Doc.file doc;
                                         Doc.numPages := Doc.numPages doc;
                                         Doc.pages := Doc.pages doc;
                                         Doc.redactions := Doc.redactions doc;
                                         Doc.isFixed := true |}]>
                             (App.documents app))
                          (App.currentDocId app),
                   saved)
              end
          end
      end
  end.

(** * Vocabulary of the statements *)

(** [c] covers the rectangle [r]. *)
Definition contains (c r : Redaction.t) : Prop :=
  Redaction.x c ≤ Redaction.x r ∧ Redaction.y c ≤ Redaction.y r
  ∧ Redaction.x r + Redaction.width r ≤ Redaction.x c + Redaction.width c
  ∧ Redaction.y r + Redaction.height r ≤ Redaction.y c + Redaction.height c.

(** [c] is the bounding box of the rectangles of [rs] whose index is in
    [g]: it covers each of them and each of its four sides is the side of
    one of them. *)
Definition bounds (rs : list Redaction.t) (g : gset nat) (c : Redaction.t)
    : Prop :=
  (∀ i r, i ∈ g → rs !! i = Some r → contains c r)
  ∧ (∃ i r, i ∈ g ∧ rs !! i = Some r ∧ Redaction.x c = Redaction.x r)
  ∧ (∃ i r, i ∈ g ∧ rs !! i = Some r ∧ Redaction.y c = Redaction.y r)
  ∧ (∃ i r, i ∈ g ∧ rs !! i = Some r
            ∧ Redaction.x c + Redaction.width c
              = Redaction.x r + Redaction.width r)
  ∧ (∃ i r, i ∈ g ∧ rs !! i = Some r
            ∧ Redaction.y c + Redaction.height c
              = Redaction.y r + Redaction.height r).

(** The indices not yet consumed. *)
Definition unused (rs : list Redaction.t) (used : gset nat) : gset nat :=
  set_seq 0 (length rs) ∖ used.

(** [gs] splits the indices of [rs] into groups and [out] lists the
    bounding boxes of the groups, in the same order; no rectangle of a
    group is within the gap of a rectangle outside of it. *)
Record grouping (rs : list Redaction.t) (gs : list (gset nat))
    (out : list Redaction.t) : Prop := mkGrouping {
  grouping_bounds : Forall2 (bounds rs) gs out;
  grouping_cover : ∀ i, (i < length rs)%nat → ∃ g, g ∈ gs ∧ i ∈ g;
  grouping_range : ∀ g i, g ∈ gs → i ∈ g → (i < length rs)%nat;
  grouping_disjoint : ∀ k1 k2 g1 g2,
    gs !! k1 = Some g1 → gs !! k2 = Some g2 → k1 ≠ k2 → g1 ## g2;
  grouping_closed : ∀ g i j ri rj,
    g ∈ gs → i ∈ g → rs !! i = Some ri → rs !! j = Some rj →
    adjacent ri rj = true → j ∈ g
}.

(** ** The merge, group by group *)





(** ** Connected components, as the design document words them

    Two rectangles are adjacent when their boxes, each grown by the gap
    on all sides, intersect; the expected result of the merge is the list
    of the bounding boxes of the connected components of that graph. *)








(** ** Density and uniform buffers *)

(** The pixels the density loops visit: stride 2 on both axes, bounds
    included. *)
Definition samplePoints (minX maxX minY maxY : Z) : list (Z * Z) :=
  vy ← countUp minY maxY 2; (λ vx, (vx, vy)) <$> countUp minX maxX 2.

(** Black samples over samples. *)
Definition density (img : ImageData.t) (minX maxX minY maxY : Z) : Q :=
  let pts := samplePoints minX maxX minY maxY in
  (inject_Z (Z.of_nat (length (List.filter (λ p, isBlack img p.1 p.2) pts)))
   / inject_Z (Z.of_nat (length pts)))%Q.

(** [f] holds at every pixel of the buffer. *)
Definition everyPixel (img : ImageData.t) (f : Z → Z → bool) : bool :=
  forallb (λ y, forallb (λ x, f x y) (seqZ 0 (ImageData.width img)))
          (seqZ 0 (ImageData.height img)).

Definition allBlack (img : ImageData.t) : Prop :=
  ∀ x y, 0 ≤ x < ImageData.width img → 0 ≤ y < ImageData.height img →
         isBlack img x y = true.

Definition noBlack (img : ImageData.t) : Prop :=
  ∀ x y, 0 ≤ x < ImageData.width img → 0 ≤ y < ImageData.height img →
         isBlack img x y = false.

(** ** Assigned text *)

(** The source indices of the hidden text of the regions of a page. *)
Definition hiddenIndices (rs : list Redaction.t) : list nat :=
  r ← rs; FoundText.index <$> Redaction.hiddenText r.


(** ** The box of a fragment and its overlap with a region, in doubles

    The quantities the design document names, written out from the
    fields of the item and of the region. *)

(** The font size of a fragment: the size of the first entry of its
    transform, and 12 when that is 0. *)
Definition fragmentFontSize (item : Double.TextItem.t) : float :=
  let size := abs (Double.m0 (Double.TextItem.transform item)) in
  if is_zero size || is_nan size then 12%float else size.

(** The origin of a fragment (the start of its baseline) in raster
    space: its translation through the page transform. *)
Definition fragmentOriginX (vt : Double.Matrix) (item : Double.TextItem.t)
    : float :=
  (Double.m0 vt * Double.m4 (Double.TextItem.transform item)
   + Double.m4 vt)%float.

Definition fragmentOriginY (vt : Double.Matrix) (item : Double.TextItem.t)
    : float :=
  (Double.m3 vt * Double.m5 (Double.TextItem.transform item)
   + Double.m5 vt)%float.

(** The width of the box of a fragment: that of the fragment when it is
    known, and [length * fontSize * 0.6] when it is not, at the scale of
    the raster. A width of 0, for which the overlap ratio is not
    defined, counts as unknown, and so does one that is not a number. *)
Definition fragmentWidth (scale : float) (item : Double.TextItem.t) : float :=
  let fallback :=
    (Double.ofZ (Z.of_nat (length (Double.TextItem.str item)))
     * fragmentFontSize item * 0.6)%float in
  (match Double.TextItem.width item with
   | Some w => if is_zero w || is_nan w then fallback else w
   | None => fallback
   end * scale)%float.

(** The height of the box: the scaled font size. The box goes from
    [originY - height] up to [originY]. *)
Definition fragmentHeight (scale : float) (item : Double.TextItem.t) : float :=
  (fragmentFontSize item * scale)%float.

Definition regionLeft (r : Double.Redaction.t) : float :=
  Double.ofZ (Double.Redaction.x r).
Definition regionRight (r : Double.Redaction.t) : float :=
  (Double.ofZ (Double.Redaction.x r)
   + Double.ofZ (Double.Redaction.width r))%float.
Definition regionTop (r : Double.Redaction.t) : float :=
  Double.ofZ (Double.Redaction.y r).
Definition regionBottom (r : Double.Redaction.t) : float :=
  (Double.ofZ (Double.Redaction.y r)
   + Double.ofZ (Double.Redaction.height r))%float.

(** The width of the intersection of the box and the region. *)
Definition intersectionWidth (scale : float) (vt : Double.Matrix)
    (item : Double.TextItem.t) (r : Double.Redaction.t) : float :=
  Double.js_max 0
    (Double.js_min (fragmentOriginX vt item + fragmentWidth scale item)
                   (regionRight r)
     - Double.js_max (fragmentOriginX vt item) (regionLeft r))%float.

(** The horizontal overlap ratio: the width of the intersection over the
    width of the box. *)
Definition overlapRatio (scale : float) (vt : Double.Matrix)
    (item : Double.TextItem.t) (r : Double.Redaction.t) : float :=
  (intersectionWidth scale vt item r / fragmentWidth scale item)%float.

(** The vertical centre of the box. *)
Definition verticalCenter (scale : float) (vt : Double.Matrix)
    (item : Double.TextItem.t) : float :=
  ((fragmentOriginY vt item - fragmentHeight scale item
    + fragmentOriginY vt item) / 2)%float.

(** The height of the intersection of the box and the region. *)
Definition intersectionHeight (scale : float) (vt : Double.Matrix)
    (item : Double.TextItem.t) (r : Double.Redaction.t) : float :=
  Double.js_max 0
    (Double.js_min (fragmentOriginY vt item) (regionBottom r)
     - Double.js_max (fragmentOriginY vt item - fragmentHeight scale item)
                     (regionTop r))%float.

(** The test of the associator, as the design document states it. *)
Definition statedAssigned (scale : float) (vt : Double.Matrix)
    (item : Double.TextItem.t) (r : Double.Redaction.t) : Prop :=
  (0.5 <=? overlapRatio scale vt item r)%float = true
  ∧ (regionTop r <=? verticalCenter scale vt item)%float = true
  ∧ (verticalCenter scale vt item <=? regionBottom r)%float = true
  ∧ (0 <? intersectionHeight scale vt item r)%float = true.

(** The test of the export and of the overlay. *)
Definition statedDrawn (scale : float) (vt : Double.Matrix)
    (item : Double.TextItem.t) (r : Double.Redaction.t) : Prop :=
  (fragmentWidth scale item * 0.3 <? intersectionWidth scale vt item r)%float
  = true
  ∧ (regionTop r <=? verticalCenter scale vt item)%float = true
  ∧ (verticalCenter scale vt item <=? regionBottom r)%float = true.

(** The strings of the hidden text of the regions of a page. *)
Definition hiddenTexts (rs : list Double.Redaction.t) : list js_string :=
  r ← rs; Double.FoundText.text <$> Double.Redaction.hiddenText r.

(** What one iteration of [Double.findTextInArea] pushes for the index
    [i], when the call starts with the set [assigned]. *)
Definition pick_d (scale : float) (textItems : list Double.TextItem.t)
    (vt : Double.Matrix) (redaction : Double.Redaction.t)
    (assigned : gset nat) (i : nat) : option Double.FoundText.t :=
  if decide (i ∈ assigned) then None
  else match textItems !! i with
       | Some item =>
           if Double.skipped item then None
           else if Double.insideRedaction scale vt item redaction
                then Some (Double.found scale vt item i) else None
       | None => None
       end.

(** ** Reading order *)

(** The baselines of [a] and [b] are less than 5 pixels apart. *)
Definition sameLine (a b : FoundText.t) : Prop :=
  (Qabs (FoundText.y a - FoundText.y b) < 5)%Q.






(** ** Buffers *)



(** ** The order of the doubles

    The place of a double that is not [NaN] in the order of the
    comparisons: the infinities, the negative numbers by descending
    exponent and significand, zero (of either sign), the positive numbers
    by ascending exponent and significand. *)
Definition keyOf (x : spec_float) : option (Z * Z * Z) :=
  match x with
  | S754_nan => None
  | S754_zero _ => Some (0, 0, 0)
  | S754_infinity s => Some (if s then -2 else 2, 0, 0)
  | S754_finite s m e =>
      Some (if s then (-1, - e, - Zpos m) else (1, e, Zpos m))
  end.

Definition lexLt (a b : Z * Z * Z) : Prop :=
  a.1.1 < b.1.1
  ∨ (a.1.1 = b.1.1 ∧ (a.1.2 < b.1.2 ∨ (a.1.2 = b.1.2 ∧ a.2 < b.2))).

#[local] Instance lexLt_dec : RelDecision lexLt.
Proof. intros a b. unfold lexLt. apply _. Defined.

(** The lower and the higher of two places; of two equal places the
    first. *)
Definition lowerKey (a b : Z * Z * Z) : Z * Z * Z :=
  if decide (lexLt b a) then b else a.

Definition higherKey (a b : Z * Z * Z) : Z * Z * Z :=
  if decide (lexLt a b) then b else a.

(** [x] is at the place [k]. *)
Definition placed (x : float) (k : Z * Z * Z) : Prop :=
  keyOf (Prim2SF x) = Some k.

(** ** Loop invariants *)

(** The state of the outer loop: the groups emitted so far. *)
Record mergeInv (rs : list Redaction.t) (merged : list Redaction.t)
    (used : gset nat) (gs : list (gset nat)) : Prop := mkMergeInv {
  inv_bounds : Forall2 (bounds rs) gs merged;
  inv_used : ∀ i, i ∈ used ↔ ∃ g, g ∈ gs ∧ i ∈ g;
  inv_range : ∀ g i, g ∈ gs → i ∈ g → (i < length rs)%nat;
  inv_disjoint : ∀ k1 k2 g1 g2,
    gs !! k1 = Some g1 → gs !! k2 = Some g2 → k1 ≠ k2 → g1 ## g2;
  inv_closed : ∀ g i j ri rj,
    g ∈ gs → i ∈ g → rs !! i = Some ri → rs !! j = Some rj →
    adjacent ri rj = true → j ∈ g
}.

(** What the scan checks before it pushes a rectangle. *)
Definition passedFilters (img : ImageData.t) (r : Redaction.t) : Prop :=
  minRedactionSize ≤ Redaction.width r ∧ 8 ≤ Redaction.height r
  ∧ dense (countSamples img (Redaction.x r)
                        (Redaction.x r + Redaction.width r)
                        (Redaction.y r)
                        (Redaction.y r + Redaction.height r)) = true.

(** What one iteration of [findTextInArea] pushes for the index [i], when
    the call starts with the set [assigned]. *)
Definition pick (scale : Q) (textItems : list TextItem.t) (vt : Matrix)
    (redaction : Redaction.t) (assigned : gset nat) (i : nat)
    : option FoundText.t :=
  if decide (i ∈ assigned) then None
  else match textItems !! i with
       | Some item =>
           if skipped item then None
           else if insideRedaction scale vt item redaction
                then Some (found scale vt item i) else None
       | None => None
       end.

(** The state of the loop of [processPage] over the regions: the indices
    filed so far are distinct and all in [assignedTextIndices]. *)
Definition assignInv (st : list Redaction.t * gset nat) : Prop :=
  NoDup (hiddenIndices st.1) ∧ ∀ i, i ∈ hiddenIndices st.1 → i ∈ st.2.

(** * Sample inputs *)

(** A redaction as the scan pushes it. *)
Definition mkRedaction (scale : Q) (pageNum : nat) (x y w h : Z)
    : Redaction.t :=
  {| Redaction.page := pageNum;
     Redaction.x := x; Redaction.y := y;
     Redaction.width := w; Redaction.height := h;
     Redaction.pdfX := (inject_Z x / scale)%Q;
     Redaction.pdfY := (inject_Z y / scale)%Q;
     Redaction.pdfWidth := (inject_Z w / scale)%Q;
     Redaction.pdfHeight := (inject_Z h / scale)%Q;
     Redaction.hiddenText := [] |}.

(** A [w] by [h] buffer of opaque pixels of one grey level. *)
Definition uniformImage (level w h : Z) : ImageData.t :=
  ImageData.mk (concat (replicate (Z.to_nat (w * h)) [level; level; level; 255]))
               w h.

(** A white [w] by [h] buffer with black blocks, each given by its first
    and last column and row [(x0, y0, x1, y1)]. *)
Definition blocksImage (w h : Z) (blocks : list (Z * Z * Z * Z)) : ImageData.t :=
  ImageData.mk
    (py ← seqZ 0 h; px ← seqZ 0 w;
     if existsb (λ '(x0, y0, x1, y1),
                   (x0 <=? px) && (px <=? x1) && (y0 <=? py) && (py <=? y1))
                blocks
     then [0; 0; 0; 255] else [255; 255; 255; 255])
    w h.

(** The page of the three sample rectangles. *)
Definition exBars : ImageData.t :=
  blocksImage 90 80 [(45, 0, 65, 8); (0, 15, 20, 75); (25, 60, 85, 75)].

(** A box above the corner of an L made of two bars five pixels apart:
    [exA] is within the gap of neither bar, and within the gap of the
    bounding box of the two, which starts 7 pixels below it. *)
Definition exA : Redaction.t := mkRedaction 1.5 1 45 0 20 8.
Definition exB : Redaction.t := mkRedaction 1.5 1 0 15 20 60.
Definition exC : Redaction.t := mkRedaction 1.5 1 25 60 60 15.

(** A region 100 wide and 20 high at (50, 50), a word that lies in it and
    the placeholder next to the word; the viewport does not move the
    text and the scale is 1. *)
Definition identity : Matrix := mkMatrix 1 0 0 1 0 0.

Definition exSecret : TextItem.t :=
  TextItem.mk (of_ascii "Secret") (mkMatrix 12 0 0 12 55 65) (Some 40%Q)
              (of_ascii "g_d0_f1").

Definition exFiller : TextItem.t :=
  TextItem.mk (of_ascii " 1111 ") (mkMatrix 12 0 0 12 100 65) None
              (of_ascii "g_d0_f1").

Definition exRegion : Redaction.t := mkRedaction 1 1 50 50 100 20.




(** Both items of the sample page and its region, with the hidden text
    filed. *)
Definition exPage : PageData.t :=
  {| PageData.pageNum := 1;
     PageData.width := 300; PageData.height := 200;
     PageData.pdfWidth := 300; PageData.pdfHeight := 200;
     PageData.viewport := Viewport.mk identity 300 200;
     PageData.redactions :=
       (assignHiddenText 1 [exSecret; exFiller] identity [exRegion]).1;
     PageData.textItems := [exSecret; exFiller] |}.

(** A page with a block 20 wide and 8 high at (10, 2) and a word 10 wide
    of which 4 pixels are over the block. *)
Definition exGrazing : Rendered :=
  {| r_viewport := Viewport.mk identity 40 12;
     r_imageData := blocksImage 40 12 [(10, 2, 30, 10)];
     r_textItems :=
       [TextItem.mk (of_ascii "Secret") (mkMatrix 4 0 0 4 4 8) (Some 10%Q) []] |}.




(** ** Sample inputs in doubles *)

Definition identity_d : Double.Matrix := Double.mkMatrix 1 0 0 1 0 0.

Definition mkRegion_d (x y w h : Z) : Double.Redaction.t :=
  {| Double.Redaction.page := 1;
     Double.Redaction.x := x; Double.Redaction.y := y;
     Double.Redaction.width := w; Double.Redaction.height := h;
     Double.Redaction.pdfX := Double.ofZ x;
     Double.Redaction.pdfY := Double.ofZ y;
     Double.Redaction.pdfWidth := Double.ofZ w;
     Double.Redaction.pdfHeight := Double.ofZ h;
     Double.Redaction.hiddenText := [] |}.

(** A word whose box has its middle on the top edge of the region
    (50, 56, 100, 20) after rounding: the font size is one unit in the
    last place above 12, the scale 1.5 and the baseline at 65, and
    [(65 - 18.000000000000004 + 65) / 2] is 56. *)
Definition exEdge : Double.TextItem.t :=
  Double.TextItem.mk (of_ascii "edge")
    (Double.mkMatrix 12.000000000000002 0 0 12.000000000000002 60 65)
    (Some 20%float) [].
Definition exEdgeRegion : Double.Redaction.t := mkRegion_d 50 56 100 20.

(** The region the scan finds on the page [exGrazing] and its word, 10
    wide, of which 4 pixels are over the region. *)
Definition exGrazingRegion : Double.Redaction.t := mkRegion_d 10 2 20 8.
Definition exGrazingWord : Double.TextItem.t :=
  Double.TextItem.mk (of_ascii "Secret") (Double.mkMatrix 4 0 0 4 4 8)
                     (Some 10%float) [].
Definition exGrazingPage : Double.PageData.t :=
  {| Double.PageData.pageNum := 1;
     Double.PageData.width := 40; Double.PageData.height := 12;
     Double.PageData.pdfWidth := 40; Double.PageData.pdfHeight := 12;
     Double.PageData.viewport := Double.Viewport.mk identity_d 40 12;
     Double.PageData.redactions :=
       (Double.assignHiddenText 1 [exGrazingWord] identity_d
                                [exGrazingRegion]).1;
     Double.PageData.textItems := [exGrazingWord] |}.

(** * Vocabulary of the further statements *)

(** No two rectangles of [rs] pass the gap test. *)
Definition separated (rs : list Redaction.t) : Prop :=
  ∀ i j ri rj, i ≠ j → rs !! i = Some ri → rs !! j = Some rj →
               adjacent ri rj = false.

Definition separatedb (rs : list Redaction.t) : bool :=
  forallb (λ ir, forallb (λ jr, (ir.1 =? jr.1)%nat || negb (adjacent ir.2 jr.2))
                         (imap (λ j r, (j, r)) rs))
          (imap (λ i r, (i, r)) rs).

(** The fields of [r] that come with its rectangle: the page number, the
    box in document space and an empty hidden text. *)
Definition consistent (scale : Q) (pageNum : nat) (r : Redaction.t) : Prop :=
  Redaction.page r = pageNum
  ∧ Redaction.pdfX r = (inject_Z (Redaction.x r) / scale)%Q
  ∧ Redaction.pdfY r = (inject_Z (Redaction.y r) / scale)%Q
  ∧ Redaction.pdfWidth r = (inject_Z (Redaction.width r) / scale)%Q
  ∧ Redaction.pdfHeight r = (inject_Z (Redaction.height r) / scale)%Q
  ∧ Redaction.hiddenText r = [].

(** The rectangle of [r] spans columns and rows of the buffer. *)
Definition insideBuffer (img : ImageData.t) (r : Redaction.t) : Prop :=
  0 ≤ Redaction.x r ∧ 0 ≤ Redaction.y r
  ∧ Redaction.x r + Redaction.width r ≤ ImageData.width img - 1
  ∧ Redaction.y r + Redaction.height r ≤ ImageData.height img - 1.

(** On every row of [r] the pixels at every third column, from the left
    edge on, are black. *)
Definition sampledBlack (img : ImageData.t) (r : Redaction.t) : Prop :=
  ∀ row, Redaction.y r ≤ row ≤ Redaction.y r + Redaction.height r →
         rowBlack img (Redaction.x r) (Redaction.x r + Redaction.width r) row
         = true.

(** [r] is a box as the scan grows it: on one of its rows (that of the
    seed) every pixel from the left edge to the right edge is black and
    the walk to either side stopped at the edge of the buffer or before a
    pixel that is not black; every row passes the sampled test, and the
    growth up and down stopped at the edge of the buffer or before a row
    that fails it. *)
Record grown (img : ImageData.t) (r : Redaction.t) : Prop := mkGrown {
  grown_seed_row : ∃ sy,
    Redaction.y r ≤ sy ≤ Redaction.y r + Redaction.height r
    ∧ (∀ px, Redaction.x r ≤ px ≤ Redaction.x r + Redaction.width r →
             isBlack img px sy = true)
    ∧ (Redaction.x r = 0 ∨ isBlack img (Redaction.x r - 1) sy = false)
    ∧ (Redaction.x r + Redaction.width r = ImageData.width img - 1
       ∨ isBlack img (Redaction.x r + Redaction.width r + 1) sy = false);
  grown_rows : sampledBlack img r;
  grown_above :
    Redaction.y r = 0
    ∨ rowBlack img (Redaction.x r) (Redaction.x r + Redaction.width r)
               (Redaction.y r - 1) = false;
  grown_below :
    Redaction.y r + Redaction.height r = ImageData.height img - 1
    ∨ rowBlack img (Redaction.x r) (Redaction.x r + Redaction.width r)
               (Redaction.y r + Redaction.height r + 1) = false
}.

(** The item of index [i] is not passed over and meets the test of
    [findTextInArea] for the region [r]. *)
Definition taken (scale : Q) (textItems : list TextItem.t) (vt : Matrix)
    (r : Redaction.t) (i : nat) : Prop :=
  ∃ item, textItems !! i = Some item ∧ skipped item = false
          ∧ insideRedaction scale vt item r = true.

(** The rectangle the scan grows from the seed [(x, y)]. *)
Definition candidate (scale : Q) (img : ImageData.t) (pageNum : nat)
    (x y : Z) : Redaction.t :=
  let minX := expandLeft img (Z.to_nat x) x y in
  let maxX := expandRight img (Z.to_nat (ImageData.width img - 1 - x)) x y in
  let minY := expandUp img (Z.to_nat y) minX maxX y in
  let maxY := expandDown img (Z.to_nat (ImageData.height img - 1 - y))
                         minX maxX y in
  {| Redaction.page := pageNum;
     Redaction.x := minX;
     Redaction.y := minY;
     Redaction.width := maxX - minX;
     Redaction.height := maxY - minY;
     Redaction.pdfX := (inject_Z minX / scale)%Q;
     Redaction.pdfY := (inject_Z minY / scale)%Q;
     Redaction.pdfWidth := (inject_Z (maxX - minX) / scale)%Q;
     Redaction.pdfHeight := (inject_Z (maxY - minY) / scale)%Q;
     Redaction.hiddenText := [] |}.

(** A page with a block and a word that lies over it. *)
Definition exCovered : Rendered :=
  {| r_viewport := Viewport.mk identity 40 12;
     r_imageData := blocksImage 40 12 [(10, 2, 30, 10)];
     r_textItems :=
       [TextItem.mk (of_ascii "Secret") (mkMatrix 4 0 0 4 12 8) (Some 10%Q) []] |}.

(** The pixel [(px, py)] is in the rectangle of [r] made one pixel wider
    on each side. *)
Definition whitened (r : Redaction.t) (px py : Z) : Prop :=
  Redaction.x r - 1 ≤ px < Redaction.x r + Redaction.width r + 1
  ∧ Redaction.y r - 1 ≤ py < Redaction.y r + Redaction.height r + 1.

(** The indexed regions of page [pageNum], in the order of the list. *)
Definition onPage (redactions : list Redaction.t) (pageNum : nat)
    : list (nat * Redaction.t) :=
  filter (λ ir, Redaction.page ir.2 = pageNum)
         (imap (λ index r, (index, r)) redactions).

(** The number of regions on the pages before the page of index [k]. *)
Definition regionsBefore (pages : list PageData.t) (k : nat) : nat :=
  length (p ← take k pages; PageData.redactions p).

(** The span of the overlay for a draw call of the export, on a canvas
    shown [scaleX] by [scaleY] times its size. *)
Definition spanOf (scaleX scaleY : Q) (ft : FillText) : Span :=
  {| sp_text := ft_text ft;
     sp_left := (ft_x ft * scaleX)%Q;
     sp_top := ((ft_y ft - ft_font ft) * scaleY)%Q;
     sp_fontSize := (ft_font ft * scaleY)%Q |}.

(** A document of two pages, each with one box. *)
Definition exDocument : LoadResult.t :=
  match loadPdf 1 [Normal exCovered; Normal exCovered] with
  | Normal res => res
  | Throw _ => LoadResult.mk 0 [] []
  end.

(** Two files of one page each. *)
Definition exFileA : File.t :=
  File.mk (of_ascii "a.pdf") (Normal [Normal exCovered]).
Definition exFileB : File.t :=
  File.mk (of_ascii "b.pdf") (Normal [Normal exCovered]).

(** A file that is not a PDF document. *)
Definition exFileBad : File.t :=
  File.mk (of_ascii "notes.txt") (Throw (of_ascii "Invalid PDF structure")).

(** * Properties of [mergeRedactions] *)

Section MergeFacts.

Variable scale : Q.
Variable rs : list Redaction.t.

Lemma adjacent_spec a b :
  adjacent a b = true ↔
  Redaction.x a - 10 ≤ Redaction.x b + Redaction.width b
  ∧ Redaction.x b ≤ Redaction.x a + Redaction.width a + 10
  ∧ Redaction.y a - 10 ≤ Redaction.y b + Redaction.height b
  ∧ Redaction.y b ≤ Redaction.y a + Redaction.height a + 10.
Proof.
  unfold adjacent, gap. rewrite !andb_true_iff, !Z.leb_le, !Z.geb_le. tauto.
Qed.

Lemma adjacent_sym a b : adjacent a b = adjacent b a.
Proof.
  apply eq_true_iff_eq. rewrite !adjacent_spec. lia.
Qed.

Lemma adjacent_mono c a b :
  contains c a → adjacent a b = true → adjacent c b = true.
Proof.
  unfold contains. rewrite !adjacent_spec. lia.
Qed.

Lemma contains_refl c : contains c c.
Proof. unfold contains. lia. Qed.

Lemma absorb_contains_l c o : contains (absorb scale c o) c.
Proof. unfold contains, absorb. simpl. lia. Qed.

Lemma absorb_contains_r c o : contains (absorb scale c o) o.
Proof. unfold contains, absorb. simpl. lia. Qed.

Lemma contains_trans a b c : contains a b → contains b c → contains a c.
Proof. unfold contains. lia. Qed.

Lemma bounds_singleton i r : rs !! i = Some r → bounds rs {[i]} r.
Proof.
  intros Hi. split.
  - intros j r' Hj Hr. apply elem_of_singleton in Hj. subst j.
    rewrite Hi in Hr. injection Hr as <-. apply contains_refl.
  - repeat split; exists i, r; (split; [set_solver | split; [done | lia]]).
Qed.

(** Absorbing the rectangle of index [j] turns the bounding box of [g]
    into the bounding box of [g] and [j]. *)
Lemma bounds_absorb g c j o :
  bounds rs g c → rs !! j = Some o → bounds rs ({[j]} ∪ g) (absorb scale c o).
Proof.
  intros (Hc & (i1 & r1 & H1 & E1 & X1) & (i2 & r2 & H2 & E2 & X2)
             & (i3 & r3 & H3 & E3 & X3) & (i4 & r4 & H4 & E4 & X4)) Hj.
  split; [|repeat split].
  - intros i r Hi Hr. apply elem_of_union in Hi as [Hi|Hi].
    + apply elem_of_singleton in Hi. subst i. rewrite Hj in Hr.
      injection Hr as <-. apply absorb_contains_r.
    + eapply contains_trans; [apply absorb_contains_l | by eapply Hc].
  - destruct (Z_le_gt_dec (Redaction.x c) (Redaction.x o)).
    + exists i1, r1. split; [set_solver|]. split; [done|]. simpl. lia.
    + exists j, o. split; [set_solver|]. split; [done|]. simpl. lia.
  - destruct (Z_le_gt_dec (Redaction.y c) (Redaction.y o)).
    + exists i2, r2. split; [set_solver|]. split; [done|]. simpl. lia.
    + exists j, o. split; [set_solver|]. split; [done|]. simpl. lia.
  - destruct (Z_le_gt_dec (Redaction.x o + Redaction.width o)
                          (Redaction.x c + Redaction.width c)).
    + exists i3, r3. split; [set_solver|]. split; [done|]. simpl. lia.
    + exists j, o. split; [set_solver|]. split; [done|]. simpl. lia.
  - destruct (Z_le_gt_dec (Redaction.y o + Redaction.height o)
                          (Redaction.y c + Redaction.height c)).
    + exists i4, r4. split; [set_solver|]. split; [done|]. simpl. lia.
    + exists j, o. split; [set_solver|]. split; [done|]. simpl. lia.
Qed.

(** Once set, [didMerge] stays set to the end of the pass. *)
Lemma absorb_fold_true js : ∀ cur used,
  (foldl (absorbStep scale rs) (cur, used, true) js).2 = true.
Proof.
  induction js as [|j js IH]; intros cur used; [done|].
  simpl. case_decide; [apply IH|].
  destruct (rs !! j) as [o|]; [|apply IH].
  destruct (adjacent cur o); apply IH.
Qed.

(** A pass that ends with [didMerge] unset changed nothing and met no
    unused rectangle next to [current]. *)
Lemma absorb_fold_false js : ∀ cur used c' u',
  foldl (absorbStep scale rs) (cur, used, false) js = (c', u', false) →
  c' = cur ∧ u' = used
  ∧ ∀ j r, j ∈ js → j ∉ used → rs !! j = Some r → adjacent cur r = false.
Proof.
  induction js as [|j js IH]; intros cur used c' u' H.
  - simpl in H. injection H as <- <-. split; [done|]. split; [done|].
    intros j r Hj. by apply elem_of_nil in Hj.
  - simpl in H. case_decide as Hu.
    + destruct (IH _ _ _ _ H) as (-> & -> & Hs). split; [done|]. split; [done|].
      intros k r Hk Hnk Hr. apply elem_of_cons in Hk as [->|Hk]; [done|].
      by eapply Hs.
    + destruct (rs !! j) as [o|] eqn:Ho.
      * destruct (adjacent cur o) eqn:Ha.
        -- pose proof (absorb_fold_true js (absorb scale cur o) ({[j]} ∪ used)) as Ht.
           rewrite H in Ht. discriminate.
        -- destruct (IH _ _ _ _ H) as (-> & -> & Hs).
           split; [done|]. split; [done|].
           intros k r Hk Hnk Hr. apply elem_of_cons in Hk as [->|Hk].
           ++ congruence.
           ++ by eapply Hs.
      * destruct (IH _ _ _ _ H) as (-> & -> & Hs). split; [done|]. split; [done|].
        intros k r Hk Hnk Hr. apply elem_of_cons in Hk as [->|Hk]; [congruence|].
        by eapply Hs.
Qed.

(** What any pass keeps: [current] stays the bounding box of its group,
    which grows by indices that were unused. *)
Lemma absorb_fold_inv js : ∀ cur used did,
  ∃ c' d' g',
    foldl (absorbStep scale rs) (cur, used, did) js = (c', g' ∪ used, d')
    ∧ (∀ g, bounds rs g cur → bounds rs (g' ∪ g) c')
    ∧ g' ## used
    ∧ (∀ j, j ∈ g' → j < length rs)%nat
    ∧ (did = false → d' = true → ∃ j, j ∈ g').
Proof.
  induction js as [|j js IH]; intros cur used did.
  - exists cur, did, ∅. simpl. split; [f_equal; f_equal; set_solver|].
    split; [intros g Hb; by replace (∅ ∪ g) with g by set_solver|].
    split; [set_solver|]. split; [set_solver|]. congruence.
  - simpl. case_decide as Hu; [by apply IH|].
    destruct (rs !! j) as [o|] eqn:Ho; [|by apply IH].
    destruct (adjacent cur o) eqn:Ha; [|by apply IH].
    destruct (IH (absorb scale cur o) ({[j]} ∪ used) true)
      as (c' & d' & g' & Hf & Hb' & Hd & Hlt & _).
    exists c', d', (g' ∪ {[j]}). rewrite Hf.
    split; [f_equal; f_equal; set_solver|].
    split.
    { intros g Hb.
      replace (g' ∪ {[j]} ∪ g) with (g' ∪ ({[j]} ∪ g)) by set_solver.
      apply Hb'. by apply bounds_absorb. }
    split; [set_solver|].
    split.
    + intros k Hk. apply elem_of_union in Hk as [Hk|Hk]; [by apply Hlt|].
      apply elem_of_singleton in Hk. subst k. by eapply lookup_lt_Some.
    + intros _ _. exists j. set_solver.
Qed.

Lemma unused_size_le used : (size (unused rs used) ≤ length rs)%nat.
Proof.
  unfold unused.
  etransitivity; [apply subseteq_size; apply subseteq_difference_l; reflexivity|].
  by rewrite size_set_seq.
Qed.

Lemma unused_shrinks used g' j :
  g' ## used → (∀ k, k ∈ g' → k < length rs)%nat → j ∈ g' →
  (size (unused rs (g' ∪ used)) < size (unused rs used))%nat.
Proof.
  intros Hd Hlt Hj. apply subset_size. unfold unused. split.
  - set_solver.
  - intros Hsub. assert (j ∈ set_seq (C:=gset nat) 0 (length rs) ∖ used) as Hin.
    { apply elem_of_difference. split; [|set_solver].
      apply elem_of_set_seq. specialize (Hlt j Hj). lia. }
    apply Hsub in Hin. set_solver.
Qed.

(** The [while] loop with enough fuel: it ends by a pass without merge,
    [current] is then the bounding box of the group it absorbed and no
    unused rectangle is next to it. *)
Lemma absorbLoop_spec fuel : ∀ cur used,
  (size (unused rs used) < fuel)%nat →
  ∃ c' g',
    absorbLoop scale fuel rs cur used = (c', g' ∪ used)
    ∧ (∀ g, bounds rs g cur → bounds rs (g' ∪ g) c')
    ∧ g' ## used
    ∧ (∀ j, j ∈ g' → j < length rs)%nat
    ∧ (∀ j r, j ∉ g' ∪ used → rs !! j = Some r → adjacent c' r = false).
Proof.
  induction fuel as [|fuel IH]; intros cur used Hfuel; [lia|].
  simpl. unfold absorbPass.
  destruct (absorb_fold_inv (seq 0 (length rs)) cur used false)
    as (c1 & d1 & g1 & Hf & Hb1 & Hd1 & Hlt1 & Hgrow).
  rewrite Hf. destruct d1.
  - destruct (Hgrow eq_refl eq_refl) as [j Hj].
    pose proof (unused_shrinks used g1 j Hd1 Hlt1 Hj) as Hsz.
    destruct (IH c1 (g1 ∪ used) ltac:(lia))
      as (c2 & g2 & Hl & Hb2 & Hd2 & Hlt2 & Hst).
    exists c2, (g2 ∪ g1). rewrite Hl.
    split; [f_equal; set_solver|].
    split.
    { intros g Hb.
      replace (g2 ∪ g1 ∪ g) with (g2 ∪ (g1 ∪ g)) by set_solver. auto. }
    split; [set_solver|].
    split; [intros k Hk; apply elem_of_union in Hk as [Hk|Hk]; auto|].
    intros k r Hk. apply Hst. set_solver.
  - destruct (absorb_fold_false _ _ _ _ _ Hf) as (-> & Hu & Hst).
    exists cur, g1. split; [done|]. split; [done|]. split; [done|].
    split; [done|].
    intros j r Hj Hr. apply (Hst j r); [|set_solver|done].
    apply elem_of_seq. split; [lia|]. simpl. by eapply lookup_lt_Some.
Qed.

(** More fuel than unused indices changes nothing: the fuel of
    [mergeStep] never runs out. *)
Lemma absorbLoop_fuel fuel : ∀ cur used,
  (size (unused rs used) < fuel)%nat →
  absorbLoop scale (S fuel) rs cur used = absorbLoop scale fuel rs cur used.
Proof.
  induction fuel as [|fuel IH]; intros cur used Hfuel; [lia|].
  change (absorbLoop scale (S (S fuel)) rs cur used)
    with (let '(c, u, d) := absorbPass scale rs cur used in
          if d then absorbLoop scale (S fuel) rs c u else (c, u)).
  change (absorbLoop scale (S fuel) rs cur used)
    with (let '(c, u, d) := absorbPass scale rs cur used in
          if d then absorbLoop scale fuel rs c u else (c, u)).
  unfold absorbPass.
  destruct (absorb_fold_inv (seq 0 (length rs)) cur used false)
    as (c1 & d1 & g1 & Hf & _ & Hd1 & Hlt1 & Hgrow).
  rewrite Hf. destruct d1; [|done].
  destruct (Hgrow eq_refl eq_refl) as [j Hj].
  pose proof (unused_shrinks used g1 j Hd1 Hlt1 Hj) as Hsz.
  apply IH. lia.
Qed.

Lemma mergeInv_init : mergeInv rs [] ∅ [].
Proof.
  split.
  - constructor.
  - intros i. split; [set_solver|]. intros (g & Hg & _). by apply elem_of_nil in Hg.
  - intros g i Hg. by apply elem_of_nil in Hg.
  - intros k1 k2 g1 g2 H1. by rewrite lookup_nil in H1.
  - intros g i j ri rj Hg. by apply elem_of_nil in Hg.
Qed.

(** An iteration of the outer loop that starts a group emits it closed. *)
Lemma mergeInv_emit merged used gs i r c' g' :
  mergeInv rs merged used gs →
  i ∉ used → rs !! i = Some r →
  bounds rs (g' ∪ {[i]}) c' →
  g' ## {[i]} ∪ used →
  (∀ j, j ∈ g' → j < length rs)%nat →
  (∀ j rj, j ∉ g' ∪ ({[i]} ∪ used) → rs !! j = Some rj →
           adjacent c' rj = false) →
  mergeInv rs (merged ++ [c']) (g' ∪ ({[i]} ∪ used)) (gs ++ [g' ∪ {[i]}]).
Proof.
  intros [Hb Hu Hr Hd Hc] Hi Hri Hbn Hdn Hlt Hst.
  assert (∀ g, g ∈ gs → g ## g' ∪ {[i]}) as Hold.
  { intros g Hg k Hk Hk'. assert (k ∈ used) by (apply Hu; eauto). set_solver. }
  split.
  - apply Forall2_app; [done|]. by constructor.
  - intros k. rewrite !elem_of_union, elem_of_singleton. split.
    + intros [Hk|[->|Hk]].
      * exists (g' ∪ {[i]}). split; [apply elem_of_app; right; set_solver|set_solver].
      * exists (g' ∪ {[i]}). split; [apply elem_of_app; right; set_solver|set_solver].
      * apply Hu in Hk as (g & Hg & Hk). exists g. split; [|done].
        apply elem_of_app. by left.
    + intros (g & Hg & Hk). apply elem_of_app in Hg as [Hg|Hg].
      * right. right. apply Hu. eauto.
      * apply list_elem_of_singleton in Hg. subst g. set_solver.
  - intros g k Hg Hk. apply elem_of_app in Hg as [Hg|Hg]; [by eapply Hr|].
    apply list_elem_of_singleton in Hg. subst g.
    apply elem_of_union in Hk as [Hk|Hk]; [by apply Hlt|].
    apply elem_of_singleton in Hk. subst k. by eapply lookup_lt_Some.
  - intros k1 k2 g1 g2 H1 H2 Hne.
    apply lookup_snoc_Some in H1 as [[L1 H1]|[L1 <-]];
      apply lookup_snoc_Some in H2 as [[L2 H2]|[L2 <-]].
    + by eapply Hd.
    + apply Hold. by eapply list_elem_of_lookup_2.
    + symmetry. apply Hold. by eapply list_elem_of_lookup_2.
    + lia.
  - intros g a j ra rj Hg Ha Hra Hrj Hadj.
    apply elem_of_app in Hg as [Hg|Hg]; [by eapply Hc|].
    apply list_elem_of_singleton in Hg. subst g.
    destruct (decide (j ∈ g' ∪ {[i]})) as [|Hj]; [done|]. exfalso.
    assert (adjacent c' rj = true) as Hcj.
    { eapply adjacent_mono; [|exact Hadj]. destruct Hbn as [Hcov _]. by eapply Hcov. }
    destruct (decide (j ∈ used)) as [Hju|Hju].
    + apply Hu in Hju as (g & Hg & Hjg).
      assert (a ∈ g) as Hag.
      { eapply (Hc g j a rj ra); try done. by rewrite adjacent_sym. }
      by apply (Hold g Hg a).
    + rewrite (Hst j rj) in Hcj; [done| |done]. set_solver.
Qed.

Lemma merge_fold_inv js : ∀ merged used gs,
  mergeInv rs merged used gs →
  ∃ merged' used' gs',
    foldl (mergeStep scale rs) (merged, used) js = (merged', used')
    ∧ mergeInv rs merged' used' gs'
    ∧ used ⊆ used'
    ∧ (∀ i, i ∈ js → (i < length rs)%nat → i ∈ used').
Proof.
  induction js as [|i js IH]; intros merged used gs Hinv.
  - exists merged, used, gs. split; [done|]. split; [done|]. split; [done|].
    intros i Hi. by apply elem_of_nil in Hi.
  - cbn -[absorbLoop]. case_decide as Hu.
    { destruct (IH _ _ _ Hinv) as (m' & u' & gs' & Hf & Hinv' & Hsub & Hall).
      exists m', u', gs'. split; [done|]. split; [done|]. split; [done|].
      intros k Hk Hlt. apply elem_of_cons in Hk as [->|Hk]; [set_solver|auto]. }
    destruct (rs !! i) as [r|] eqn:Hr.
    2:{ destruct (IH _ _ _ Hinv) as (m' & u' & gs' & Hf & Hinv' & Hsub & Hall).
        exists m', u', gs'. split; [done|]. split; [done|]. split; [done|].
        intros k Hk Hlt. apply elem_of_cons in Hk as [->|Hk]; [|auto].
        apply lookup_ge_None in Hr. lia. }
    destruct (absorbLoop_spec (S (length rs)) r ({[i]} ∪ used))
      as (c' & g' & Hl & Hb & Hd & Hlt & Hst).
    { pose proof (unused_size_le ({[i]} ∪ used)). lia. }
    rewrite Hl.
    assert (bounds rs (g' ∪ {[i]}) c') as Hbn by (apply Hb; by apply bounds_singleton).
    pose proof (mergeInv_emit _ _ _ _ _ _ _ Hinv Hu Hr Hbn Hd Hlt Hst) as Hinv1.
    destruct (IH _ _ _ Hinv1) as (m' & u' & gs' & Hf & Hinv' & Hsub & Hall).
    exists m', u', gs'. split; [done|]. split; [done|]. split; [set_solver|].
    intros k Hk Hlt'. apply elem_of_cons in Hk as [->|Hk]; [set_solver|auto].
Qed.

End MergeFacts.

(** * The merge, group by group *)


Section MergeTraces.

Variable scale : Q.
Variable rs : list Redaction.t.









End MergeTraces.



(** C2. Merging the output of a merge again changes it. On the page
    [exBars] the scan finds the box and the two bars, in this order; the
    merge keeps the box apart from the union of the bars, which is
    within the gap of it, and a second merge joins the two. *)
Theorem mergeRedactions_not_idempotent :
  scanCandidates 1.5 exBars 1 = [exA; exB; exC]
  ∧ Redaction.box <$> detectRedactions 1.5 exBars 1
    = [(45, 0, 20, 8); (0, 15, 85, 60)]
  ∧ Redaction.box <$> mergeRedactions 1.5 (detectRedactions 1.5 exBars 1)
    = [(0, 0, 85, 75)].
Proof.
  assert (scanCandidates 1.5 exBars 1 = [exA; exB; exC]) as Hscan
    by (vm_compute; reflexivity).
  split; [exact Hscan|]. unfold detectRedactions. rewrite Hscan.
  split; vm_compute; reflexivity.
Qed.

(** * Properties of the scan *)

Lemma Qltb_lt (a b : Q) : Qltb a b = true ↔ (a < b)%Q.
Proof.
  unfold Qltb. rewrite negb_true_iff. split.
  - intros H. apply Qnot_le_lt. intros Hle. apply Qle_bool_iff in Hle. congruence.
  - intros H. destruct (Qle_bool b a) eqn:E; [|done].
    apply Qle_bool_iff in E. exfalso. by apply (Qlt_not_le a b).
Qed.

Lemma foldl_fixed {A B} (f : A → B → A) (l : list B) (a : A) :
  (∀ x, x ∈ l → f a x = a) → foldl f a l = a.
Proof.
  induction l as [|x l IH]; intros H; [done|]. simpl.
  rewrite H by apply list_elem_of_here. apply IH.
  intros y Hy. apply H. by apply list_elem_of_further.
Qed.

Lemma foldl_preserves {A B} (P : A → Prop) (f : A → B → A) (l : list B) :
  (∀ a x, x ∈ l → P a → P (f a x)) → ∀ a, P a → P (foldl f a l).
Proof.
  induction l as [|x l IH]; intros H a Ha; [done|]. simpl.
  apply IH.
  - intros a' y Hy. apply H. by apply list_elem_of_further.
  - apply H; [apply list_elem_of_here | done].
Qed.

Lemma elem_of_countUp (lo hi step v : Z) :
  0 < step →
  v ∈ countUp lo hi step ↔ ∃ k, 0 ≤ k ∧ v = lo + step * k ∧ v ≤ hi.
Proof.
  intros Hs. unfold countUp. destruct (hi <? lo) eqn:E.
  - apply Z.ltb_lt in E. split; [intros H; by apply elem_of_nil in H|].
    intros (k & Hk & -> & Hle). nia.
  - apply Z.ltb_ge in E. rewrite list_elem_of_fmap. split.
    + intros (k & -> & Hk). apply elem_of_seqZ in Hk. exists k.
      split; [lia|]. split; [done|].
      assert (k ≤ (hi - lo) / step) as Hk' by lia.
      pose proof (Z.mul_div_le (hi - lo) step Hs). nia.
    + intros (k & Hk & -> & Hle). exists k. split; [done|].
      apply elem_of_seqZ. split; [lia|].
      assert (k ≤ (hi - lo) / step); [|lia].
      apply Z.div_le_lower_bound; lia.
Qed.

Lemma countUp_cons (lo hi step : Z) :
  0 < step → lo ≤ hi →
  countUp lo hi step = lo :: countUp (lo + step) hi step.
Proof.
  intros Hs Hle. unfold countUp.
  destruct (hi <? lo) eqn:E; [apply Z.ltb_lt in E; lia|].
  assert (0 ≤ (hi - lo) / step) as Hn by (apply Z.div_pos; lia).
  rewrite seqZ_cons by lia. rewrite fmap_cons. f_equal; [lia|].
  replace (Z.pred ((hi - lo) / step + 1)) with ((hi - lo) / step) by lia.
  destruct (hi <? lo + step) eqn:E'.
  - apply Z.ltb_lt in E'. rewrite Z.div_small by lia. by rewrite seqZ_nil.
  - apply Z.ltb_ge in E'.
    replace (hi - (lo + step)) with ((hi - lo) + (-1) * step) by lia.
    rewrite Z.div_add by lia.
    replace ((hi - lo) / step + -1 + 1) with ((hi - lo) / step) by lia.
    replace (Z.succ 0) with (1 + 0) by lia.
    rewrite <- fmap_add_seqZ, <- list_fmap_compose.
    apply list_fmap_ext. intros _ k _. simpl. lia.
Qed.

Section ScanFacts.

Variable scale : Q.
Variable img : ImageData.t.
Variable pageNum : nat.


Lemma scanCell_passed st y x :
  Forall (passedFilters img) st.1 →
  Forall (passedFilters img) (scanCell scale img pageNum st y x).1.
Proof.
  destruct st as [redactions visited]. simpl. intros Hall.
  unfold scanCell. case_decide as Hv; [done|].
  destruct (isBlack img x y); [|done].
  set (minX := expandLeft img (Z.to_nat x) x y).
  set (maxX := expandRight img (Z.to_nat (ImageData.width img - 1 - x)) x y).
  set (minY := expandUp img (Z.to_nat y) minX maxX y).
  set (maxY := expandDown img (Z.to_nat (ImageData.height img - 1 - y)) minX maxX y).
  destruct ((maxX - minX >=? minRedactionSize) && (maxY - minY >=? 8)) eqn:Hsize;
    [|exact Hall].
  destruct (dense (countSamples img minX maxX minY maxY)) eqn:Hdense;
    [|exact Hall].
  simpl. apply Forall_app. split; [done|]. constructor; [|constructor].
  apply andb_true_iff in Hsize as [Hw Hh].
  apply Z.geb_le in Hw, Hh.
  unfold passedFilters. simpl.
  replace (minX + (maxX - minX)) with maxX by lia.
  replace (minY + (maxY - minY)) with maxY by lia.
  done.
Qed.

Lemma scanCandidates_passed :
  Forall (passedFilters img) (scanCandidates scale img pageNum).
Proof.
  unfold scanCandidates.
  apply (foldl_preserves (λ st, Forall (passedFilters img) st.1)); [|constructor].
  intros st y _ Hst. unfold scanRow.
  apply (foldl_preserves (λ st, Forall (passedFilters img) st.1)); [|done].
  intros st' x _. apply scanCell_passed.
Qed.

Lemma countSamples_row vy xs : ∀ c : Z * Z,
  foldl (λ c' vx, ((if isBlack img vx vy then c'.1 + 1 else c'.1), c'.2 + 1))
        c xs
  = (c.1 + Z.of_nat (length (List.filter (λ p, isBlack img p.1 p.2)
                                         ((λ vx, (vx, vy)) <$> xs))),
     c.2 + Z.of_nat (length xs)).
Proof.
  induction xs as [|vx xs IH]; intros [b t].
  - cbn. f_equal; lia.
  - cbn [foldl]. rewrite IH. rewrite fmap_cons. cbn [List.filter fst snd].
    destruct (isBlack img vx vy); cbn [length]; f_equal; lia.
Qed.

Lemma countSamples_rows xs ys : ∀ c : Z * Z,
  foldl (λ c vy,
           foldl (λ c' vx, ((if isBlack img vx vy then c'.1 + 1 else c'.1),
                            c'.2 + 1)) c xs) c ys
  = (c.1 + Z.of_nat (length (List.filter (λ p, isBlack img p.1 p.2)
                               (vy ← ys; (λ vx, (vx, vy)) <$> xs))),
     c.2 + Z.of_nat (length (vy ← ys; (λ vx, (vx, vy)) <$> xs))).
Proof.
  induction ys as [|vy ys IH]; intros [b t].
  - cbn. f_equal; lia.
  - cbn [foldl]. rewrite countSamples_row, IH. cbn [fst snd].
    rewrite bind_cons, List.filter_app, !length_app, length_fmap.
    f_equal; lia.
Qed.

(** The two counters of the density loops count the black sample points
    and the sample points. *)
Lemma countSamples_spec minX maxX minY maxY :
  countSamples img minX maxX minY maxY
  = (Z.of_nat (length (List.filter (λ p, isBlack img p.1 p.2)
                         (samplePoints minX maxX minY maxY))),
     Z.of_nat (length (samplePoints minX maxX minY maxY))).
Proof. unfold countSamples. by rewrite countSamples_rows. Qed.

Lemma dense_density minX maxX minY maxY :
  dense (countSamples img minX maxX minY maxY) = true
  ↔ (0.85 < density img minX maxX minY maxY)%Q.
Proof. unfold dense. rewrite countSamples_spec, Qltb_lt. done. Qed.

Lemma everyPixel_spec f :
  everyPixel img f = true →
  ∀ x y, 0 ≤ x < ImageData.width img → 0 ≤ y < ImageData.height img →
         f x y = true.
Proof.
  unfold everyPixel. intros Hall x y Hx Hy.
  rewrite forallb_forall in Hall.
  assert (In y (seqZ 0 (ImageData.height img))) as Hiy
    by (apply list_elem_of_In, elem_of_seqZ; lia).
  specialize (Hall y Hiy). rewrite forallb_forall in Hall.
  apply Hall. apply list_elem_of_In, elem_of_seqZ. lia.
Qed.

Lemma everyPixel_allBlack : everyPixel img (isBlack img) = true → allBlack img.
Proof. intros Hp x y. by apply everyPixel_spec. Qed.

Lemma everyPixel_noBlack :
  everyPixel img (λ x y, negb (isBlack img x y)) = true → noBlack img.
Proof.
  intros Hp x y Hx Hy. apply negb_true_iff.
  by apply (everyPixel_spec _ Hp).
Qed.

(** Outside of the buffer nothing is black. *)
Lemma isBlack_outside x y :
  ¬ (0 ≤ x < ImageData.width img ∧ 0 ≤ y < ImageData.height img) →
  isBlack img x y = false.
Proof.
  intros Hout. unfold isBlack.
  destruct ((x <? 0) || (x >=? ImageData.width img) || (y <? 0)
            || (y >=? ImageData.height img)) eqn:E; [done|].
  rewrite !orb_false_iff in E. destruct E as [[[E1 E2] E3] E4].
  apply Z.ltb_ge in E1, E3. rewrite Z.geb_leb in E2, E4.
  apply Z.leb_gt in E2, E4. lia.
Qed.

(** A cell that is visited or not black leaves the scan as it is. *)
Lemma scanCell_skip st y x :
  (x, y) ∈ st.2 ∨ isBlack img x y = false →
  scanCell scale img pageNum st y x = st.
Proof.
  destruct st as [redactions visited]. simpl. unfold scanCell.
  intros [Hv|Hb].
  - by rewrite decide_True.
  - case_decide; [done|]. by rewrite Hb.
Qed.

Lemma scan_noBlack :
  noBlack img → scanCandidates scale img pageNum = [].
Proof.
  intros Hno. unfold scanCandidates.
  rewrite foldl_fixed; [done|]. intros y _. unfold scanRow.
  apply foldl_fixed. intros x _. apply scanCell_skip. right.
  destruct (decide (0 ≤ x < ImageData.width img ∧ 0 ≤ y < ImageData.height img))
    as [[Hx Hy]|Hout]; [by apply Hno | by apply isBlack_outside].
Qed.

Section AllBlack.

Hypothesis Hblack : allBlack img.

Lemma expandRight_allBlack y fuel : ∀ maxX,
  0 ≤ y < ImageData.height img → 0 ≤ maxX →
  maxX + Z.of_nat fuel = ImageData.width img - 1 →
  expandRight img fuel maxX y = ImageData.width img - 1.
Proof.
  induction fuel as [|fuel IH]; intros maxX Hy Hx Hf; simpl; [lia|].
  assert ((maxX <? ImageData.width img - 1) = true) as -> by (apply Z.ltb_lt; lia).
  rewrite Hblack by lia. simpl. apply IH; lia.
Qed.

Lemma rowBlack_allBlack minX maxX row :
  0 ≤ minX → maxX < ImageData.width img → 0 ≤ row < ImageData.height img →
  rowBlack img minX maxX row = true.
Proof.
  intros Hlo Hhi Hrow. unfold rowBlack. apply forallb_forall.
  intros tx Htx. apply list_elem_of_In, elem_of_countUp in Htx; [|lia].
  destruct Htx as (k & Hk & -> & Hle). apply Hblack; lia.
Qed.

Lemma expandDown_allBlack minX maxX fuel : ∀ maxY,
  0 ≤ minX → maxX < ImageData.width img → 0 ≤ maxY →
  maxY + Z.of_nat fuel = ImageData.height img - 1 →
  expandDown img fuel minX maxX maxY = ImageData.height img - 1.
Proof.
  induction fuel as [|fuel IH]; intros maxY Hlo Hhi Hy Hf; simpl; [lia|].
  assert ((maxY <? ImageData.height img - 1) = true) as -> by (apply Z.ltb_lt; lia).
  rewrite rowBlack_allBlack by lia. apply IH; lia.
Qed.

Lemma density_allBlack minX maxX minY maxY :
  0 ≤ minX ≤ maxX → maxX < ImageData.width img →
  0 ≤ minY ≤ maxY → maxY < ImageData.height img →
  dense (countSamples img minX maxX minY maxY) = true.
Proof.
  intros Hx Hx' Hy Hy'. rewrite countSamples_spec. unfold dense. cbn [fst snd].
  set (pts := samplePoints minX maxX minY maxY).
  assert (List.filter (λ p, isBlack img p.1 p.2) pts = pts) as ->.
  { apply forallb_filter_id, forallb_forall. intros [vx vy] Hp.
    apply list_elem_of_In in Hp. unfold pts, samplePoints in Hp.
    apply list_elem_of_bind in Hp as (vy' & Hp & Hvy).
    apply list_elem_of_fmap in Hp as (vx' & [= -> ->] & Hvx).
    apply elem_of_countUp in Hvx as (kx & ? & -> & ?); [|lia].
    apply elem_of_countUp in Hvy as (ky & ? & -> & ?); [|lia].
    simpl. apply Hblack; lia. }
  assert (0 < length pts)%nat as Hpos.
  { unfold pts, samplePoints.
    rewrite (countUp_cons minY), (countUp_cons minX) by lia.
    rewrite bind_cons, fmap_cons. simpl. lia. }
  apply Qltb_lt. apply Qlt_shift_div_l.
  - unfold Qlt. simpl. lia.
  - unfold Qlt. simpl. lia.
Qed.

End AllBlack.

Lemma markVisited_row vy xs p : ∀ v : gset (Z * Z),
  p ∈ foldl (λ v' vx, {[ (vx, vy) ]} ∪ v') v xs
  ↔ p ∈ v ∨ (p.1 ∈ xs ∧ p.2 = vy).
Proof.
  induction xs as [|vx xs IH]; intros v; simpl.
  - split; [by left|]. intros [?|[Hin _]]; [done|]. by apply elem_of_nil in Hin.
  - rewrite IH, elem_of_union, elem_of_singleton, elem_of_cons.
    destruct p as [px py]. simpl. split.
    + intros [[[= -> ->]|?]|[? ?]]; auto.
    + intros [?|[[->|?] ->]]; auto.
Qed.

Lemma markVisited_spec visited minX maxX minY maxY p :
  p ∈ markVisited visited minX maxX minY maxY
  ↔ p ∈ visited ∨ (p.1 ∈ countUp minX maxX 5 ∧ p.2 ∈ countUp minY maxY 5).
Proof.
  unfold markVisited. generalize (countUp minY maxY 5) as ys.
  intros ys. revert visited.
  induction ys as [|vy ys IH]; intros visited; simpl.
  - split; [by left|]. intros [?|[_ Hin]]; [done|]. by apply elem_of_nil in Hin.
  - rewrite IH, markVisited_row, elem_of_cons. split.
    + intros [[?|[? ->]]|[? ?]]; auto.
    + intros [?|[? [->|?]]]; auto.
Qed.

(** On a black buffer the first seed grows to the whole buffer and
    marks every later seed. *)
Lemma scan_allBlack :
  allBlack img → 0 < ImageData.width img → 0 < ImageData.height img →
  scanCandidates scale img pageNum
  = if (ImageData.width img - 1 >=? minRedactionSize)
       && (ImageData.height img - 1 >=? 8)
    then [mkRedaction scale pageNum 0 0 (ImageData.width img - 1)
                      (ImageData.height img - 1)]
    else [].
Proof.
  intros Hblack HW HH. unfold scanCandidates.
  rewrite (countUp_cons 0 (ImageData.height img - 1)) by lia.
  cbn [foldl]. unfold scanRow at 2.
  rewrite (countUp_cons 0 (ImageData.width img - 1)) by lia.
  cbn [foldl].
  set (st := scanCell scale img pageNum ([], ∅) 0 0).
  set (V := markVisited ∅ 0 (ImageData.width img - 1) 0
                        (ImageData.height img - 1)).
  assert (st = (if (ImageData.width img - 1 >=? minRedactionSize)
                   && (ImageData.height img - 1 >=? 8)
                then [mkRedaction scale pageNum 0 0 (ImageData.width img - 1)
                                  (ImageData.height img - 1)]
                else [], V)) as Hst.
  { unfold st, scanCell. rewrite decide_False by set_solver.
    rewrite Hblack by lia. change (Z.to_nat 0) with 0%nat.
    cbn [expandLeft expandUp].
    rewrite (expandRight_allBlack Hblack) by lia.
    rewrite (expandDown_allBlack Hblack) by lia.
    rewrite !Z.sub_0_r. fold V.
    destruct ((ImageData.width img - 1 >=? minRedactionSize)
              && (ImageData.height img - 1 >=? 8)); [|done].
    rewrite (density_allBlack Hblack) by lia. done. }
  assert (∀ x y, x ∈ countUp 0 (ImageData.width img - 1) 5 →
                 y ∈ countUp 0 (ImageData.height img - 1) 5 →
                 (x, y) ∈ st.2) as Hvis.
  { intros x y Hx Hy. rewrite Hst. cbn [snd]. apply markVisited_spec. by right. }
  assert (0 ∈ countUp 0 (ImageData.width img - 1) 5) as H0x
    by (rewrite countUp_cons by lia; apply list_elem_of_here).
  assert (0 ∈ countUp 0 (ImageData.height img - 1) 5) as H0y
    by (rewrite countUp_cons by lia; apply list_elem_of_here).
  rewrite (foldl_fixed _ (countUp (0 + 5) (ImageData.width img - 1) 5) st).
  2:{ intros x Hx. apply scanCell_skip. left. apply Hvis; [|done].
      rewrite (countUp_cons 0) by lia. by apply list_elem_of_further. }
  rewrite foldl_fixed.
  - by rewrite Hst.
  - intros y Hy. unfold scanRow. apply foldl_fixed. intros x Hx.
    apply scanCell_skip. left. apply Hvis; [done|].
    rewrite (countUp_cons 0) by lia. by apply list_elem_of_further.
Qed.

(** The fuel of the four expansions is enough: more of it changes
    nothing. *)
Lemma expandLeft_fuel y fuel : ∀ minX,
  minX ≤ Z.of_nat fuel →
  expandLeft img (S fuel) minX y = expandLeft img fuel minX y.
Proof.
  induction fuel as [|fuel IH]; intros minX Hf.
  - simpl. destruct (minX >? 0) eqn:E; [|done]. apply Z.gtb_lt in E. lia.
  - change (expandLeft img (S (S fuel)) minX y)
      with (if (minX >? 0) && isBlack img (minX - 1) y
            then expandLeft img (S fuel) (minX - 1) y else minX).
    change (expandLeft img (S fuel) minX y)
      with (if (minX >? 0) && isBlack img (minX - 1) y
            then expandLeft img fuel (minX - 1) y else minX).
    destruct ((minX >? 0) && isBlack img (minX - 1) y); [|done].
    apply IH. lia.
Qed.

Lemma expandRight_fuel y fuel : ∀ maxX,
  ImageData.width img - 1 - maxX ≤ Z.of_nat fuel →
  expandRight img (S fuel) maxX y = expandRight img fuel maxX y.
Proof.
  induction fuel as [|fuel IH]; intros maxX Hf.
  - simpl. destruct (maxX <? ImageData.width img - 1) eqn:E; [|done].
    apply Z.ltb_lt in E. lia.
  - change (expandRight img (S (S fuel)) maxX y)
      with (if (maxX <? ImageData.width img - 1) && isBlack img (maxX + 1) y
            then expandRight img (S fuel) (maxX + 1) y else maxX).
    change (expandRight img (S fuel) maxX y)
      with (if (maxX <? ImageData.width img - 1) && isBlack img (maxX + 1) y
            then expandRight img fuel (maxX + 1) y else maxX).
    destruct ((maxX <? ImageData.width img - 1) && isBlack img (maxX + 1) y);
      [|done].
    apply IH. lia.
Qed.

Lemma expandUp_fuel minX maxX fuel : ∀ minY,
  minY ≤ Z.of_nat fuel →
  expandUp img (S fuel) minX maxX minY = expandUp img fuel minX maxX minY.
Proof.
  induction fuel as [|fuel IH]; intros minY Hf.
  - simpl. destruct (minY >? 0) eqn:E; [|done]. apply Z.gtb_lt in E. lia.
  - change (expandUp img (S (S fuel)) minX maxX minY)
      with (if minY >? 0
            then if rowBlack img minX maxX (minY - 1)
                 then expandUp img (S fuel) minX maxX (minY - 1) else minY
            else minY).
    change (expandUp img (S fuel) minX maxX minY)
      with (if minY >? 0
            then if rowBlack img minX maxX (minY - 1)
                 then expandUp img fuel minX maxX (minY - 1) else minY
            else minY).
    destruct (minY >? 0); [|done].
    destruct (rowBlack img minX maxX (minY - 1)); [|done].
    apply IH. lia.
Qed.

Lemma expandDown_fuel minX maxX fuel : ∀ maxY,
  ImageData.height img - 1 - maxY ≤ Z.of_nat fuel →
  expandDown img (S fuel) minX maxX maxY = expandDown img fuel minX maxX maxY.
Proof.
  induction fuel as [|fuel IH]; intros maxY Hf.
  - simpl. destruct (maxY <? ImageData.height img - 1) eqn:E; [|done].
    apply Z.ltb_lt in E. lia.
  - change (expandDown img (S (S fuel)) minX maxX maxY)
      with (if maxY <? ImageData.height img - 1
            then if rowBlack img minX maxX (maxY + 1)
                 then expandDown img (S fuel) minX maxX (maxY + 1) else maxY
            else maxY).
    change (expandDown img (S fuel) minX maxX maxY)
      with (if maxY <? ImageData.height img - 1
            then if rowBlack img minX maxX (maxY + 1)
                 then expandDown img fuel minX maxX (maxY + 1) else maxY
            else maxY).
    destruct (maxY <? ImageData.height img - 1); [|done].
    destruct (rowBlack img minX maxX (maxY + 1)); [|done].
    apply IH. lia.
Qed.

(** With a dimension that is not positive the scan loops do not run. *)
Lemma scan_empty_buffer :
  ImageData.width img ≤ 0 ∨ ImageData.height img ≤ 0 →
  scanCandidates scale img pageNum = [].
Proof.
  intros Hdim. unfold scanCandidates.
  rewrite foldl_fixed; [done|]. intros y _. unfold scanRow.
  apply foldl_fixed. intros x Hx. apply scanCell_skip. right.
  apply isBlack_outside. intros [Hx' Hy']. 
  destruct Hdim; lia.
Qed.

End ScanFacts.

(** C5. A rectangle the scan emits (before the merge) is at least 20
    wide and 8 high, and more than 0.85 of the pixels sampled over it with
    a stride of 2 on both axes are black. *)
Theorem scan_emits_dense (scale : Q) (img : ImageData.t) (pageNum : nat)
    (r : Redaction.t) :
  r ∈ scanCandidates scale img pageNum →
  20 ≤ Redaction.width r ∧ 8 ≤ Redaction.height r
  ∧ (0.85 < density img (Redaction.x r) (Redaction.x r + Redaction.width r)
                        (Redaction.y r) (Redaction.y r + Redaction.height r))%Q.
Proof.
  intros Hr.
  pose proof (scanCandidates_passed scale img pageNum) as Hall.
  rewrite Forall_forall in Hall. destruct (Hall r Hr) as (Hw & Hh & Hd).
  split; [exact Hw|]. split; [exact Hh|]. by apply dense_density.
Qed.

Lemma scan_emits_dense_witness :
  mkRedaction 1.5 1 0 0 20 8 ∈ scanCandidates 1.5 (uniformImage 0 21 9) 1
  ∧ (0.85 < density (uniformImage 0 21 9) 0 20 0 8)%Q.
Proof.
  assert (mkRedaction 1.5 1 0 0 20 8 ∈ scanCandidates 1.5 (uniformImage 0 21 9) 1)
    as Hin.
  { assert (scanCandidates 1.5 (uniformImage 0 21 9) 1
            = [mkRedaction 1.5 1 0 0 20 8]) as -> by (vm_compute; reflexivity).
    apply list_elem_of_here. }
  split; [exact Hin|].
  exact (proj2 (proj2 (scan_emits_dense 1.5 (uniformImage 0 21 9) 1 _ Hin))).
Defined.

(** C9. A buffer without a black pixel gives the empty list; a black
    buffer whose box passes the size filter (the box of a [W] by [H]
    buffer is [W - 1] wide and [H - 1] high) gives one region, from the
    first to the last column and row of the buffer. *)
Theorem detect_uniform (scale : Q) (img : ImageData.t) (pageNum : nat) :
  (noBlack img → detectRedactions scale img pageNum = [])
  ∧ (allBlack img →
     20 ≤ ImageData.width img - 1 → 8 ≤ ImageData.height img - 1 →
     detectRedactions scale img pageNum
     = [mkRedaction scale pageNum 0 0 (ImageData.width img - 1)
                    (ImageData.height img - 1)]).
Proof.
  split.
  - intros Hno. unfold detectRedactions. by rewrite scan_noBlack.
  - intros Hblack Hw Hh. unfold detectRedactions.
    rewrite scan_allBlack by (done || lia).
    assert ((ImageData.width img - 1 >=? minRedactionSize) = true) as ->
      by (apply Z.geb_le; unfold minRedactionSize; lia).
    assert ((ImageData.height img - 1 >=? 8) = true) as ->
      by (apply Z.geb_le; lia).
    reflexivity.
Qed.

Lemma detect_uniform_witness :
  detectRedactions 1.5 (uniformImage 255 10 10) 1 = []
  ∧ detectRedactions 1.5 (uniformImage 0 21 9) 1
    = [mkRedaction 1.5 1 0 0 20 8].
Proof.
  split.
  - apply (proj1 (detect_uniform 1.5 (uniformImage 255 10 10) 1)).
    apply everyPixel_noBlack. vm_compute. reflexivity.
  - apply (proj2 (detect_uniform 1.5 (uniformImage 0 21 9) 1)).
    + apply everyPixel_allBlack. vm_compute. reflexivity.
    + simpl. lia.
    + simpl. lia.
Defined.

(** * Properties of the association of text *)

Lemma sortInsert_perm {A} (cmp : A → A → Q) e l : sortInsert cmp e l ≡ₚ e :: l.
Proof.
  induction l as [|p l IH]; simpl; [done|].
  destruct (Qltb (cmp e p) 0); [done|].
  rewrite IH. apply Permutation_swap.
Qed.

Lemma js_sort_perm {A} (cmp : A → A → Q) l : js_sort cmp l ≡ₚ l.
Proof.
  unfold js_sort.
  assert (∀ acc, foldl (λ acc e, sortInsert cmp e acc) acc l ≡ₚ l ++ acc) as Hgen.
  { induction l as [|e l IH]; intros acc; simpl; [done|].
    rewrite IH, sortInsert_perm. by rewrite Permutation_middle. }
  rewrite Hgen. by rewrite app_nil_r.
Qed.

Lemma omap_cons {A B} (f : A → option B) (x : A) (l : list A) :
  omap f (x :: l)
  = match f x with Some y => y :: omap f l | None => omap f l end.
Proof. reflexivity. Qed.

Section TextFacts.

Variable scale : Q.
Variable textItems : list TextItem.t.
Variable vt : Matrix.

Lemma pick_index redaction assigned i ft :
  pick scale textItems vt redaction assigned i = Some ft → FoundText.index ft = i.
Proof.
  unfold pick. case_decide; [done|]. destruct (textItems !! i); [|done].
  destruct (skipped t); [done|].
  destruct (insideRedaction scale vt t redaction); [|done].
  by intros [= <-].
Qed.

Lemma pick_ext redaction a1 a2 (js : list nat) :
  (∀ i, i ∈ js → i ∈ a1 ↔ i ∈ a2) →
  omap (pick scale textItems vt redaction a1) js = omap (pick scale textItems vt redaction a2) js.
Proof.
  induction js as [|j js IH]; intros Hext; [done|]. rewrite !omap_cons.
  assert (pick scale textItems vt redaction a1 j = pick scale textItems vt redaction a2 j) as ->.
  { unfold pick. pose proof (Hext j (list_elem_of_here _ _)) as Hj.
    destruct (decide (j ∈ a1)), (decide (j ∈ a2)); tauto. }
  rewrite IH; [done|]. intros i Hi. apply Hext. by apply list_elem_of_further.
Qed.

Lemma findStep_pick redaction foundText assigned j :
  findStep scale textItems redaction vt (foundText, assigned) j
  = match pick scale textItems vt redaction assigned j with
    | Some ft => (foundText ++ [ft], {[j]} ∪ assigned)
    | None => (foundText, assigned)
    end.
Proof.
  unfold findStep, pick. case_decide; [done|].
  destruct (textItems !! j) as [item|]; [|done].
  destruct (skipped item); [done|].
  by destruct (insideRedaction scale vt item redaction).
Qed.

(** The loop of [findTextInArea] in closed form: whether an index is
    taken depends on the set the call started with only. *)
Lemma findStep_fold redaction js : ∀ foundText assigned,
  NoDup js →
  foldl (findStep scale textItems redaction vt) (foundText, assigned) js
  = (foundText ++ omap (pick scale textItems vt redaction assigned) js,
     list_to_set (FoundText.index <$> omap (pick scale textItems vt redaction assigned) js)
     ∪ assigned).
Proof.
  induction js as [|j js IH]; intros foundText assigned Hnd.
  - simpl. rewrite app_nil_r. f_equal. set_solver.
  - apply NoDup_cons in Hnd as [Hj Hnd]. cbn [foldl].
    rewrite findStep_pick, omap_cons.
    destruct (pick scale textItems vt redaction assigned j) as [ft|] eqn:Hp; [|by apply IH].
    rewrite IH by done.
    rewrite (pick_ext redaction ({[j]} ∪ assigned) assigned js).
    2:{ intros i Hi. rewrite elem_of_union, elem_of_singleton.
        split; [intros [->|?]; done | by right]. }
    rewrite <- app_assoc, fmap_cons, (pick_index _ _ _ _ Hp).
    f_equal. set_solver.
Qed.

Lemma pick_indices_sublist redaction assigned (js : list nat) :
  FoundText.index <$> omap (pick scale textItems vt redaction assigned) js `sublist_of` js.
Proof.
  induction js as [|j js IH]; [done|]. rewrite omap_cons.
  destruct (pick scale textItems vt redaction assigned j) as [ft|] eqn:Hp.
  - rewrite fmap_cons, (pick_index _ _ _ _ Hp). by apply sublist_skip.
  - by apply sublist_cons.
Qed.

(** [findTextInArea] returns the picked entries, sorted, and adds their
    indices to the shared set. *)
Lemma findTextInArea_spec redaction assigned :
  ∃ foundText,
    findTextInArea scale textItems redaction vt assigned
    = (js_sort byPosition foundText,
       list_to_set (FoundText.index <$> foundText) ∪ assigned)
    ∧ foundText = omap (pick scale textItems vt redaction assigned) (seq 0 (length textItems)).
Proof.
  exists (omap (pick scale textItems vt redaction assigned) (seq 0 (length textItems))).
  split; [|done]. unfold findTextInArea.
  rewrite findStep_fold by apply NoDup_seq. done.
Qed.

Lemma pick_Some redaction assigned i ft :
  pick scale textItems vt redaction assigned i = Some ft ↔
  (i ∉ assigned)
  ∧ ∃ item, textItems !! i = Some item ∧ skipped item = false
            ∧ insideRedaction scale vt item redaction = true
            ∧ ft = found scale vt item i.
Proof.
  unfold pick. split.
  - case_decide; [done|]. destruct (textItems !! i) as [item|]; [|done].
    destruct (skipped item) eqn:Hs; [done|].
    destruct (insideRedaction scale vt item redaction) eqn:Hi; [|done].
    intros [= <-]. split; [done|]. by exists item.
  - intros (Hi & item & -> & -> & -> & ->). by rewrite decide_False.
Qed.

(** The entries [findTextInArea] returns. *)
Lemma findTextInArea_elem redaction assigned ft :
  ft ∈ (findTextInArea scale textItems redaction vt assigned).1
  ↔ pick scale textItems vt redaction assigned (FoundText.index ft) = Some ft.
Proof.
  destruct (findTextInArea_spec redaction assigned) as (l & -> & ->).
  cbn [fst]. rewrite js_sort_perm, list_elem_of_omap. split.
  - intros (i & _ & Hp). by rewrite (pick_index _ _ _ _ Hp).
  - intros Hp. exists (FoundText.index ft). split; [|done].
    apply pick_Some in Hp as (_ & item & Hi & _).
    apply elem_of_seq. apply lookup_lt_Some in Hi. lia.
Qed.

Lemma findTextInArea_indices redaction assigned :
  let res := findTextInArea scale textItems redaction vt assigned in
  NoDup (FoundText.index <$> res.1)
  ∧ (∀ i, i ∈ FoundText.index <$> res.1 → i ∉ assigned)
  ∧ (∀ i, i ∈ res.2 ↔ i ∈ FoundText.index <$> res.1 ∨ i ∈ assigned).
Proof.
  destruct (findTextInArea_spec redaction assigned) as (l & Hres & Hl).
  cbv zeta. rewrite Hres. cbn [fst snd].
  assert (FoundText.index <$> js_sort byPosition l ≡ₚ FoundText.index <$> l)
    as Hperm by (by rewrite js_sort_perm).
  split; [|split].
  - rewrite Hperm, Hl.
    apply (sublist_NoDup _ (seq 0 (length textItems))).
    + apply NoDup_seq.
    + apply pick_indices_sublist.
  - intros i. rewrite Hperm, Hl. intros Hi.
    apply list_elem_of_fmap in Hi as (ft & -> & Hft).
    apply list_elem_of_omap in Hft as (k & _ & Hp).
    rewrite (pick_index _ _ _ _ Hp). by apply pick_Some in Hp as [? _].
  - intros i. rewrite Hperm, elem_of_union, elem_of_list_to_set. done.
Qed.

Lemma hiddenIndices_snoc out r h :
  hiddenIndices (out ++ [setHiddenText r h])
  = hiddenIndices out ++ (FoundText.index <$> h).
Proof.
  unfold hiddenIndices. rewrite bind_app. f_equal.
  rewrite bind_cons. cbn. by rewrite app_nil_r.
Qed.

Lemma assignHiddenText_inv pageRedactions :
  assignInv (assignHiddenText scale textItems vt pageRedactions).
Proof.
  unfold assignHiddenText.
  apply (foldl_preserves assignInv).
  2:{ split; [constructor|]. intros i Hi. by apply elem_of_nil in Hi. }
  intros [out assigned] r _ [Hnd Hsub]. cbn [fst snd] in *.
  pose proof (findTextInArea_indices r assigned) as (Hn & Hfresh & Hset).
  destruct (findTextInArea scale textItems r vt assigned) as [h a'].
  cbn [fst snd] in *. split; cbn [fst snd]; rewrite hiddenIndices_snoc.
  - apply NoDup_app. split; [done|]. split; [|done].
    intros i Hi Hi'. by apply (Hfresh i Hi'), Hsub.
  - intros i Hi. apply Hset. apply elem_of_app in Hi as [Hi|Hi]; auto.
Qed.

(** Every entry of a hidden text comes from an item that was not passed
    over. *)
Lemma assignHiddenText_entries pageRedactions r ft :
  r ∈ (assignHiddenText scale textItems vt pageRedactions).1 →
  ft ∈ Redaction.hiddenText r →
  ∃ item, textItems !! FoundText.index ft = Some item
          ∧ skipped item = false
          ∧ FoundText.text ft = TextItem.str item.
Proof.
  unfold assignHiddenText. revert r ft.
  apply (foldl_preserves
           (λ st, ∀ r ft, r ∈ st.1 → ft ∈ Redaction.hiddenText r →
                          ∃ item, textItems !! FoundText.index ft = Some item
                                  ∧ skipped item = false
                                  ∧ FoundText.text ft = TextItem.str item)).
  2:{ intros r ft Hr. by apply elem_of_nil in Hr. }
  intros [out assigned] r0 _ IH r ft. cbn [fst snd] in *.
  pose proof (findTextInArea_elem r0 assigned) as Hel.
  destruct (findTextInArea scale textItems r0 vt assigned) as [h a'].
  cbn [fst snd] in *. intros Hr Hft.
  apply elem_of_app in Hr as [Hr|Hr]; [by eapply IH|].
  apply list_elem_of_singleton in Hr. subst r. cbn in Hft.
  apply Hel, pick_Some in Hft as (_ & item & Hi & Hs & _ & Hft).
  exists item. split; [done|]. split; [done|]. by rewrite Hft.
Qed.

Lemma skipped_false item :
  skipped item = false
  ↔ trim (TextItem.str item) ≠ [] ∧ trim (TextItem.str item) ≠ sentinel.
Proof.
  unfold skipped, js_string_eqb. rewrite !orb_false_iff, !bool_decide_eq_false.
  split; [tauto|]. intros [He Hs]. split; [split|]; try done.
  intros Hnil. by rewrite Hnil in He.
Qed.

Lemma insideRedaction_spec item redaction :
  insideRedaction scale vt item redaction = true
  ↔ (0.5 <= horizontalOverlapRatio scale vt item redaction)%Q
    ∧ (redactTop redaction <= textCenterY scale vt item
       <= redactBottom redaction)%Q
    ∧ (0 < overlapHeight scale vt item redaction)%Q.
Proof.
  unfold insideRedaction, verticalInside.
  rewrite !andb_true_iff, !Qle_bool_iff, Qltb_lt. tauto.
Qed.

Lemma drawnOver_spec item redaction :
  drawnOver scale vt item redaction = true
  ↔ (scaledWidth scale item * 0.3 < overlapWidth scale vt item redaction)%Q
    ∧ (redactTop redaction <= textCenterY scale vt item
       <= redactBottom redaction)%Q.
Proof.
  unfold drawnOver, verticalInside.
  rewrite !andb_true_iff, !Qle_bool_iff, Qltb_lt. tauto.
Qed.

End TextFacts.

(** * The association of text in doubles *)

Lemma sortInsert_perm_d {A} (cmp : A → A → float) e l :
  Double.sortInsert cmp e l ≡ₚ e :: l.
Proof.
  induction l as [|p l IH]; simpl; [done|].
  destruct (cmp e p <? 0)%float; [done|].
  rewrite IH. apply Permutation_swap.
Qed.

Lemma js_sort_perm_d {A} (cmp : A → A → float) l : Double.js_sort cmp l ≡ₚ l.
Proof.
  unfold Double.js_sort.
  assert (∀ acc, foldl (λ acc e, Double.sortInsert cmp e acc) acc l ≡ₚ l ++ acc)
    as Hgen.
  { induction l as [|e l IH]; intros acc; simpl; [done|].
    rewrite IH, sortInsert_perm_d. by rewrite Permutation_middle. }
  rewrite Hgen. by rewrite app_nil_r.
Qed.

Section DoubleFacts.

Variable scale : float.
Variable textItems : list Double.TextItem.t.
Variable vt : Double.Matrix.

Lemma pick_index_d redaction assigned i ft :
  pick_d scale textItems vt redaction assigned i = Some ft →
  Double.FoundText.index ft = i.
Proof.
  unfold pick_d. case_decide; [done|]. destruct (textItems !! i); [|done].
  destruct (Double.skipped t); [done|].
  destruct (Double.insideRedaction scale vt t redaction); [|done].
  by intros [= <-].
Qed.

Lemma pick_ext_d redaction a1 a2 (js : list nat) :
  (∀ i, i ∈ js → i ∈ a1 ↔ i ∈ a2) →
  omap (pick_d scale textItems vt redaction a1) js
  = omap (pick_d scale textItems vt redaction a2) js.
Proof.
  induction js as [|j js IH]; intros Hext; [done|]. rewrite !omap_cons.
  assert (pick_d scale textItems vt redaction a1 j
          = pick_d scale textItems vt redaction a2 j) as ->.
  { unfold pick_d. pose proof (Hext j (list_elem_of_here _ _)) as Hj.
    destruct (decide (j ∈ a1)), (decide (j ∈ a2)); tauto. }
  rewrite IH; [done|]. intros i Hi. apply Hext. by apply list_elem_of_further.
Qed.

Lemma findStep_pick_d redaction foundText assigned j :
  Double.findStep scale textItems redaction vt (foundText, assigned) j
  = match pick_d scale textItems vt redaction assigned j with
    | Some ft => (foundText ++ [ft], {[j]} ∪ assigned)
    | None => (foundText, assigned)
    end.
Proof.
  unfold Double.findStep, pick_d. case_decide; [done|].
  destruct (textItems !! j) as [item|]; [|done].
  destruct (Double.skipped item); [done|].
  by destruct (Double.insideRedaction scale vt item redaction).
Qed.

(** The loop of [findTextInArea] in closed form: whether an index is
    taken depends on the set the call started with only. *)
Lemma findStep_fold_d redaction js : ∀ foundText assigned,
  NoDup js →
  foldl (Double.findStep scale textItems redaction vt) (foundText, assigned) js
  = (foundText ++ omap (pick_d scale textItems vt redaction assigned) js,
     list_to_set (Double.FoundText.index
                    <$> omap (pick_d scale textItems vt redaction assigned) js)
     ∪ assigned).
Proof.
  induction js as [|j js IH]; intros foundText assigned Hnd.
  - simpl. rewrite app_nil_r. f_equal. set_solver.
  - apply NoDup_cons in Hnd as [Hj Hnd]. cbn [foldl].
    rewrite findStep_pick_d, omap_cons.
    destruct (pick_d scale textItems vt redaction assigned j) as [ft|] eqn:Hp;
      [|by apply IH].
    rewrite IH by done.
    rewrite (pick_ext_d redaction ({[j]} ∪ assigned) assigned js).
    2:{ intros i Hi. rewrite elem_of_union, elem_of_singleton.
        split; [intros [->|?]; done | by right]. }
    rewrite <- app_assoc, fmap_cons, (pick_index_d _ _ _ _ Hp).
    f_equal. set_solver.
Qed.

Lemma findTextInArea_spec_d redaction assigned :
  ∃ foundText,
    Double.findTextInArea scale textItems redaction vt assigned
    = (Double.js_sort Double.byPosition foundText,
       list_to_set (Double.FoundText.index <$> foundText) ∪ assigned)
    ∧ foundText = omap (pick_d scale textItems vt redaction assigned)
                       (seq 0 (length textItems)).
Proof.
  eexists. split; [|done]. unfold Double.findTextInArea.
  rewrite findStep_fold_d by apply NoDup_seq. done.
Qed.

Lemma pick_Some_d redaction assigned i ft :
  pick_d scale textItems vt redaction assigned i = Some ft ↔
  (i ∉ assigned)
  ∧ ∃ item, textItems !! i = Some item ∧ Double.skipped item = false
            ∧ Double.insideRedaction scale vt item redaction = true
            ∧ ft = Double.found scale vt item i.
Proof.
  unfold pick_d. split.
  - case_decide; [done|]. destruct (textItems !! i) as [item|]; [|done].
    destruct (Double.skipped item) eqn:Hs; [done|].
    destruct (Double.insideRedaction scale vt item redaction) eqn:Hi; [|done].
    intros [= <-]. split; [done|]. by exists item.
  - intros (Hi & item & -> & -> & -> & ->). by rewrite decide_False.
Qed.

(** The entries [findTextInArea] returns. *)
Lemma findTextInArea_elem_d redaction assigned ft :
  ft ∈ (Double.findTextInArea scale textItems redaction vt assigned).1
  ↔ pick_d scale textItems vt redaction assigned (Double.FoundText.index ft)
    = Some ft.
Proof.
  destruct (findTextInArea_spec_d redaction assigned) as (l & -> & ->).
  cbn [fst]. rewrite js_sort_perm_d, list_elem_of_omap. split.
  - intros (i & _ & Hp). by rewrite (pick_index_d _ _ _ _ Hp).
  - intros Hp. exists (Double.FoundText.index ft). split; [|done].
    apply pick_Some_d in Hp as (_ & item & Hi & _).
    apply elem_of_seq. apply lookup_lt_Some in Hi. lia.
Qed.

(** An index is filed by a call exactly when it is not in the shared
    set, its item is not passed over and meets the test; it is then in
    the shared set. *)
Lemma findTextInArea_filed_d redaction assigned i :
  let res := Double.findTextInArea scale textItems redaction vt assigned in
  ((∃ ft, ft ∈ res.1 ∧ Double.FoundText.index ft = i)
   ↔ (i ∉ assigned)
     ∧ ∃ item, textItems !! i = Some item ∧ Double.skipped item = false
               ∧ Double.insideRedaction scale vt item redaction = true)
  ∧ ((∃ ft, ft ∈ res.1 ∧ Double.FoundText.index ft = i) → i ∈ res.2).
Proof.
  cbv zeta. split.
  - split.
    + intros (ft & Hft & Hi). apply findTextInArea_elem_d in Hft.
      rewrite Hi in Hft.
      apply pick_Some_d in Hft as (Hn & item & Hi' & Hs & Hin & _).
      split; [done|]. by exists item.
    + intros (Hn & item & Hi & Hs & Hin).
      exists (Double.found scale vt item i). split; [|done].
      apply findTextInArea_elem_d. cbn [Double.found Double.FoundText.index].
      apply pick_Some_d. split; [done|]. by exists item.
  - intros (ft & Hft & Hi).
    destruct (findTextInArea_spec_d redaction assigned) as (l & Hres & Hl).
    rewrite Hres in Hft |- *. cbn [fst snd] in *.
    rewrite js_sort_perm_d in Hft.
    apply elem_of_union. left. apply elem_of_list_to_set.
    rewrite <- Hi. by apply list_elem_of_fmap_2.
Qed.

Lemma skipped_false_d item :
  Double.skipped item = false
  ↔ trim (Double.TextItem.str item) ≠ []
    ∧ trim (Double.TextItem.str item) ≠ sentinel.
Proof.
  unfold Double.skipped, js_string_eqb.
  rewrite !orb_false_iff, !bool_decide_eq_false.
  split; [tauto|]. intros [He Hs]. split; [split|]; try done.
  intros Hnil. by rewrite Hnil in He.
Qed.

(** The test of the code is the stated one. *)
Lemma insideRedaction_stated item redaction :
  Double.insideRedaction scale vt item redaction = true
  ↔ statedAssigned scale vt item redaction.
Proof.
  unfold statedAssigned, Double.insideRedaction, Double.verticalInside.
  rewrite !andb_true_iff.
  change (Double.horizontalOverlapRatio scale vt item redaction)
    with (overlapRatio scale vt item redaction).
  change (Double.textCenterY scale vt item) with (verticalCenter scale vt item).
  change (Double.overlapHeight scale vt item redaction)
    with (intersectionHeight scale vt item redaction).
  change (Double.redactTop redaction) with (regionTop redaction).
  change (Double.redactBottom redaction) with (regionBottom redaction).
  tauto.
Qed.

Lemma drawnOver_stated item redaction :
  Double.drawnOver scale vt item redaction = true
  ↔ statedDrawn scale vt item redaction.
Proof.
  unfold statedDrawn, Double.drawnOver, Double.verticalInside.
  rewrite !andb_true_iff.
  change (Double.scaledWidth scale item) with (fragmentWidth scale item).
  change (Double.overlapWidth scale vt item redaction)
    with (intersectionWidth scale vt item redaction).
  change (Double.textCenterY scale vt item) with (verticalCenter scale vt item).
  change (Double.redactTop redaction) with (regionTop redaction).
  change (Double.redactBottom redaction) with (regionBottom redaction).
  tauto.
Qed.

End DoubleFacts.

(** C3. For a region and an item that is not assigned yet, whose trimmed
    text is neither empty nor the placeholder, [findTextInArea] files the
    item under the region exactly when the overlap ratio (the width of
    the intersection of its box with the region, over the width of the
    box) is at least 0.5, the vertical centre of the box is within the
    vertical span of the region, bounds included, and the height of the
    intersection is positive; the index of a filed item is in the shared
    set afterwards. The box goes up from the baseline by the scaled font
    size; its width is that of the item, or [length * fontSize * 0.6]
    when the item has none (or one that is 0); every quantity is computed
    in doubles, as the engine computes it. *)
Theorem findTextInArea_assigns (scale : float)
    (textItems : list Double.TextItem.t) (redaction : Double.Redaction.t)
    (vt : Double.Matrix) (assigned : gset nat) (i : nat)
    (item : Double.TextItem.t) :
  textItems !! i = Some item →
  i ∉ assigned →
  trim (Double.TextItem.str item) ≠ [] →
  trim (Double.TextItem.str item) ≠ sentinel →
  let res := Double.findTextInArea scale textItems redaction vt assigned in
  ((∃ ft, ft ∈ res.1 ∧ Double.FoundText.index ft = i)
   ↔ (0.5 <=? overlapRatio scale vt item redaction)%float = true
     ∧ (regionTop redaction <=? verticalCenter scale vt item)%float = true
     ∧ (verticalCenter scale vt item <=? regionBottom redaction)%float = true
     ∧ (0 <? intersectionHeight scale vt item redaction)%float = true)
  ∧ ((∃ ft, ft ∈ res.1 ∧ Double.FoundText.index ft = i) → i ∈ res.2).
Proof.
  intros Hitem Hfresh Hne Hns res.
  assert (Double.skipped item = false) as Hskip
    by (by apply skipped_false_d).
  destruct (findTextInArea_filed_d scale textItems vt redaction assigned i)
    as [Hiff Hset].
  split; [|exact Hset].
  fold res in Hiff. rewrite Hiff.
  change ((0.5 <=? overlapRatio scale vt item redaction)%float = true
          ∧ (regionTop redaction <=? verticalCenter scale vt item)%float = true
          ∧ (verticalCenter scale vt item <=? regionBottom redaction)%float
            = true
          ∧ (0 <? intersectionHeight scale vt item redaction)%float = true)
    with (statedAssigned scale vt item redaction).
  rewrite <- insideRedaction_stated. split.
  - intros (_ & item' & Hi' & _ & Hin). rewrite Hitem in Hi'.
    by injection Hi' as <-.
  - intros Hin. split; [done|]. by exists item.
Qed.

Lemma findTextInArea_assigns_witness :
  let res := Double.findTextInArea 1.5 [exEdge] exEdgeRegion identity_d ∅ in
  ((∃ ft, ft ∈ res.1 ∧ Double.FoundText.index ft = 0%nat)
   ↔ (0.5 <=? overlapRatio 1.5 identity_d exEdge exEdgeRegion)%float = true
     ∧ (regionTop exEdgeRegion <=? verticalCenter 1.5 identity_d exEdge)%float
       = true
     ∧ (verticalCenter 1.5 identity_d exEdge <=? regionBottom exEdgeRegion)%float
       = true
     ∧ (0 <? intersectionHeight 1.5 identity_d exEdge exEdgeRegion)%float
       = true)
  ∧ ((∃ ft, ft ∈ res.1 ∧ Double.FoundText.index ft = 0%nat) → 0%nat ∈ res.2).
Proof.
  apply (findTextInArea_assigns 1.5 [exEdge] exEdgeRegion identity_d ∅ 0 exEdge).
  - reflexivity.
  - set_solver.
  - vm_compute. discriminate.
  - vm_compute. discriminate.
Defined.

(** C6. On a page no index of a text item is filed under two regions,
    nor twice under one: the indices of the hidden texts of the regions
    are distinct. *)
Theorem hidden_text_disjoint (scale : Q) (r : Rendered) (pageNum : nat) :
  NoDup (hiddenIndices (PageData.redactions (processPage scale r pageNum))).
Proof.
  unfold processPage. cbn [PageData.redactions].
  apply assignHiddenText_inv.
Qed.

(** C7. A string whose trimmed form is empty or is the placeholder is
    the text of no entry of a hidden text, of no text drawn for the
    export and of no span of the overlay, whatever the regions. *)
Theorem placeholder_never_shown (scale : Q) (textItems : list TextItem.t)
    (vt : Matrix) (pageRedactions : list Redaction.t) (page : PageData.t)
    (displayWidth displayHeight : Q) (s : js_string) :
  trim s = [] ∨ trim s = sentinel →
  (∀ r ft, r ∈ (assignHiddenText scale textItems vt pageRedactions).1 →
           ft ∈ Redaction.hiddenText r →
           FoundText.text ft ≠ s
           ∧ ∃ item, textItems !! FoundText.index ft = Some item
                     ∧ TextItem.str item = FoundText.text ft)
  ∧ (∀ op, op ∈ renderTextForExport scale page → ft_text op ≠ s)
  ∧ (∀ sp, sp ∈ renderTextLayerForRedactions scale displayWidth displayHeight
                                             page → sp_text sp ≠ s).
Proof.
  intros Hbad.
  assert (∀ item, skipped item = false → TextItem.str item ≠ s) as Hstr.
  { intros item Hs <-. apply skipped_false in Hs as [? ?]. tauto. }
  split; [|split].
  - intros r ft Hr Hft.
    destruct (assignHiddenText_entries _ _ _ _ _ _ Hr Hft) as (item & Hi & Hs & Ht).
    split; [rewrite Ht; by apply Hstr|]. by exists item.
  - intros op Hop. unfold renderTextForExport in Hop.
    apply list_elem_of_omap in Hop as (item & _ & Hop).
    destruct (skipped item) eqn:Hs; [done|].
    destruct (isInRedaction _ _ _ _); [|done].
    injection Hop as <-. by apply Hstr.
  - intros sp Hsp. unfold renderTextLayerForRedactions in Hsp.
    apply list_elem_of_omap in Hsp as (item & _ & Hsp).
    destruct (skipped item) eqn:Hs; [done|].
    destruct (isInRedaction _ _ _ _); [|done].
    injection Hsp as <-. by apply Hstr.
Qed.

(** * Properties of the sort *)

Lemma sameLine_bounds a b :
  sameLine a b ↔ (-5 < FoundText.y a - FoundText.y b
                  ∧ FoundText.y a - FoundText.y b < 5)%Q.
Proof.
  unfold sameLine. rewrite Qabs_Qlt_condition.
  replace (- (5))%Q with (-5)%Q by reflexivity. tauto.
Qed.






Lemma sameLine_sym a b : sameLine a b → sameLine b a.
Proof. rewrite !sameLine_bounds. lra. Qed.








(** * Properties of the export, of the overlay and of the load *)

Lemma placeholder_never_shown_witness :
  (∀ r ft, r ∈ (assignHiddenText 1 [exSecret; exFiller] identity [exRegion]).1 →
           ft ∈ Redaction.hiddenText r →
           FoundText.text ft ≠ of_ascii " 1111 "
           ∧ ∃ item, [exSecret; exFiller] !! FoundText.index ft = Some item
                     ∧ TextItem.str item = FoundText.text ft)
  ∧ (∀ op, op ∈ renderTextForExport 1 exPage → ft_text op ≠ of_ascii " 1111 ")
  ∧ (∀ sp, sp ∈ renderTextLayerForRedactions 1 300 200 exPage →
           sp_text sp ≠ of_ascii " 1111 ").
Proof.
  apply (placeholder_never_shown 1 [exSecret; exFiller] identity [exRegion]
           exPage 300 200 (of_ascii " 1111 ")).
  right. vm_compute. reflexivity.
Defined.

Section ExportFacts.

Variable scale : Q.

Lemma isInRedaction_spec vt item redactions :
  isInRedaction scale vt item redactions = true
  ↔ ∃ r, r ∈ redactions
         ∧ (scaledWidth scale item * 0.3 < overlapWidth scale vt item r)%Q
         ∧ (redactTop r <= textCenterY scale vt item <= redactBottom r)%Q.
Proof.
  unfold isInRedaction. rewrite existsb_exists. split.
  - intros (r & Hr & Hd). exists r. split; [by apply list_elem_of_In|].
    by apply drawnOver_spec.
  - intros (r & Hr & Hd). exists r. split; [by apply list_elem_of_In|].
    by apply drawnOver_spec.
Qed.

(** The texts the export draws: those of the items that are not passed
    over and lie over some region by the 0.3 rule, whatever was filed
    before. *)
Lemma renderTextForExport_spec page s :
  s ∈ ft_text <$> renderTextForExport scale page
  ↔ ∃ item, item ∈ PageData.textItems page
            ∧ skipped item = false
            ∧ isInRedaction scale (Viewport.transform (PageData.viewport page))
                            item (PageData.redactions page) = true
            ∧ s = TextItem.str item.
Proof.
  unfold renderTextForExport. rewrite list_elem_of_fmap. split.
  - intros (op & -> & Hop). apply list_elem_of_omap in Hop as (item & Hi & Hop).
    exists item. split; [done|].
    destruct (skipped item); [done|]. split; [done|].
    destruct (isInRedaction _ _ _ _); [|done]. split; [done|].
    by injection Hop as <-.
  - intros (item & Hi & Hs & Hin & ->). eexists. split; [|apply list_elem_of_omap].
    2:{ exists item. split; [done|]. rewrite Hs, Hin. reflexivity. }
    done.
Qed.

(** The overlay draws the same texts. *)
Lemma renderTextLayer_spec displayWidth displayHeight page s :
  s ∈ sp_text <$> renderTextLayerForRedactions scale displayWidth displayHeight page
  ↔ s ∈ ft_text <$> renderTextForExport scale page.
Proof.
  rewrite renderTextForExport_spec.
  unfold renderTextLayerForRedactions. rewrite list_elem_of_fmap. split.
  - intros (sp & -> & Hsp). apply list_elem_of_omap in Hsp as (item & Hi & Hsp).
    exists item. split; [done|].
    destruct (skipped item); [done|]. split; [done|].
    destruct (isInRedaction _ _ _ _); [|done]. split; [done|].
    by injection Hsp as <-.
  - intros (item & Hi & Hs & Hin & ->). eexists. split; [|apply list_elem_of_omap].
    2:{ exists item. split; [done|]. rewrite Hs, Hin. reflexivity. }
    done.
Qed.

(** The loop of [loadPdf] over pages that all render: every page gets
    the record [processPage] computes for it. *)
Lemma loadStep_fold (rs : list Rendered) : ∀ acc n,
  ∃ res,
    foldl (loadStep scale) (Normal acc, n) (Normal <$> rs)
    = (Normal res, (n + length rs)%nat)
    ∧ length (LoadResult.pages res)
      = (length (LoadResult.pages acc) + length rs)%nat
    ∧ (∀ j p, LoadResult.pages acc !! j = Some p →
              LoadResult.pages res !! j = Some p)
    ∧ (∀ j r, rs !! j = Some r →
              LoadResult.pages res !! (length (LoadResult.pages acc) + j)%nat
              = Some (processPage scale r (n + j))).
Proof.
  induction rs as [|r rs IH]; intros acc n.
  - exists acc. simpl. split; [f_equal; lia|]. split; [lia|]. split; [done|].
    intros j r Hr. by rewrite lookup_nil in Hr.
  - rewrite fmap_cons. cbn [foldl loadStep fst snd].
    set (acc' := {| LoadResult.numPages := LoadResult.numPages acc;
                    LoadResult.pages :=
                      LoadResult.pages acc ++ [processPage scale r n];
                    LoadResult.redactions :=
                      LoadResult.redactions acc
                      ++ PageData.redactions (processPage scale r n) |}).
    destruct (IH acc' (S n)) as (res & Hf & Hlen & Hold & Hnew).
    exists res. rewrite Hf. unfold acc' in *. cbn [LoadResult.pages] in *.
    rewrite length_app in *. cbn [length] in *.
    split; [f_equal; lia|]. split; [lia|]. split.
    + intros j p Hj. apply Hold. by apply lookup_app_l_Some.
    + intros [|j] r' Hr'.
      * simpl in Hr'. injection Hr' as <-. rewrite !Nat.add_0_r.
        apply Hold. rewrite lookup_app_r by lia. by rewrite Nat.sub_diag.
      * simpl in Hr'. specialize (Hnew j r' Hr').
        replace (length (LoadResult.pages acc) + S j)%nat
          with (length (LoadResult.pages acc) + 1 + j)%nat by lia.
        by replace (n + S j)%nat with (S n + j)%nat by lia.
Qed.

(** A page whose rendering throws rejects the load, with the pages
    before it. *)
Lemma loadPdf_rejects (before : list Rendered) e
    (after : list (completion Rendered)) :
  loadPdf scale ((Normal <$> before) ++ Throw e :: after) = Throw e.
Proof.
  unfold loadPdf. rewrite foldl_app.
  destruct (loadStep_fold before
              {| LoadResult.numPages :=
                   length ((Normal <$> before) ++ Throw e :: after);
                 LoadResult.pages := []; LoadResult.redactions := [] |} 1)
    as (res & -> & _).
  cbn [foldl]. unfold loadStep at 2. cbn [fst snd].
  generalize (S (1 + length before)). intros n.
  induction after as [|p after IH]; [done|]. cbn [foldl]. exact IH.
Qed.

End ExportFacts.

(** * The export and the overlay in doubles *)

Lemma isInRedaction_stated scale vt item redactions :
  Double.isInRedaction scale vt item redactions = true
  ↔ ∃ r, r ∈ redactions ∧ statedDrawn scale vt item r.
Proof.
  unfold Double.isInRedaction. rewrite existsb_exists. split.
  - intros (r & Hr & Hd). exists r. split; [by apply list_elem_of_In|].
    by apply drawnOver_stated.
  - intros (r & Hr & Hd). exists r. split; [by apply list_elem_of_In|].
    by apply drawnOver_stated.
Qed.

(** The calls of the export: one for every item that is not passed over
    and lies over some region by the 0.3 rule, whatever was filed
    before. *)
Lemma renderTextForExport_spec_d scale page call :
  call ∈ Double.renderTextForExport scale page
  ↔ ∃ item, item ∈ Double.PageData.textItems page
            ∧ Double.skipped item = false
            ∧ (∃ r, r ∈ Double.PageData.redactions page
                    ∧ statedDrawn scale
                        (Double.Viewport.transform (Double.PageData.viewport page))
                        item r)
            ∧ call = {| Double.ft_font := fragmentHeight scale item;
                        Double.ft_text := Double.TextItem.str item;
                        Double.ft_x :=
                          fragmentOriginX
                            (Double.Viewport.transform
                               (Double.PageData.viewport page)) item;
                        Double.ft_y :=
                          fragmentOriginY
                            (Double.Viewport.transform
                               (Double.PageData.viewport page)) item |}.
Proof.
  unfold Double.renderTextForExport. rewrite list_elem_of_omap.
  setoid_rewrite <- isInRedaction_stated. split.
  - intros (item & Hi & Hop). exists item. split; [done|].
    destruct (Double.skipped item); [done|]. split; [done|].
    destruct (Double.isInRedaction _ _ _ _); [|done]. split; [done|].
    by injection Hop as <-.
  - intros (item & Hi & Hs & Hin & ->). exists item. split; [done|].
    rewrite Hs, Hin. reflexivity.
Qed.

(** The overlay appends a span for the items the export draws, in the
    same order. *)
Lemma renderTextLayer_texts_d scale w h page :
  Double.sp_text <$> Double.renderTextLayerForRedactions scale w h page
  = Double.ft_text <$> Double.renderTextForExport scale page.
Proof.
  unfold Double.renderTextLayerForRedactions, Double.renderTextForExport.
  induction (Double.PageData.textItems page) as [|item items IH]; [done|].
  rewrite !omap_cons.
  destruct (Double.skipped item); [done|].
  destruct (Double.isInRedaction _ _ _ _); [|done].
  rewrite !fmap_cons. by f_equal.
Qed.

(** C10. The export and the overlay draw an item that is not passed
    over when, for some region of the page, the intersection of its box
    with the region is wider than 0.3 of the box and the vertical centre
    of the box is within the region; the set of assigned indices has no
    part in it. [findTextInArea] files an item when its index is not in
    that set, the overlap ratio is at least 0.5, the centre is within the
    region and the height of the intersection is positive. On the page
    [exGrazing], whose scan finds the region (10, 2, 20, 8), the word
    overlaps the region by 0.4 of its width: it is drawn by the export
    and by the overlay and is in no hidden text. *)
Theorem reveal_differs_from_hidden_text :
  (∀ scale page call,
     call ∈ Double.renderTextForExport scale page
     ↔ ∃ item, item ∈ Double.PageData.textItems page
               ∧ trim (Double.TextItem.str item) ≠ []
               ∧ trim (Double.TextItem.str item) ≠ sentinel
               ∧ (∃ r, r ∈ Double.PageData.redactions page
                       ∧ statedDrawn scale
                           (Double.Viewport.transform
                              (Double.PageData.viewport page)) item r)
               ∧ call = {| Double.ft_font := fragmentHeight scale item;
                           Double.ft_text := Double.TextItem.str item;
                           Double.ft_x :=
                             fragmentOriginX
                               (Double.Viewport.transform
                                  (Double.PageData.viewport page)) item;
                           Double.ft_y :=
                             fragmentOriginY
                               (Double.Viewport.transform
                                  (Double.PageData.viewport page)) item |})
  ∧ (∀ scale w h page,
       Double.sp_text <$> Double.renderTextLayerForRedactions scale w h page
       = Double.ft_text <$> Double.renderTextForExport scale page)
  ∧ (∀ scale textItems redaction vt assigned i item,
       textItems !! i = Some item →
       trim (Double.TextItem.str item) ≠ [] →
       trim (Double.TextItem.str item) ≠ sentinel →
       (∃ ft, ft ∈ (Double.findTextInArea scale textItems redaction vt
                                         assigned).1
              ∧ Double.FoundText.index ft = i)
       ↔ (i ∉ assigned) ∧ statedAssigned scale vt item redaction)
  ∧ Redaction.box <$> detectRedactions 1 (r_imageData exGrazing) 1
    = [(10, 2, 20, 8)]
  ∧ hiddenTexts (Double.PageData.redactions exGrazingPage) = []
  ∧ Double.ft_text <$> Double.renderTextForExport 1 exGrazingPage
    = [of_ascii "Secret"]
  ∧ Double.sp_text <$> Double.renderTextLayerForRedactions 1 40 12 exGrazingPage
    = [of_ascii "Secret"].
Proof.
  split; [|split; [|split]].
  - intros scale page call. rewrite renderTextForExport_spec_d.
    split; intros (item & Hi & H); exists item; (split; [done|]).
    + destruct H as (Hs & H). apply skipped_false_d in Hs as [He Hn]. done.
    + destruct H as (He & Hn & H). split; [|done]. by apply skipped_false_d.
  - intros. apply renderTextLayer_texts_d.
  - intros scale textItems redaction vt assigned i item Hitem He Hn.
    destruct (findTextInArea_filed_d scale textItems vt redaction assigned i)
      as [-> _].
    rewrite <- insideRedaction_stated. split.
    + intros (Hfresh & item' & Hi' & _ & Hin). rewrite Hitem in Hi'.
      injection Hi' as <-. done.
    + intros (Hfresh & Hin). split; [done|]. exists item.
      split; [done|]. split; [by apply skipped_false_d|done].
  - vm_compute. repeat split; reflexivity.
Qed.

Lemma loadPdf_resolves (scale : Q) (rs : list Rendered) :
  ∃ res,
    loadPdf scale (Normal <$> rs) = Normal res
    ∧ length (LoadResult.pages res) = length rs
    ∧ ∀ j r, rs !! j = Some r →
             LoadResult.pages res !! j = Some (processPage scale r (S j)).
Proof.
  unfold loadPdf.
  destruct (loadStep_fold scale rs
              {| LoadResult.numPages := length (Normal <$> rs);
                 LoadResult.pages := []; LoadResult.redactions := [] |} 1)
    as (res & -> & Hlen & _ & Hnew).
  exists res. split; [done|]. split; [exact Hlen|].
  intros j r Hr. exact (Hnew j r Hr).
Qed.

(** * Properties of the rendering of a page *)









(** * Further properties of [mergeRedactions] *)

Section MergeMore.

Variable scale : Q.
Variable rs : list Redaction.t.

Lemma mergeStep_cases merged used i :
  mergeStep scale rs (merged, used) i = (merged, used)
  ∨ ∃ r c u, rs !! i = Some r
             ∧ absorbLoop scale (S (length rs)) rs r ({[i]} ∪ used) = (c, u)
             ∧ mergeStep scale rs (merged, used) i = (merged ++ [c], u).
Proof.
  unfold mergeStep. case_decide; [by left|].
  destruct (rs !! i) as [r|]; [|by left].
  destruct (absorbLoop scale (S (length rs)) rs r ({[i]} ∪ used)) as [c u] eqn:E.
  right. by exists r, c, u.
Qed.

Lemma merge_fold_length js : ∀ merged used,
  (length merged
   ≤ length (foldl (mergeStep scale rs) (merged, used) js).1
   ≤ length merged + length js)%nat.
Proof.
  induction js as [|i js IH]; intros merged used; [simpl; lia|].
  cbn [foldl].
  destruct (mergeStep_cases merged used i) as [->|(r & c & u & _ & _ & ->)].
  - specialize (IH merged used). simpl. lia.
  - specialize (IH (merged ++ [c]) u). rewrite length_app in IH. simpl in *. lia.
Qed.

(** The groups of the merge, for any input. *)
Lemma merge_partition : ∃ gs : list (gset nat), grouping rs gs (mergeRedactions scale rs).
Proof.
  unfold mergeRedactions. destruct (length rs <? 2)%nat eqn:Hlen.
  - apply Nat.ltb_lt in Hlen.
    destruct rs as [|r [|r' rs']] eqn:Hrs; [| |simpl in Hlen; lia].
    + exists []. split; try (intros; exfalso; eapply elem_of_nil; eassumption).
      * constructor.
      * simpl. lia.
      * intros k1 k2 g1 g2 H1. by rewrite lookup_nil in H1.
    + exists [{[0%nat]}]. split.
      * constructor; [|constructor]. split.
        -- intros j r0 Hj Hr0. apply elem_of_singleton in Hj. subst j.
           injection Hr0 as <-. apply contains_refl.
        -- repeat split; exists 0%nat, r; (split; [set_solver|split; [done|lia]]).
      * intros i Hi. simpl in Hi. exists {[0%nat]}.
        split; [set_solver|]. apply elem_of_singleton. lia.
      * intros g i Hg Hi. apply list_elem_of_singleton in Hg. subst g.
        apply elem_of_singleton in Hi. subst i. simpl. lia.
      * intros [|k1] [|k2] g1 g2 H1 H2 Hne; try done.
      * intros g i j ri rj Hg Hi Hri Hrj _.
        apply list_elem_of_singleton in Hg. subst g.
        apply lookup_lt_Some in Hrj. simpl in Hrj.
        apply elem_of_singleton. lia.
  - destruct (merge_fold_inv scale rs (seq 0 (length rs)) [] ∅ [] (mergeInv_init rs))
      as (m' & u' & gs' & Hf & [Hb Hu Hr Hd Hc] & _ & Hall).
    rewrite Hf. simpl. exists gs'. split; try done.
    intros i Hi. apply Hu. apply Hall; [|done].
    apply elem_of_seq. lia.
Qed.

(** A pass over rectangles none of which is next to [current] changes
    nothing. *)
Lemma absorbPass_none cur used :
  (∀ j r, j ∉ used → rs !! j = Some r → adjacent cur r = false) →
  absorbPass scale rs cur used = (cur, used, false).
Proof.
  intros Hno. unfold absorbPass. apply foldl_fixed. intros j _.
  unfold absorbStep. case_decide as Hj; [done|].
  destruct (rs !! j) as [o|] eqn:Ho; [|done].
  by rewrite (Hno j o Hj Ho).
Qed.

Lemma merge_fold_separated k :
  separated rs → (k ≤ length rs)%nat →
  foldl (mergeStep scale rs) ([], ∅) (seq 0 k) = (take k rs, set_seq 0 k).
Proof.
  intros Hsep. induction k as [|k IH]; intros Hk.
  - done.
  - rewrite seq_S, foldl_app, IH by lia. cbn [foldl Nat.add].
    destruct (lookup_lt_is_Some_2 rs k ltac:(lia)) as [r Hr].
    unfold mergeStep. rewrite decide_False by (rewrite elem_of_set_seq; lia).
    rewrite Hr. cbn [absorbLoop]. rewrite absorbPass_none.
    + f_equal.
      * by rewrite (take_S_r _ _ _ Hr).
      * rewrite set_seq_S_end_union_L. simpl. done.
    + intros j rj Hj Hrj. apply (Hsep k j r rj); [|done|done].
      intros ->. apply Hj. set_solver.
Qed.

(** For every property that [absorb] keeps, the boxes of the merge have
    it when the rectangles of the input do. *)
Section Keeps.

Variable P : Redaction.t → Prop.
Hypothesis Habsorb : ∀ c o, P c → P o → P (absorb scale c o).
Hypothesis Hrs : Forall P rs.

Lemma absorb_fold_keeps js : ∀ cur used did,
  P cur → P (foldl (absorbStep scale rs) (cur, used, did) js).1.1.
Proof.
  induction js as [|j js IH]; intros cur used did Hcur; [done|].
  cbn [foldl]. unfold absorbStep at 2. case_decide; [by apply IH|].
  destruct (rs !! j) as [o|] eqn:Ho; [|by apply IH].
  destruct (adjacent cur o); [|by apply IH].
  apply IH. apply Habsorb; [done|].
  rewrite Forall_forall in Hrs. apply Hrs. by eapply list_elem_of_lookup_2.
Qed.

Lemma absorbLoop_keeps fuel : ∀ cur used,
  P cur → P (absorbLoop scale fuel rs cur used).1.
Proof.
  induction fuel as [|fuel IH]; intros cur used Hcur; [done|].
  cbn [absorbLoop]. unfold absorbPass.
  pose proof (absorb_fold_keeps (seq 0 (length rs)) cur used false Hcur) as Hp.
  destruct (foldl (absorbStep scale rs) (cur, used, false) (seq 0 (length rs)))
    as [[c u] d]. cbn [fst] in Hp.
  destruct d; [by apply IH | done].
Qed.

Lemma merge_keeps : Forall P (mergeRedactions scale rs).
Proof.
  unfold mergeRedactions. destruct (length rs <? 2)%nat; [done|].
  apply (foldl_preserves (λ st, Forall P st.1)); [|constructor].
  intros [merged used] i _ Hm. cbn [fst] in *.
  destruct (mergeStep_cases merged used i) as [->|(r & c & u & Hr & Hl & ->)];
    [done|].
  cbn [fst]. apply Forall_app. split; [done|]. constructor; [|constructor].
  pose proof (absorbLoop_keeps (S (length rs)) r ({[i]} ∪ used)) as Hk.
  rewrite Hl in Hk. apply Hk.
  rewrite Forall_forall in Hrs. apply Hrs. by eapply list_elem_of_lookup_2.
Qed.

End Keeps.

End MergeMore.

Lemma separatedb_spec (rs : list Redaction.t) : separatedb rs = true → separated rs.
Proof.
  unfold separatedb, separated. intros Hb i j ri rj Hne Hi Hj.
  rewrite forallb_forall in Hb. specialize (Hb (i, ri)).
  rewrite forallb_forall in Hb.
  assert (In (i, ri) (imap (λ i r, (i, r)) rs)) as Hini.
  { apply list_elem_of_In, list_elem_of_lookup. exists i.
    by rewrite list_lookup_imap, Hi. }
  assert (In (j, rj) (imap (λ i r, (i, r)) rs)) as Hinj.
  { apply list_elem_of_In, list_elem_of_lookup. exists j.
    by rewrite list_lookup_imap, Hj. }
  specialize (Hb Hini (j, rj) Hinj). cbn [fst snd] in Hb.
  apply orb_true_iff in Hb as [Hb|Hb].
  - apply Nat.eqb_eq in Hb. done.
  - by apply negb_true_iff in Hb.
Qed.

(** X1. The merge returns at most as many boxes as it was given, and
    none only when it was given none. *)
Theorem merge_count (scale : Q) (rs : list Redaction.t) :
  (length (mergeRedactions scale rs) ≤ length rs)%nat
  ∧ (mergeRedactions scale rs = [] ↔ rs = []).
Proof.
  unfold mergeRedactions. destruct (length rs <? 2)%nat eqn:Hlen; [done|].
  apply Nat.ltb_ge in Hlen.
  pose proof (merge_fold_length scale rs (seq 0 (length rs)) [] ∅) as Hl.
  rewrite length_seq in Hl. simpl in Hl. split; [lia|].
  split; [|intros ->; simpl in Hlen; lia].
  intros Hnil. exfalso.
  destruct rs as [|r rs'] eqn:Hrs; [simpl in Hlen; lia|]. rewrite <- Hrs in *.
  assert (seq 0 (length rs) = 0%nat :: seq 1 (length rs - 1)) as Hseq.
  { rewrite Hrs. simpl. by rewrite Nat.sub_0_r. }
  rewrite Hseq in Hnil. cbn [foldl] in Hnil.
  destruct (mergeStep_cases scale rs [] ∅ 0) as [He|(r0 & c & u & _ & _ & He)].
  - unfold mergeStep in He. rewrite decide_False in He by set_solver.
    rewrite Hrs in He. cbn [lookup list_lookup] in He. rewrite <- Hrs in He.
    destruct (absorbLoop scale (S (length rs)) rs r ({[0%nat]} ∪ ∅)) as [c u].
    injection He as He _. discriminate He.
  - rewrite He in Hnil.
    pose proof (merge_fold_length scale rs (seq 1 (length rs - 1)) ([] ++ [c]) u)
      as [Hge _].
    rewrite Hnil in Hge. simpl in Hge. lia.
Qed.

(** X2. Every rectangle given to the merge is covered by one of the
    boxes it returns. *)
Theorem merge_covers (scale : Q) (rs : list Redaction.t) (i : nat)
    (r : Redaction.t) :
  rs !! i = Some r →
  ∃ c, c ∈ mergeRedactions scale rs ∧ contains c r.
Proof.
  intros Hr. destruct (merge_partition scale rs) as [gs [Hb Hcov _ _ _]].
  destruct (Hcov i (lookup_lt_Some _ _ _ Hr)) as (g & Hg & Hi).
  apply list_elem_of_lookup in Hg as [k Hk].
  destruct (Forall2_lookup_l _ _ _ _ _ Hb Hk) as (c & Hc & [Hcont _]).
  exists c. split; [by eapply list_elem_of_lookup_2|]. by eapply Hcont.
Qed.

Lemma merge_covers_witness :
  ∃ c, c ∈ mergeRedactions 1.5 [exA; exB; exC] ∧ contains c exC.
Proof.
  apply (merge_covers 1.5 [exA; exB; exC] 2 exC). reflexivity.
Defined.

(** X3. A list in which no two rectangles pass the gap test is returned
    as it is; so merging twice is merging once whenever the first merge
    leaves no two boxes within the gap. *)
Theorem merge_separated (scale : Q) (rs : list Redaction.t) :
  separated rs → mergeRedactions scale rs = rs.
Proof.
  intros Hsep. unfold mergeRedactions.
  destruct (length rs <? 2)%nat; [done|].
  rewrite merge_fold_separated by done. cbn [fst]. by rewrite take_ge.
Qed.

Lemma merge_separated_witness :
  mergeRedactions 1.5 [exA; exB] = [exA; exB].
Proof.
  apply (merge_separated 1.5 [exA; exB]).
  apply separatedb_spec. vm_compute. reflexivity.
Defined.

(** * Further properties of the scan *)

Section ScanMore.

Variable scale : Q.
Variable img : ImageData.t.
Variable pageNum : nat.

(** A seed either leaves the list of redactions as it is or appends the
    rectangle grown from it, and then it is black. *)
Lemma scanCell_cases st y x :
  (scanCell scale img pageNum st y x).1 = st.1
  ∨ (isBlack img x y = true
     ∧ (scanCell scale img pageNum st y x).1
       = st.1 ++ [candidate scale img pageNum x y]).
Proof.
  destruct st as [redactions visited]. unfold scanCell. cbn [fst].
  case_decide; [by left|].
  destruct (isBlack img x y) eqn:Hb; [|by left].
  destruct (_ && _); [|by left].
  destruct (dense _); [|by left].
  right. split; [done|]. reflexivity.
Qed.

Lemma scanCandidates_forall (P : Redaction.t → Prop) :
  (∀ x y, x ∈ countUp 0 (ImageData.width img - 1) 5 →
          y ∈ countUp 0 (ImageData.height img - 1) 5 →
          isBlack img x y = true → P (candidate scale img pageNum x y)) →
  Forall P (scanCandidates scale img pageNum).
Proof.
  intros Hp. unfold scanCandidates.
  apply (foldl_preserves (λ st, Forall P st.1)); [|constructor].
  intros st y Hy Hst. unfold scanRow.
  apply (foldl_preserves (λ st, Forall P st.1)); [|done].
  intros st' x Hx Hst'.
  destruct (scanCell_cases st' y x) as [->|[Hb ->]]; [done|].
  apply Forall_app. split; [done|]. constructor; [|constructor]. by apply Hp.
Qed.

(** The four expansions stay on the buffer. *)
Lemma expandLeft_range y fuel : ∀ minX,
  0 ≤ minX → 0 ≤ expandLeft img fuel minX y ≤ minX.
Proof.
  induction fuel as [|fuel IH]; intros minX Hm; simpl; [lia|].
  destruct ((minX >? 0) && isBlack img (minX - 1) y) eqn:E; [|lia].
  apply andb_true_iff in E as [E _]. apply Z.gtb_lt in E.
  specialize (IH (minX - 1)). lia.
Qed.

Lemma expandRight_range y fuel : ∀ maxX,
  maxX ≤ ImageData.width img - 1 →
  maxX ≤ expandRight img fuel maxX y ≤ ImageData.width img - 1.
Proof.
  induction fuel as [|fuel IH]; intros maxX Hm; simpl; [lia|].
  destruct ((maxX <? ImageData.width img - 1) && isBlack img (maxX + 1) y) eqn:E;
    [|lia].
  apply andb_true_iff in E as [E _]. apply Z.ltb_lt in E.
  specialize (IH (maxX + 1)). lia.
Qed.

Lemma expandUp_range minX maxX fuel : ∀ minY,
  0 ≤ minY → 0 ≤ expandUp img fuel minX maxX minY ≤ minY.
Proof.
  induction fuel as [|fuel IH]; intros minY Hm; simpl; [lia|].
  destruct (minY >? 0) eqn:E; [|lia]. apply Z.gtb_lt in E.
  destruct (rowBlack img minX maxX (minY - 1)); [|lia].
  specialize (IH (minY - 1)). lia.
Qed.

Lemma expandDown_range minX maxX fuel : ∀ maxY,
  maxY ≤ ImageData.height img - 1 →
  maxY ≤ expandDown img fuel minX maxX maxY ≤ ImageData.height img - 1.
Proof.
  induction fuel as [|fuel IH]; intros maxY Hm; simpl; [lia|].
  destruct (maxY <? ImageData.height img - 1) eqn:E; [|lia]. apply Z.ltb_lt in E.
  destruct (rowBlack img minX maxX (maxY + 1)); [|lia].
  specialize (IH (maxY + 1)). lia.
Qed.

(** The horizontal expansions walk over black pixels only. *)
Lemma expandLeft_black x0 y fuel : ∀ minX,
  (∀ px, minX ≤ px ≤ x0 → isBlack img px y = true) →
  ∀ px, expandLeft img fuel minX y ≤ px ≤ x0 → isBlack img px y = true.
Proof.
  induction fuel as [|fuel IH]; intros minX Hm; simpl; [done|].
  destruct ((minX >? 0) && isBlack img (minX - 1) y) eqn:E; [|done].
  apply andb_true_iff in E as [_ E]. apply IH.
  intros px Hpx. destruct (decide (px = minX - 1)) as [->|]; [done|].
  apply Hm. lia.
Qed.

Lemma expandRight_black x0 y fuel : ∀ maxX,
  (∀ px, x0 ≤ px ≤ maxX → isBlack img px y = true) →
  ∀ px, x0 ≤ px ≤ expandRight img fuel maxX y → isBlack img px y = true.
Proof.
  induction fuel as [|fuel IH]; intros maxX Hm; simpl; [done|].
  destruct ((maxX <? ImageData.width img - 1) && isBlack img (maxX + 1) y) eqn:E;
    [|done].
  apply andb_true_iff in E as [_ E]. apply IH.
  intros px Hpx. destruct (decide (px = maxX + 1)) as [->|]; [done|].
  apply Hm. lia.
Qed.

(** The vertical expansions keep the rows that passed the test. *)
Lemma expandUp_rows minX maxX y0 fuel : ∀ minY,
  (∀ row, minY ≤ row ≤ y0 → rowBlack img minX maxX row = true) →
  ∀ row, expandUp img fuel minX maxX minY ≤ row ≤ y0 →
         rowBlack img minX maxX row = true.
Proof.
  induction fuel as [|fuel IH]; intros minY Hm; simpl; [done|].
  destruct (minY >? 0); [|done].
  destruct (rowBlack img minX maxX (minY - 1)) eqn:E; [|done].
  apply IH. intros row Hrow.
  destruct (decide (row = minY - 1)) as [->|]; [done|]. apply Hm. lia.
Qed.

Lemma expandDown_rows minX maxX y0 fuel : ∀ maxY,
  (∀ row, y0 ≤ row ≤ maxY → rowBlack img minX maxX row = true) →
  ∀ row, y0 ≤ row ≤ expandDown img fuel minX maxX maxY →
         rowBlack img minX maxX row = true.
Proof.
  induction fuel as [|fuel IH]; intros maxY Hm; simpl; [done|].
  destruct (maxY <? ImageData.height img - 1); [|done].
  destruct (rowBlack img minX maxX (maxY + 1)) eqn:E; [|done].
  apply IH. intros row Hrow.
  destruct (decide (row = maxY + 1)) as [->|]; [done|]. apply Hm. lia.
Qed.

Lemma candidate_insideBuffer x y :
  0 ≤ x ≤ ImageData.width img - 1 → 0 ≤ y ≤ ImageData.height img - 1 →
  insideBuffer img (candidate scale img pageNum x y).
Proof.
  intros Hx Hy. unfold insideBuffer, candidate. cbn.
  pose proof (expandLeft_range y (Z.to_nat x) x ltac:(lia)).
  pose proof (expandRight_range y (Z.to_nat (ImageData.width img - 1 - x)) x
                ltac:(lia)).
  pose proof (expandUp_range (expandLeft img (Z.to_nat x) x y)
                (expandRight img (Z.to_nat (ImageData.width img - 1 - x)) x y)
                (Z.to_nat y) y ltac:(lia)).
  pose proof (expandDown_range (expandLeft img (Z.to_nat x) x y)
                (expandRight img (Z.to_nat (ImageData.width img - 1 - x)) x y)
                (Z.to_nat (ImageData.height img - 1 - y)) y ltac:(lia)).
  lia.
Qed.

Lemma candidate_sampledBlack x y :
  0 ≤ x ≤ ImageData.width img - 1 → 0 ≤ y ≤ ImageData.height img - 1 →
  isBlack img x y = true →
  sampledBlack img (candidate scale img pageNum x y).
Proof.
  intros Hx Hy Hb. unfold sampledBlack, candidate. cbn.
  set (minX := expandLeft img (Z.to_nat x) x y).
  set (maxX := expandRight img (Z.to_nat (ImageData.width img - 1 - x)) x y).
  set (minY := expandUp img (Z.to_nat y) minX maxX y).
  set (maxY := expandDown img (Z.to_nat (ImageData.height img - 1 - y))
                          minX maxX y).
  replace (minX + (maxX - minX)) with maxX by lia.
  replace (minY + (maxY - minY)) with maxY by lia.
  assert (rowBlack img minX maxX y = true) as Hseed.
  { unfold rowBlack. apply forallb_forall. intros tx Htx.
    apply list_elem_of_In, elem_of_countUp in Htx as (k & Hk & -> & Hle); [|lia].
    destruct (Z_le_gt_dec (minX + 3 * k) x).
    - apply (expandLeft_black x y (Z.to_nat x) x).
      + intros px Hpx. by replace px with x by lia.
      + fold minX. lia.
    - apply (expandRight_black x y (Z.to_nat (ImageData.width img - 1 - x)) x).
      + intros px Hpx. by replace px with x by lia.
      + fold maxX. lia. }
  intros row Hrow. destruct (Z_le_gt_dec row y).
  - apply (expandUp_rows minX maxX y (Z.to_nat y) y).
    + intros row' Hr'. by replace row' with y by lia.
    + fold minY. lia.
  - apply (expandDown_rows minX maxX y (Z.to_nat (ImageData.height img - 1 - y)) y).
    + intros row' Hr'. by replace row' with y by lia.
    + fold maxY. lia.
Qed.

Lemma seed_on_buffer x y :
  x ∈ countUp 0 (ImageData.width img - 1) 5 →
  y ∈ countUp 0 (ImageData.height img - 1) 5 →
  0 ≤ x ≤ ImageData.width img - 1 ∧ 0 ≤ y ≤ ImageData.height img - 1.
Proof.
  intros Hx Hy.
  apply elem_of_countUp in Hx as (kx & ? & -> & ?); [|lia].
  apply elem_of_countUp in Hy as (ky & ? & -> & ?); [|lia]. lia.
Qed.

End ScanMore.

(** X4. A region [detectRedactions] returns carries the page number it
    was called with, no hidden text, and a box in document space that is
    its rectangle divided by the scale, whether it was merged or not. *)
Theorem detect_consistent (scale : Q) (img : ImageData.t) (pageNum : nat) :
  Forall (consistent scale pageNum) (detectRedactions scale img pageNum).
Proof.
  unfold detectRedactions. apply merge_keeps.
  - intros c o (Hp & _ & _ & _ & _ & Hh) _. by repeat split.
  - apply scanCandidates_forall. intros x y _ _ _. by repeat split.
Qed.

(** X5. The rectangle of a region [detectRedactions] returns, merged or
    not, lies on the buffer: it starts at a column and a row that are not
    negative and ends at most at the last column and the last row. *)
Theorem detect_inside_buffer (scale : Q) (img : ImageData.t) (pageNum : nat) :
  Forall (insideBuffer img) (detectRedactions scale img pageNum).
Proof.
  unfold detectRedactions. apply merge_keeps.
  - unfold insideBuffer, absorb. cbn. intros c o Hc Ho. lia.
  - apply scanCandidates_forall. intros x y Hx Hy _.
    destruct (seed_on_buffer img x y Hx Hy). by apply candidate_insideBuffer.
Qed.

(** X6. A region [detectRedactions] returns is at least 20 wide and 8
    high after the merge too. *)
Theorem detect_min_size (scale : Q) (img : ImageData.t) (pageNum : nat) :
  Forall (λ r, 20 ≤ Redaction.width r ∧ 8 ≤ Redaction.height r)
         (detectRedactions scale img pageNum).
Proof.
  unfold detectRedactions. apply merge_keeps.
  - unfold absorb. cbn. intros c o Hc _. lia.
  - eapply Forall_impl; [apply scanCandidates_passed|].
    intros r (Hw & Hh & _). unfold minRedactionSize in Hw. done.
Qed.

Section ScanGrowth.

Variable img : ImageData.t.

(** With enough fuel an expansion ends at the edge of the buffer or
    before a pixel, or a row, that fails the test. *)
Lemma expandLeft_stop y fuel : ∀ minX,
  0 ≤ minX ≤ Z.of_nat fuel →
  expandLeft img fuel minX y = 0
  ∨ isBlack img (expandLeft img fuel minX y - 1) y = false.
Proof.
  induction fuel as [|fuel IH]; intros minX Hm; simpl; [left; lia|].
  destruct (minX >? 0) eqn:E; simpl.
  - apply Z.gtb_lt in E. destruct (isBlack img (minX - 1) y) eqn:Hb.
    + apply IH. lia.
    + by right.
  - left. rewrite Z.gtb_ltb in E. apply Z.ltb_ge in E. lia.
Qed.

Lemma expandRight_stop y fuel : ∀ maxX,
  maxX ≤ ImageData.width img - 1 →
  ImageData.width img - 1 - maxX ≤ Z.of_nat fuel →
  expandRight img fuel maxX y = ImageData.width img - 1
  ∨ isBlack img (expandRight img fuel maxX y + 1) y = false.
Proof.
  induction fuel as [|fuel IH]; intros maxX Hm Hf; simpl; [left; lia|].
  destruct (maxX <? ImageData.width img - 1) eqn:E; simpl.
  - apply Z.ltb_lt in E. destruct (isBlack img (maxX + 1) y) eqn:Hb.
    + apply IH; lia.
    + by right.
  - left. apply Z.ltb_ge in E. lia.
Qed.

Lemma expandUp_stop minX maxX fuel : ∀ minY,
  0 ≤ minY ≤ Z.of_nat fuel →
  expandUp img fuel minX maxX minY = 0
  ∨ rowBlack img minX maxX (expandUp img fuel minX maxX minY - 1) = false.
Proof.
  induction fuel as [|fuel IH]; intros minY Hm; simpl; [left; lia|].
  destruct (minY >? 0) eqn:E.
  - apply Z.gtb_lt in E. destruct (rowBlack img minX maxX (minY - 1)) eqn:Hb.
    + apply IH. lia.
    + by right.
  - left. rewrite Z.gtb_ltb in E. apply Z.ltb_ge in E. lia.
Qed.

Lemma expandDown_stop minX maxX fuel : ∀ maxY,
  maxY ≤ ImageData.height img - 1 →
  ImageData.height img - 1 - maxY ≤ Z.of_nat fuel →
  expandDown img fuel minX maxX maxY = ImageData.height img - 1
  ∨ rowBlack img minX maxX (expandDown img fuel minX maxX maxY + 1) = false.
Proof.
  induction fuel as [|fuel IH]; intros maxY Hm Hf; simpl; [left; lia|].
  destruct (maxY <? ImageData.height img - 1) eqn:E.
  - apply Z.ltb_lt in E. destruct (rowBlack img minX maxX (maxY + 1)) eqn:Hb.
    + apply IH; lia.
    + by right.
  - left. apply Z.ltb_ge in E. lia.
Qed.

Lemma candidate_grown scale pageNum x y :
  0 ≤ x ≤ ImageData.width img - 1 → 0 ≤ y ≤ ImageData.height img - 1 →
  isBlack img x y = true →
  grown img (candidate scale img pageNum x y).
Proof.
  intros Hx Hy Hb.
  pose proof (candidate_sampledBlack scale img pageNum x y Hx Hy Hb) as Hrows.
  revert Hrows. unfold candidate, sampledBlack.
  cbn [Redaction.x Redaction.y Redaction.width Redaction.height].
  set (minX := expandLeft img (Z.to_nat x) x y).
  set (maxX := expandRight img (Z.to_nat (ImageData.width img - 1 - x)) x y).
  set (minY := expandUp img (Z.to_nat y) minX maxX y).
  set (maxY := expandDown img (Z.to_nat (ImageData.height img - 1 - y))
                          minX maxX y).
  intros Hrows.
  pose proof (expandLeft_range img y (Z.to_nat x) x ltac:(lia)) as HL.
  pose proof (expandRight_range img y (Z.to_nat (ImageData.width img - 1 - x)) x
                ltac:(lia)) as HR.
  pose proof (expandUp_range img minX maxX (Z.to_nat y) y ltac:(lia)) as HU.
  pose proof (expandDown_range img minX maxX
                (Z.to_nat (ImageData.height img - 1 - y)) y ltac:(lia)) as HD.
  fold minX in HL. fold maxX in HR. fold minY in HU. fold maxY in HD.
  split; cbn [Redaction.x Redaction.y Redaction.width Redaction.height].
  - exists y. replace (minX + (maxX - minX)) with maxX by lia.
    replace (minY + (maxY - minY)) with maxY by lia.
    split; [lia|]. split; [|split].
    + intros px Hpx. destruct (Z_le_gt_dec px x).
      * apply (expandLeft_black img x y (Z.to_nat x) x).
        -- intros px' Hpx'. by replace px' with x by lia.
        -- fold minX. lia.
      * apply (expandRight_black img x y
                 (Z.to_nat (ImageData.width img - 1 - x)) x).
        -- intros px' Hpx'. by replace px' with x by lia.
        -- fold maxX. lia.
    + apply expandLeft_stop. lia.
    + apply expandRight_stop; lia.
  - exact Hrows.
  - replace (minX + (maxX - minX)) with maxX by lia.
    apply expandUp_stop. lia.
  - replace (minX + (maxX - minX)) with maxX by lia.
    replace (minY + (maxY - minY)) with maxY by lia.
    apply expandDown_stop; lia.
Qed.

End ScanGrowth.

(** X7. A rectangle the scan emits is grown as far as the tests allow:
    on the row of its seed every pixel between its left and right edges
    is black and the pixel past either edge is not (or the edge is that
    of the buffer); on every row from the top to the bottom the pixels at
    every third column from the left edge are black, and the row above
    the top and the row below the bottom fail that test (or the box
    reaches the edge of the buffer). *)
Theorem scan_boxes_grown (scale : Q) (img : ImageData.t) (pageNum : nat) :
  Forall (grown img) (scanCandidates scale img pageNum).
Proof.
  apply scanCandidates_forall. intros x y Hx Hy Hb.
  destruct (seed_on_buffer img x y Hx Hy). by apply candidate_grown.
Qed.

(** * Further properties of the association of text *)

Section TextMore.

Variable scale : Q.
Variable textItems : list TextItem.t.
Variable vt : Matrix.



Lemma findTextInArea_index_elem r a j :
  j ∈ FoundText.index <$> (findTextInArea scale textItems r vt a).1
  ↔ (j ∉ a) ∧ taken scale textItems vt r j.
Proof.
  rewrite list_elem_of_fmap. unfold taken. split.
  - intros (ft & -> & Hft). apply findTextInArea_elem, pick_Some in Hft
      as (Ha & item & Hi & Hs & Hin & _). split; [done|]. by exists item.
  - intros (Ha & item & Hi & Hs & Hin). exists (found scale vt item j).
    split; [done|]. apply findTextInArea_elem. cbn [found FoundText.index].
    apply pick_Some. split; [done|]. by exists item.
Qed.

Lemma findTextInArea_assigned r a j :
  j ∈ (findTextInArea scale textItems r vt a).2
  ↔ j ∈ a ∨ taken scale textItems vt r j.
Proof.
  pose proof (findTextInArea_indices scale textItems vt r a) as (_ & _ & Hset).
  cbv zeta in Hset. rewrite Hset, findTextInArea_index_elem.
  destruct (decide (j ∈ a)); tauto.
Qed.

(** The step of the loop of [processPage] over the regions. *)
Lemma assign_step out a r :
  (λ st redaction,
     let '(foundText, assigned') :=
       findTextInArea scale textItems redaction vt st.2 in
     (st.1 ++ [setHiddenText redaction foundText], assigned')) (out, a) r
  = (out ++ [setHiddenText r (findTextInArea scale textItems r vt a).1],
     (findTextInArea scale textItems r vt a).2).
Proof. cbn [fst snd]. by destruct (findTextInArea scale textItems r vt a). Qed.

Lemma assign_fold_prefix regions : ∀ out a i p,
  out !! i = Some p →
  (foldl (λ st redaction,
            let '(foundText, assigned') :=
              findTextInArea scale textItems redaction vt st.2 in
            (st.1 ++ [setHiddenText redaction foundText], assigned'))
         (out, a) regions).1 !! i = Some p.
Proof.
  induction regions as [|r regions IH]; intros out a i p Hp; [done|].
  cbn [foldl]. rewrite assign_step. apply IH. by apply lookup_app_l_Some.
Qed.

(** The region of index [k] is searched with the set of the indices the
    regions before it took. *)
Lemma assign_fold regions : ∀ out a0 k r,
  regions !! k = Some r →
  ∃ a,
    (foldl (λ st redaction,
              let '(foundText, assigned') :=
                findTextInArea scale textItems redaction vt st.2 in
              (st.1 ++ [setHiddenText redaction foundText], assigned'))
           (out, a0) regions).1 !! (length out + k)%nat
    = Some (setHiddenText r (findTextInArea scale textItems r vt a).1)
    ∧ ∀ j, j ∈ a ↔ j ∈ a0 ∨ ∃ k' r', (k' < k)%nat ∧ regions !! k' = Some r'
                                      ∧ taken scale textItems vt r' j.
Proof.
  induction regions as [|r0 regions IH]; intros out a0 k r Hk;
    [by rewrite lookup_nil in Hk|].
  cbn [foldl]. rewrite assign_step. destruct k as [|k].
  - simpl in Hk. injection Hk as <-. exists a0. split.
    + apply assign_fold_prefix. rewrite Nat.add_0_r.
      rewrite lookup_app_r by lia. by rewrite Nat.sub_diag.
    + intros j. split; [by left|]. intros [?|(k' & _ & Hlt & _)]; [done|lia].
  - simpl in Hk.
    destruct (IH (out ++ [setHiddenText r0 (findTextInArea scale textItems r0 vt a0).1])
                 (findTextInArea scale textItems r0 vt a0).2 k r Hk)
      as (a & Hl & Ha).
    exists a. split.
    + rewrite length_app in Hl. cbn [length] in Hl.
      by replace (length out + S k)%nat with (length out + 1 + k)%nat by lia.
    + intros j. rewrite Ha, findTextInArea_assigned. split.
      * intros [[?|Ht]|(k' & r' & Hlt & Hr' & Ht)].
        -- by left.
        -- right. exists 0%nat, r0. split; [lia|]. done.
        -- right. exists (S k'), r'. split; [lia|]. done.
      * intros [?|(k' & r' & Hlt & Hr' & Ht)]; [by left; left|].
        destruct k' as [|k'].
        -- simpl in Hr'. injection Hr' as <-. by left; right.
        -- right. exists k', r'. split; [lia|]. done.
Qed.


End TextMore.

(** X8. When an item meets the test for several regions of a page, it is
    filed under the first of them in the list of regions: the hidden text
    of the region of index [k] holds the indices of the items that meet
    the test for it and for no region before it. *)
Theorem first_region_wins (scale : Q) (textItems : list TextItem.t)
    (vt : Matrix) (pageRedactions : list Redaction.t) (k : nat)
    (r : Redaction.t) :
  pageRedactions !! k = Some r →
  ∃ filed,
    (assignHiddenText scale textItems vt pageRedactions).1 !! k = Some filed
    ∧ Redaction.box filed = Redaction.box r
    ∧ ∀ i, i ∈ FoundText.index <$> Redaction.hiddenText filed
           ↔ taken scale textItems vt r i
             ∧ ∀ k' r', (k' < k)%nat → pageRedactions !! k' = Some r' →
                        ¬ taken scale textItems vt r' i.
Proof.
  intros Hk. unfold assignHiddenText.
  destruct (assign_fold scale textItems vt pageRedactions [] ∅ k r Hk)
    as (a & Hl & Ha).
  eexists. split; [exact Hl|]. split; [reflexivity|].
  intros i. cbn [Redaction.hiddenText setHiddenText].
  rewrite findTextInArea_index_elem, Ha. split.
  - intros [Hn Ht]. split; [done|]. intros k' r' Hlt Hr' Ht'.
    apply Hn. right. by exists k', r'.
  - intros [Ht Hn]. split; [|done].
    intros [Hi|(k' & r' & Hlt & Hr' & Ht')]; [set_solver|]. by eapply Hn.
Qed.

Lemma first_region_wins_witness :
  ∃ filed,
    (assignHiddenText 1 [exSecret; exFiller] identity
       [exRegion; mkRedaction 1 1 0 0 300 200]).1 !! 1%nat = Some filed
    ∧ Redaction.box filed = Redaction.box (mkRedaction 1 1 0 0 300 200)
    ∧ ∀ i, i ∈ FoundText.index <$> Redaction.hiddenText filed
           ↔ taken 1 [exSecret; exFiller] identity (mkRedaction 1 1 0 0 300 200) i
             ∧ ∀ k' r', (k' < 1)%nat →
                        [exRegion; mkRedaction 1 1 0 0 300 200] !! k' = Some r' →
                        ¬ taken 1 [exSecret; exFiller] identity r' i.
Proof.
  apply (first_region_wins 1 [exSecret; exFiller] identity
           [exRegion; mkRedaction 1 1 0 0 300 200] 1
           (mkRedaction 1 1 0 0 300 200)).
  reflexivity.
Defined.



(** * Further properties of the load *)

Section LoadMore.

Variable scale : Q.

(** The regions of a page keep the fields of the redactions they were
    made of, the hidden text apart. *)
Lemma assignHiddenText_shape textItems vt pageRedactions r :
  r ∈ (assignHiddenText scale textItems vt pageRedactions).1 →
  ∃ r0 h, r0 ∈ pageRedactions ∧ r = setHiddenText r0 h.
Proof.
  unfold assignHiddenText.
  assert (∀ regions out a r,
            r ∈ (foldl (λ st redaction,
                          let '(foundText, assigned') :=
                            findTextInArea scale textItems redaction vt st.2 in
                          (st.1 ++ [setHiddenText redaction foundText], assigned'))
                       (out, a) regions).1 →
            r ∈ out ∨ ∃ r0 h, r0 ∈ regions ∧ r = setHiddenText r0 h) as Hgen.
  { induction regions as [|r0 regions IH]; intros out a r' Hr'; [by left|].
    cbn [foldl] in Hr'. rewrite assign_step in Hr'.
    apply IH in Hr' as [Hr'|(r1 & h & Hr1 & ->)].
    - apply elem_of_app in Hr' as [?|Hr']; [by left|].
      apply list_elem_of_singleton in Hr'. right. eexists r0, _.
      split; [apply list_elem_of_here|done].
    - right. exists r1, h. split; [by apply list_elem_of_further|done]. }
  intros Hr. apply Hgen in Hr as [Hr|?]; [by apply elem_of_nil in Hr|done].
Qed.

Lemma detect_page img pageNum :
  Forall (λ r, Redaction.page r = pageNum) (detectRedactions scale img pageNum).
Proof.
  unfold detectRedactions. apply merge_keeps.
  - by intros c o Hc _.
  - by apply scanCandidates_forall.
Qed.

Lemma processPage_pages rendered pageNum :
  Forall (λ r, Redaction.page r = pageNum)
         (PageData.redactions (processPage scale rendered pageNum)).
Proof.
  rewrite Forall_forall. intros r Hr. unfold processPage in Hr.
  cbn [PageData.redactions] in Hr.
  apply assignHiddenText_shape in Hr as (r0 & h & Hr0 & ->).
  pose proof (detect_page (r_imageData rendered) pageNum) as Hd.
  rewrite Forall_forall in Hd. exact (Hd r0 Hr0).
Qed.

(** The loop of [loadPdf] in closed form. *)
Lemma loadStep_fold_result (rs : list Rendered) : ∀ acc n,
  foldl (loadStep scale) (Normal acc, n) (Normal <$> rs)
  = (Normal
       {| LoadResult.numPages := LoadResult.numPages acc;
          LoadResult.pages :=
            LoadResult.pages acc
            ++ imap (λ j r, processPage scale r (n + j)) rs;
          LoadResult.redactions :=
            LoadResult.redactions acc
            ++ (p ← imap (λ j r, processPage scale r (n + j)) rs;
                PageData.redactions p) |},
     (n + length rs)%nat).
Proof.
  induction rs as [|r rs IH]; intros acc n.
  - destruct acc. cbn. rewrite !app_nil_r. f_equal. lia.
  - rewrite fmap_cons. cbn [foldl loadStep fst snd]. rewrite IH.
    cbn [LoadResult.numPages LoadResult.pages LoadResult.redactions].
    rewrite imap_cons, bind_cons, <- !app_assoc. cbn [app length].
    rewrite Nat.add_0_r.
    rewrite (imap_ext (λ j r0, processPage scale r0 (S n + j))
                      ((λ j r0, processPage scale r0 (n + j)) ∘ S)).
    2:{ intros j r0 _. simpl. by replace (n + S j)%nat with (S (n + j)) by lia. }
    f_equal. lia.
Qed.

End LoadMore.

(** X11. When every page renders, [loadPdf] resolves with as many pages
    as the document has, numbered from 1 in order; its list of redactions
    is the lists of the pages put end to end, and every region bears the
    number of its page. *)
Theorem loadPdf_result (scale : Q) (rs : list Rendered) :
  ∃ res,
    loadPdf scale (Normal <$> rs) = Normal res
    ∧ LoadResult.numPages res = length rs
    ∧ PageData.pageNum <$> LoadResult.pages res = seq 1 (length rs)
    ∧ LoadResult.redactions res
      = (p ← LoadResult.pages res; PageData.redactions p)
    ∧ Forall (λ p, Forall (λ r, Redaction.page r = PageData.pageNum p)
                          (PageData.redactions p))
             (LoadResult.pages res).
Proof.
  unfold loadPdf. rewrite loadStep_fold_result. cbn [fst].
  eexists. split; [reflexivity|].
  cbn [LoadResult.numPages LoadResult.pages LoadResult.redactions app].
  split; [by rewrite length_fmap|]. split; [|split; [done|]].
  - apply list_eq. intros j.
    rewrite list_lookup_fmap, list_lookup_imap.
    destruct (rs !! j) as [r|] eqn:Hr; simpl.
    + symmetry. apply lookup_seq. split; [done|]. by eapply lookup_lt_Some.
    + symmetry. apply lookup_seq_ge. by apply lookup_ge_None.
  - rewrite Forall_forall. intros p Hp.
    apply list_elem_of_lookup in Hp as [j Hj].
    rewrite list_lookup_imap in Hj.
    destruct (rs !! j) as [r|]; [|done]. injection Hj as <-.
    apply processPage_pages.
Qed.
(** * Properties of the scale and of the navigation *)

Lemma setScale_range (s : Q) : (0.5 <= setScale s <= 3)%Q.
Proof.
  unfold setScale.
  destruct (Q.max_spec 0.5 (Qmin 3 s)) as [[H1 ->]|[H1 ->]];
    destruct (Q.min_spec 3 s) as [[H2 H3]|[H2 H3]];
    rewrite ?H3 in *; lra.
Qed.

Lemma setScale_inside (s : Q) : (0.5 <= s <= 3)%Q → (setScale s == s)%Q.
Proof.
  intros Hs. unfold setScale.
  destruct (Q.min_spec 3 s) as [[H2 H3]|[H2 H3]];
    destruct (Q.max_spec 0.5 (Qmin 3 s)) as [[H1 H4]|[H1 H4]];
    rewrite H4; rewrite H3 in *; lra.
Qed.

(** X12. Whatever the scale and the step, [zoom] leaves the scale
    between 0.5 and 3, and the percentage it shows is between 33 and
    200. *)
Theorem zoom_range (scale delta : Q) :
  (0.5 <= (zoom scale delta).1 <= 3)%Q
  ∧ 33 ≤ (zoom scale delta).2 ≤ 200.
Proof.
  unfold zoom. cbn [fst snd].
  pose proof (setScale_range (scale + delta)) as [Hlo Hhi].
  split; [done|]. unfold js_round.
  set (s := setScale (scale + delta)) in *.
  split.
  - change 33 with (Qfloor (inject_Z 33)). apply Qfloor_resp_le.
    assert (s * 100 / 1.5 == s * (200 # 3))%Q as -> by field.
    unfold inject_Z. lra.
  - change 200 with (Qfloor (401 # 2)). apply Qfloor_resp_le.
    assert (s * 100 / 1.5 == s * (200 # 3))%Q as -> by field. lra.
Qed.

(** X13. A zoom step that does not leave the range is undone by the
    opposite step: from a scale between 0.5 and 3, zooming by [delta] to
    a scale between 0.5 and 3 and then by [- delta] gives the first
    scale again. *)
Theorem zoom_round_trip (scale delta : Q) :
  (0.5 <= scale <= 3)%Q → (0.5 <= scale + delta <= 3)%Q →
  ((zoom (zoom scale delta).1 (- delta)).1 == scale)%Q.
Proof.
  intros Hs Hd. unfold zoom. cbn [fst].
  pose proof (setScale_inside (scale + delta) Hd) as Ht.
  set (t := setScale (scale + delta)) in *.
  assert (0.5 <= t + - delta <= 3)%Q as Hb by lra.
  pose proof (setScale_inside (t + - delta) Hb). lra.
Qed.

Lemma zoom_round_trip_witness :
  ((zoom (zoom 1.5 0.25).1 (- 0.25)).1 == 1.5)%Q.
Proof.
  apply (zoom_round_trip 1.5 0.25); split; unfold Qle; simpl; lia.
Defined.

(** * The order of the doubles *)

Lemma SFcompare_keys x y :
  SFcompare x y
  = match keyOf x, keyOf y with
    | Some a, Some b =>
        Some (match a.1.1 ?= b.1.1 with
              | Eq => match a.1.2 ?= b.1.2 with
                      | Eq => a.2 ?= b.2
                      | c => c
                      end
              | c => c
              end)
    | _, _ => None
    end.
Proof.
  destruct x as [s1|s1| |s1 m1 e1], y as [s2|s2| |s2 m2 e2];
    try destruct s1; try destruct s2; try reflexivity; cbn.
  rewrite Z.compare_opp. rewrite (Z.compare_antisym e1 e2).
  destruct (e1 ?= e2) eqn:E; cbn; reflexivity.
Qed.

Lemma lex_compare_Lt (a b : Z * Z * Z) :
  match a.1.1 ?= b.1.1 with
  | Eq => match a.1.2 ?= b.1.2 with Eq => a.2 ?= b.2 | c => c end
  | c => c
  end = Lt ↔ lexLt a b.
Proof.
  unfold lexLt.
  destruct (Z.compare_spec a.1.1 b.1.1); [|split; [lia|done]|split; [done|lia]].
  destruct (Z.compare_spec a.1.2 b.1.2); [|split; [lia|done]|split; [done|lia]].
  destruct (Z.compare_spec a.2 b.2); split; try done; lia.
Qed.

Lemma lex_compare_Eq (a b : Z * Z * Z) :
  match a.1.1 ?= b.1.1 with
  | Eq => match a.1.2 ?= b.1.2 with Eq => a.2 ?= b.2 | c => c end
  | c => c
  end = Eq ↔ a = b.
Proof.
  destruct a as [[a1 a2] a3], b as [[b1 b2] b3]. cbn.
  destruct (Z.compare_spec a1 b1); [|split; [done|intros [=]; lia]..].
  destruct (Z.compare_spec a2 b2); [|split; [done|intros [=]; lia]..].
  destruct (Z.compare_spec a3 b3); split; try done; try (intros [=]; lia).
  intros _. by subst.
Qed.

Lemma lex_compare_Gt (a b : Z * Z * Z) :
  match a.1.1 ?= b.1.1 with
  | Eq => match a.1.2 ?= b.1.2 with Eq => a.2 ?= b.2 | c => c end
  | c => c
  end = Gt ↔ lexLt b a.
Proof.
  unfold lexLt.
  destruct (Z.compare_spec a.1.1 b.1.1); [|split; [done|lia]|split; [lia|done]].
  destruct (Z.compare_spec a.1.2 b.1.2); [|split; [done|lia]|split; [lia|done]].
  destruct (Z.compare_spec a.2 b.2); split; try done; lia.
Qed.

Lemma is_nan_placed x : is_nan x = false ↔ ∃ k, placed x k.
Proof.
  unfold is_nan, placed. rewrite negb_false_iff, FloatAxioms.eqb_spec.
  unfold SFeqb. rewrite SFcompare_keys.
  destruct (keyOf (Prim2SF x)) as [k|].
  - split; [by exists k|]. intros _.
    pose proof (proj2 (lex_compare_Eq k k) eq_refl) as ->. done.
  - split; [done|]. by intros [k Hk].
Qed.

Lemma ltb_placed x y a b :
  placed x a → placed y b → ((x <? y)%float = true ↔ lexLt a b).
Proof.
  unfold placed. intros Ha Hb. rewrite FloatAxioms.ltb_spec. unfold SFltb.
  rewrite SFcompare_keys, Ha, Hb. rewrite <- lex_compare_Lt.
  destruct (match a.1.1 ?= b.1.1 with
            | Eq => match a.1.2 ?= b.1.2 with Eq => a.2 ?= b.2 | c => c end
            | c => c end); split; done.
Qed.

Lemma leb_placed x y a b :
  placed x a → placed y b → ((x <=? y)%float = true ↔ ¬ lexLt b a).
Proof.
  unfold placed. intros Ha Hb. rewrite FloatAxioms.leb_spec. unfold SFleb.
  rewrite SFcompare_keys, Ha, Hb. rewrite <- lex_compare_Gt.
  destruct (match a.1.1 ?= b.1.1 with
            | Eq => match a.1.2 ?= b.1.2 with Eq => a.2 ?= b.2 | c => c end
            | c => c end); split; done.
Qed.

Lemma eqb_placed x y a b :
  placed x a → placed y b → ((x =? y)%float = true ↔ a = b).
Proof.
  unfold placed. intros Ha Hb. rewrite FloatAxioms.eqb_spec. unfold SFeqb.
  rewrite SFcompare_keys, Ha, Hb. rewrite <- lex_compare_Eq.
  destruct (match a.1.1 ?= b.1.1 with
            | Eq => match a.1.2 ?= b.1.2 with Eq => a.2 ?= b.2 | c => c end
            | c => c end); split; done.
Qed.

Lemma leb_is_nan x y : (x <=? y)%float = true → is_nan x = false ∧ is_nan y = false.
Proof.
  rewrite FloatAxioms.leb_spec. unfold SFleb. rewrite SFcompare_keys.
  rewrite !is_nan_placed. unfold placed.
  destruct (keyOf (Prim2SF x)) as [a|]; [|done].
  destruct (keyOf (Prim2SF y)) as [b|]; [|done].
  intros _. split; eauto.
Qed.

(** [Math.min] and [Math.max] of two numbers are one of them, at the
    lower and at the higher of their places. *)
Lemma js_min_placed x y a b :
  placed x a → placed y b →
  (Double.js_min x y = x ∨ Double.js_min x y = y)
  ∧ placed (Double.js_min x y) (lowerKey a b).
Proof.
  intros Ha Hb. unfold Double.js_min, lowerKey.
  assert (is_nan x = false) as -> by (apply is_nan_placed; eauto).
  assert (is_nan y = false) as -> by (apply is_nan_placed; eauto).
  pose proof (ltb_placed x y a b Ha Hb) as Hxy.
  pose proof (ltb_placed y x b a Hb Ha) as Hyx.
  destruct (x <? y)%float eqn:E1.
  { split; [by left|]. apply proj1 in Hxy. specialize (Hxy eq_refl).
    rewrite decide_False; [done|]. unfold lexLt in *. lia. }
  destruct (y <? x)%float eqn:E2.
  { split; [by right|]. apply proj1 in Hyx. specialize (Hyx eq_refl).
    by rewrite decide_True. }
  assert (a = b) as <-.
  { destruct a as [[a1 a2] a3], b as [[b1 b2] b3].
    assert (¬ lexLt (a1, a2, a3) (b1, b2, b3)) as H1
      by (intros H; apply Hxy in H; done).
    assert (¬ lexLt (b1, b2, b3) (a1, a2, a3)) as H2
      by (intros H; apply Hyx in H; done).
    unfold lexLt in *. cbn in *. f_equal; [f_equal|]; lia. }
  rewrite decide_False by (unfold lexLt; lia).
  destruct (get_sign x); [split; [by left|done]|split; [by right|done]].
Qed.

Lemma js_max_placed x y a b :
  placed x a → placed y b →
  (Double.js_max x y = x ∨ Double.js_max x y = y)
  ∧ placed (Double.js_max x y) (higherKey a b).
Proof.
  intros Ha Hb. unfold Double.js_max, higherKey.
  assert (is_nan x = false) as -> by (apply is_nan_placed; eauto).
  assert (is_nan y = false) as -> by (apply is_nan_placed; eauto).
  pose proof (ltb_placed x y a b Ha Hb) as Hxy.
  pose proof (ltb_placed y x b a Hb Ha) as Hyx.
  destruct (x <? y)%float eqn:E1.
  { split; [by right|]. apply proj1 in Hxy. specialize (Hxy eq_refl).
    by rewrite decide_True. }
  destruct (y <? x)%float eqn:E2.
  { split; [by left|]. apply proj1 in Hyx. specialize (Hyx eq_refl).
    rewrite decide_False; [done|]. unfold lexLt in *. lia. }
  assert (a = b) as <-.
  { destruct a as [[a1 a2] a3], b as [[b1 b2] b3].
    assert (¬ lexLt (a1, a2, a3) (b1, b2, b3)) as H1
      by (intros H; apply Hxy in H; done).
    assert (¬ lexLt (b1, b2, b3) (a1, a2, a3)) as H2
      by (intros H; apply Hyx in H; done).
    unfold lexLt in *. cbn in *. f_equal; [f_equal|]; lia. }
  rewrite decide_False by (unfold lexLt; lia).
  destruct (get_sign x); [split; [by right|done]|split; [by left|done]].
Qed.

Lemma js_min_nan x y :
  is_nan y = true → is_nan (Double.js_min x y) = true.
Proof.
  intros Hy. unfold Double.js_min.
  destruct (is_nan x) eqn:Hx; [done|]. by rewrite Hy.
Qed.

Lemma js_max_nan x y :
  is_nan y = true → is_nan (Double.js_max x y) = true.
Proof.
  intros Hy. unfold Double.js_max.
  destruct (is_nan x) eqn:Hx; [done|]. by rewrite Hy.
Qed.

(** The places are in a strict total order. *)
Lemma lexLt_irrefl a : ¬ lexLt a a.
Proof. unfold lexLt. lia. Qed.

Lemma lexLt_trans a b c : lexLt a b → lexLt b c → lexLt a c.
Proof. unfold lexLt. lia. Qed.

Lemma lexLt_le_trans a b c : lexLt a b → ¬ lexLt c b → lexLt a c.
Proof. unfold lexLt. lia. Qed.

Lemma lexLt_asym a b : lexLt a b → ¬ lexLt b a.
Proof. intros H H'. exact (lexLt_irrefl a (lexLt_trans _ _ _ H H')). Qed.

Lemma lex_antisym (a b : Z * Z * Z) : ¬ lexLt a b → ¬ lexLt b a → a = b.
Proof.
  destruct a as [[a1 a2] a3], b as [[b1 b2] b3]. unfold lexLt. cbn [fst snd].
  intros H1 H2. f_equal; [f_equal|]; lia.
Qed.

(** Bringing a place between [k1] and [kN] twice is bringing it there
    once. *)
Lemma clamp_key (k1 kN kx : Z * Z * Z) :
  ¬ lexLt kN k1 →
  higherKey k1 (lowerKey kN (higherKey k1 (lowerKey kN kx)))
  = (if decide (lexLt kx k1) then k1
     else if decide (lexLt kN kx) then kN else kx).
Proof.
  intros H1N. unfold higherKey, lowerKey.
  pose proof (lexLt_irrefl k1) as Hi1.
  destruct (decide (lexLt kx k1)) as [Hx1|Hx1].
  - assert (lexLt kx kN) as HxN by (by eapply lexLt_le_trans).
    pose proof (lexLt_asym _ _ Hx1) as H1x.
    rewrite (decide_True _ _ HxN), (decide_False _ _ H1x).
    repeat case_decide; done.
  - destruct (decide (lexLt kN kx)) as [HNx|HNx].
    + pose proof (lexLt_asym _ _ HNx) as HxN.
      rewrite (decide_False _ _ HxN).
      destruct (decide (lexLt k1 kN)) as [H1N'|H1N'].
      * rewrite (decide_False _ _ (lexLt_irrefl kN)).
        by rewrite (decide_True _ _ H1N').
      * rewrite (decide_False _ _ H1N'), (decide_False _ _ H1N').
        by apply lex_antisym.
    + destruct (decide (lexLt kx kN)) as [HxN|HxN].
      * destruct (decide (lexLt k1 kx)) as [H1x|H1x].
        -- by rewrite (decide_True _ _ HxN), (decide_True _ _ H1x).
        -- assert (k1 = kx) as <- by (by apply lex_antisym).
           repeat case_decide; done.
      * assert (kN = kx) as <- by (by apply lex_antisym).
        destruct (decide (lexLt k1 kN)) as [H1N'|H1N'].
        -- rewrite (decide_False _ _ (lexLt_irrefl kN)).
           by rewrite (decide_True _ _ H1N').
        -- rewrite (decide_False _ _ H1N'), (decide_False _ _ H1N').
           by apply lex_antisym.
Qed.

Lemma placed_one k : placed 1%float k → k = (1, -52, 4503599627370496).
Proof. unfold placed. vm_compute. congruence. Qed.

(** Two numbers at the same place, other than that of zero, are the
    same number. *)
Lemma placed_inj x y k : placed x k → placed y k → k.1.1 ≠ 0 → x = y.
Proof.
  unfold placed. intros Hx Hy Hk.
  rewrite <- (SF2Prim_Prim2SF x), <- (SF2Prim_Prim2SF y). f_equal.
  destruct (Prim2SF x) as [s|s| |s m e], (Prim2SF y) as [s'|s'| |s' m' e'];
    cbn in Hx, Hy; try done;
    try destruct s; try destruct s'; simplify_eq; cbn in *; try done;
    try lia.
  f_equal. lia.
Qed.

(** X14. [navigatePage] writes into the page field the current page
    plus the step, brought between 1 and the number of pages; when the
    field holds no number ([parseInt] gives [NaN]) it writes [NaN]. In a
    document with at least one page: the sum, when it is a number, gives
    a page between 1 and the number of pages, the first page when it is
    below 1, the last page when it is above the number of pages, and
    else the sum itself. *)
Theorem navigatePage_range (numPages currentPage delta : float) :
  (1 <=? numPages)%float = true →
  let page := navigatePage numPages currentPage delta in
  (is_nan (currentPage + delta) = true → is_nan page = true)
  ∧ (is_nan (currentPage + delta) = false →
     (1 <=? page)%float = true ∧ (page <=? numPages)%float = true
     ∧ ((currentPage + delta <? 1)%float = true → page = 1%float)
     ∧ ((numPages <? currentPage + delta)%float = true → page = numPages)
     ∧ ((1 <=? currentPage + delta)%float = true →
        (currentPage + delta <=? numPages)%float = true →
        page = (currentPage + delta)%float)).
Proof.
  intros HN page. subst page. unfold navigatePage, goToPage.
  generalize (currentPage + delta)%float. intros x.
  split.
  { intros Hx. apply js_max_nan, js_min_nan, js_max_nan, js_min_nan. exact Hx. }
  intros Hx.
  apply is_nan_placed in Hx as [kx Hkx].
  destruct (leb_is_nan _ _ HN) as [H1 HNn].
  apply is_nan_placed in H1 as [k1 Hk1].
  apply is_nan_placed in HNn as [kN HkN].
  pose proof (proj1 (leb_placed _ _ _ _ Hk1 HkN) HN) as H1N.
  destruct (js_min_placed numPages x kN kx HkN Hkx) as [_ Hkm1].
  revert Hkm1. generalize (Double.js_min numPages x). intros m1 Hkm1.
  destruct (js_max_placed 1 m1 k1 _ Hk1 Hkm1) as [_ Hkr1].
  revert Hkr1. generalize (Double.js_max 1 m1). intros r1 Hkr1.
  destruct (js_min_placed numPages r1 kN _ HkN Hkr1) as [_ Hkm2].
  revert Hkm2. generalize (Double.js_min numPages r1). intros m2 Hkm2.
  destruct (js_max_placed 1 m2 k1 _ Hk1 Hkm2) as [_ Hkr2].
  revert Hkr2. generalize (Double.js_max 1 m2). intros r2 Hkr2.
  clear Hkm1 Hkr1 Hkm2 m1 r1 m2.
  rewrite (clamp_key k1 kN kx H1N) in Hkr2.
  pose proof (placed_one k1 Hk1) as Hone.
  assert (k1.1.1 = 1) as Hc1 by (by rewrite Hone).
  assert (kN.1.1 ≠ 0) as HcN by (unfold lexLt in H1N; lia).
  pose proof (ltb_placed _ _ _ _ Hkx Hk1) as Hltx1.
  pose proof (ltb_placed _ _ _ _ HkN Hkx) as HltNx.
  pose proof (leb_placed _ _ _ _ Hk1 Hkx) as Hle1x.
  pose proof (leb_placed _ _ _ _ Hkx HkN) as HlexN.
  destruct (decide (lexLt kx k1)) as [Hx1|Hx1].
  { (* below the first page *)
    assert (r2 = 1%float) as -> by (apply (placed_inj r2 1 k1); [done..|lia]).
    split; [|split; [|split; [|split]]]; [done|done|done| |].
    - intros HNx%HltNx. destruct H1N.
      exact (lexLt_trans _ _ _ HNx Hx1).
    - intros H1x%Hle1x. done. }
  destruct (decide (lexLt kN kx)) as [HNx|HNx].
  { (* above the last page *)
    assert (r2 = numPages) as ->
      by (by apply (placed_inj r2 numPages kN)).
    split; [|split; [|split; [|split]]]; [done| | |done|].
    - apply (leb_placed _ _ _ _ HkN HkN), lexLt_irrefl.
    - intros Hlt%Hltx1. done.
    - intros _ HxN%HlexN. done. }
  assert (kx.1.1 ≠ 0) as Hcx by (unfold lexLt in Hx1; lia).
  assert (r2 = x) as -> by (by apply (placed_inj r2 x kx)).
  split; [|split; [|split; [|split]]]; [| | | |done].
  - by apply Hle1x.
  - by apply HlexN.
  - intros Hlt%Hltx1. done.
  - intros Hlt%HltNx. done.
Qed.

Lemma navigatePage_range_witness :
  let page := navigatePage 3 3 1 in
  (is_nan (3 + 1) = true → is_nan page = true)
  ∧ (is_nan (3 + 1) = false →
     (1 <=? page)%float = true ∧ (page <=? 3)%float = true
     ∧ ((3 + 1 <? 1)%float = true → page = 1%float)
     ∧ ((3 <? 3 + 1)%float = true → page = 3%float)
     ∧ ((1 <=? 3 + 1)%float = true → (3 + 1 <=? 3)%float = true →
        page = (3 + 1)%float)).
Proof. apply (navigatePage_range 3 3 1). reflexivity. Defined.

(** * Properties of the names *)

Lemma digits_alnum (d : Decimal.uint) : Forall (λ c, isAlnum c = true) (digits d).
Proof. induction d; simpl; constructor; done. Qed.

(** X15. A document id is made of letters, digits and underscores only,
    whatever the name of the file, and the name takes as many code units
    in the id as it has. *)
Theorem generateDocId_safe (now : N) (filename : js_string) :
  Forall (λ c, isAlnum c = true ∨ c = 95%N) (generateDocId now filename)
  ∧ length (generateDocId now filename)
    = (5 + length (digits (N.to_uint now)) + length filename)%nat.
Proof.
  unfold generateDocId. split.
  - rewrite !Forall_app. split; [|split; [|split]].
    + assert (of_ascii "doc_" = [100; 111; 99; 95]%N) as ->
        by (vm_compute; reflexivity).
      repeat (apply Forall_cons; split; [first [by left|by right]|]).
      apply Forall_nil_2.
    + eapply Forall_impl; [apply digits_alnum|]. intros c Hc. by left.
    + assert (of_ascii "_" = [95]%N) as -> by (vm_compute; reflexivity).
      repeat (apply Forall_cons; split; [first [by left|by right]|]).
      apply Forall_nil_2.
    + unfold sanitize. apply Forall_fmap, Forall_forall. intros c _. simpl.
      destruct (isAlnum c) eqn:E; [by left|by right].
  - rewrite !length_app. unfold sanitize. rewrite length_fmap.
    change (length (of_ascii "doc_")) with 4%nat.
    change (length (of_ascii "_")) with 1%nat. lia.
Qed.

Lemma startsWith_app (pat s : js_string) : startsWith pat (pat ++ s) = true.
Proof.
  induction pat as [|p pat IH]; [by destruct s|]. simpl.
  by rewrite N.eqb_refl, IH.
Qed.

Lemma replaceFirst_absent (pat rep s : js_string) :
  includes pat s = false → replaceFirst pat rep s = s.
Proof.
  induction s as [|c s IH]; simpl.
  - rewrite orb_false_r. by intros ->.
  - intros H. apply orb_false_iff in H as [-> H]. by rewrite IH.
Qed.

(** X16. A file name in which [".pdf"] comes after a part without a dot
    is saved with ["_unredacted"] before that [".pdf"], and what follows
    is kept: the first [".pdf"] is the one that is replaced. *)
Theorem download_name (pages : list PageData.t) (pre post : js_string) :
  pages ≠ [] → 46%N ∉ pre →
  downloadFixedPdf pages (pre ++ of_ascii ".pdf" ++ post)
  = Some (pre ++ of_ascii "_unredacted.pdf" ++ post).
Proof.
  intros Hp Hdot. unfold downloadFixedPdf. destruct pages; [done|]. f_equal.
  induction pre as [|c pre IH].
  - cbn [app]. unfold replaceFirst.
    destruct (of_ascii ".pdf" ++ post) eqn:E; rewrite <- E;
      rewrite startsWith_app, drop_app_length; done.
  - apply not_elem_of_cons in Hdot as [Hc Hdot].
    cbn [app replaceFirst].
    assert (startsWith (of_ascii ".pdf") (c :: pre ++ of_ascii ".pdf" ++ post)
            = false) as ->.
    { change (of_ascii ".pdf") with [46; 112; 100; 102]%N. cbn [startsWith].
      apply andb_false_iff. left. apply N.eqb_neq. congruence. }
    f_equal. by apply IH.
Qed.

Lemma download_name_witness :
  downloadFixedPdf [exPage] (of_ascii "report" ++ of_ascii ".pdf" ++ [])
  = Some (of_ascii "report" ++ of_ascii "_unredacted.pdf" ++ []).
Proof.
  apply (download_name [exPage] (of_ascii "report") []).
  - discriminate.
  - vm_compute. intros H.
    repeat (apply elem_of_cons in H as [H|H]; [discriminate H|]).
    by apply elem_of_nil in H.
Defined.

(** X17. A file name that does not hold [".pdf"] (in these letters) is
    saved under the same name, and without pages nothing is saved. *)
Theorem download_name_unchanged (pages : list PageData.t)
    (fileName : js_string) :
  includes (of_ascii ".pdf") fileName = false →
  downloadFixedPdf pages fileName
  = match pages with [] => None | _ :: _ => Some fileName end.
Proof.
  intros Hn. unfold downloadFixedPdf. destruct pages; [done|].
  by rewrite replaceFirst_absent.
Qed.

Lemma download_name_unchanged_witness :
  downloadFixedPdf [exPage] (of_ascii "SCAN.PDF") = Some (of_ascii "SCAN.PDF").
Proof.
  apply (download_name_unchanged [exPage] (of_ascii "SCAN.PDF")).
  vm_compute. reflexivity.
Defined.

(** * Properties of the fixed canvas *)

Lemma sampleBelow_fillRect (x y w h : Z) (img : ImageData.t) (px py c : Z) :
  0 ≤ px < ImageData.width img → 0 ≤ py → 0 ≤ c < 4 →
  sampleBelow (fillRect white x y w h img)
              ((py * ImageData.width img + px) * 4 + c)
  = sampleBelow img ((py * ImageData.width img + px) * 4 + c)
    && negb ((x <=? px) && (px <? x + w) && (y <=? py) && (py <? y + h)).
Proof.
  intros Hpx Hpy Hc. unfold sampleBelow, fillRect. cbn [ImageData.data].
  rewrite list_lookup_imap.
  set (W := ImageData.width img) in *.
  assert (0 ≤ py * W + px) as Hp by nia.
  rewrite Z2Nat.id by lia.
  assert (((py * W + px) * 4 + c) / 4 = py * W + px) as ->.
  { symmetry. apply (Z.div_unique _ 4 _ c); lia. }
  assert (((py * W + px) * 4 + c) mod 4 = c) as ->.
  { symmetry. apply (Z.mod_unique _ 4 (py * W + px) c); lia. }
  assert ((py * W + px) mod W = px) as ->.
  { symmetry. apply (Z.mod_unique _ W py px); lia. }
  assert ((py * W + px) / W = py) as ->.
  { symmetry. apply (Z.div_unique _ W _ px); lia. }
  destruct (ImageData.data img !! Z.to_nat ((py * W + px) * 4 + c)) as [v|];
    cbn [fmap option_fmap option_map]; [|done].
  destruct ((x <=? px) && (px <? x + w) && (y <=? py) && (py <? y + h)).
  - rewrite andb_false_r. unfold channel, white, blackThreshold.
    destruct (c =? 0); [done|]. destruct (c =? 1); [done|].
    by destruct (c =? 2).
  - by rewrite andb_true_r.
Qed.

Lemma isBlack_fillRect (x y w h : Z) (img : ImageData.t) (px py : Z) :
  isBlack (fillRect white x y w h img) px py
  = isBlack img px py
    && negb ((x <=? px) && (px <? x + w) && (y <=? py) && (py <? y + h)).
Proof.
  unfold isBlack.
  change (ImageData.width (fillRect white x y w h img))
    with (ImageData.width img).
  change (ImageData.height (fillRect white x y w h img))
    with (ImageData.height img).
  destruct ((px <? 0) || (px >=? ImageData.width img) || (py <? 0)
            || (py >=? ImageData.height img)) eqn:E; [done|].
  apply orb_false_iff in E as [E E4]. apply orb_false_iff in E as [E E3].
  apply orb_false_iff in E as [E1 E2].
  apply Z.ltb_ge in E1, E3. rewrite Z.geb_leb in E2, E4.
  apply Z.leb_gt in E2, E4.
  pose proof (sampleBelow_fillRect x y w h img px py 0) as H0.
  pose proof (sampleBelow_fillRect x y w h img px py 1) as H1.
  pose proof (sampleBelow_fillRect x y w h img px py 2) as H2.
  rewrite Z.add_0_r in H0.
  rewrite H0, H1, H2 by lia.
  destruct ((x <=? px) && (px <? x + w) && (y <=? py) && (py <? y + h));
    cbn [negb]; rewrite ?andb_false_r, ?andb_true_r; done.
Qed.

Lemma whitened_spec (r : Redaction.t) (px py : Z) :
  (Redaction.x r - 1 <=? px)
  && (px <? Redaction.x r - 1 + (Redaction.width r + 2))
  && (Redaction.y r - 1 <=? py)
  && (py <? Redaction.y r - 1 + (Redaction.height r + 2)) = true
  ↔ whitened r px py.
Proof.
  unfold whitened. rewrite !andb_true_iff, !Z.leb_le, !Z.ltb_lt. lia.
Qed.

(** X18. A pixel of the fixed canvas is black exactly when it is black
    on the original canvas and no region of the page, made one pixel
    wider on each side, holds it: the boxes are painted over and nothing
    else loses or gains a black pixel. *)
Theorem fixedCanvas_black (originalCanvas : ImageData.t)
    (pageRedactions : list Redaction.t) (px py : Z) :
  isBlack (fixedCanvas originalCanvas pageRedactions) px py = true
  ↔ isBlack originalCanvas px py = true
    ∧ ∀ r, r ∈ pageRedactions → ¬ whitened r px py.
Proof.
  unfold fixedCanvas.
  revert originalCanvas.
  induction pageRedactions as [|r rs IH]; intros img; cbn [foldl].
  - split; [|tauto]. intros H. split; [done|]. intros r Hr.
    by apply elem_of_nil in Hr.
  - rewrite IH, isBlack_fillRect, andb_true_iff, negb_true_iff.
    rewrite <- not_true_iff_false, whitened_spec.
    split.
    + intros [[Hb Hr] Hrs]. split; [done|]. intros r' Hr'.
      apply elem_of_cons in Hr' as [->|Hr']; auto.
    + intros [Hb Hrs]. split; [split; [done|]|].
      * apply Hrs. by left.
      * intros r' Hr'. apply Hrs. by right.
Qed.

(** * Properties of the diff view *)

Lemma byPage_fold (l : list (nat * Redaction.t))
    (m : gmap nat (list (nat * Redaction.t))) (p : nat) :
  let step := λ (m : gmap nat (list (nat * Redaction.t))) (ir : nat * Redaction.t),
                <[Redaction.page ir.2 :=
                    default [] (m !! Redaction.page ir.2) ++ [ir]]> m in
  default [] (foldl step m l !! p)
  = default [] (m !! p) ++ filter (λ ir, Redaction.page ir.2 = p) l
  ∧ (p ∈ dom (foldl step m l)
     ↔ p ∈ dom m ∨ p ∈ (λ ir, Redaction.page ir.2) <$> l).
Proof.
  intros step. revert m.
  induction l as [|ir l IH]; intros m; cbn [foldl].
  - rewrite app_nil_r. split; [done|]. rewrite fmap_nil, elem_of_nil. tauto.
  - destruct (IH (step m ir)) as [IH1 IH2]. rewrite IH1, IH2. clear IH IH1 IH2.
    unfold step. rewrite filter_cons, dom_insert, elem_of_union,
      elem_of_singleton, fmap_cons, elem_of_cons.
    split; [|tauto].
    case_decide as Hp.
    + subst p. rewrite lookup_insert_eq. cbn [default]. unfold id.
      by rewrite <- app_assoc.
    + by rewrite lookup_insert_ne.
Qed.

Lemma byPage_lookup (redactions : list Redaction.t) (p : nat) :
  default [] (byPage redactions !! p) = onPage redactions p.
Proof.
  unfold byPage, onPage.
  destruct (byPage_fold (imap (λ index r, (index, r)) redactions) ∅ p)
    as [-> _].
  by rewrite lookup_empty.
Qed.

Lemma byPage_dom (redactions : list Redaction.t) (p : nat) :
  p ∈ dom (byPage redactions) ↔ p ∈ Redaction.page <$> redactions.
Proof.
  unfold byPage.
  destruct (byPage_fold (imap (λ index r, (index, r)) redactions) ∅ p)
    as [_ ->].
  rewrite dom_empty, elem_of_empty, fmap_imap.
  rewrite !list_elem_of_fmap. split.
  - intros [[]|H]. apply list_elem_of_lookup in H as [i H].
    rewrite list_lookup_imap in H.
    destruct (redactions !! i) as [r|] eqn:E; [|done].
    injection H as <-. exists r. split; [done|].
    by eapply list_elem_of_lookup_2.
  - intros (r & -> & Hr). right. apply list_elem_of_lookup in Hr as [i Hr].
    apply list_elem_of_lookup. exists i.
    by rewrite list_lookup_imap, Hr.
Qed.

Lemma StronglySorted_le_lt (l : list nat) :
  StronglySorted Nat.le l → NoDup l → StronglySorted lt l.
Proof.
  induction 1 as [|a l Hs IH Ha]; intros Hnd; [constructor|].
  apply NoDup_cons in Hnd as [Hna Hnd]. constructor; [auto|].
  apply Forall_forall. intros b Hb.
  rewrite Forall_forall in Ha. specialize (Ha b Hb).
  assert (a ≠ b) by (intros ->; done). unfold Nat.le in Ha. lia.
Qed.

(** X19. The diff view lists the pages that have a region once each, in
    ascending order, and under a page all the regions of that page and
    no other, in the order of the document and each with its index in
    the document's list. *)
Theorem diffGroups_spec (redactions : list Redaction.t) :
  StronglySorted lt (diffGroups redactions).*1
  ∧ (∀ p, p ∈ (diffGroups redactions).*1 ↔ p ∈ Redaction.page <$> redactions)
  ∧ ∀ p g, (p, g) ∈ diffGroups redactions → g = onPage redactions p.
Proof.
  unfold diffGroups.
  set (keys := merge_sort Nat.le (elements (dom (byPage redactions)))).
  assert (keys ≡ₚ elements (dom (byPage redactions))) as Hperm
    by apply merge_sort_Permutation.
  rewrite <- list_fmap_compose.
  assert ((fst ∘ (λ pageNum : nat,
                    (pageNum, default [] (byPage redactions !! pageNum))))
          <$> keys = keys) as ->.
  { clear. induction keys as [|k keys IH]; [done|]. cbn. by rewrite IH. }
  split; [|split].
  - apply StronglySorted_le_lt.
    + apply (StronglySorted_merge_sort Nat.le).
    + rewrite Hperm. apply NoDup_elements.
  - intros p. rewrite Hperm, elem_of_elements. apply byPage_dom.
  - intros p g H. apply list_elem_of_fmap in H as (k & H & _).
    injection H as -> ->. apply byPage_lookup.
Qed.

(** X20. Every region of the document is listed in the diff view under
    its page, with its index, and every group of the view has a
    region. *)
Theorem diffGroups_complete (redactions : list Redaction.t) :
  (∀ i r, redactions !! i = Some r →
          ∃ g, (Redaction.page r, g) ∈ diffGroups redactions ∧ (i, r) ∈ g)
  ∧ ∀ p g, (p, g) ∈ diffGroups redactions → g ≠ [].
Proof.
  assert (∀ i r, redactions !! i = Some r →
                 (i, r) ∈ onPage redactions (Redaction.page r)) as Hin.
  { intros i r Hr. unfold onPage. apply list_elem_of_filter. split; [done|].
    apply list_elem_of_lookup. exists i. by rewrite list_lookup_imap, Hr. }
  assert (∀ p, p ∈ Redaction.page <$> redactions →
               (p, onPage redactions p) ∈ diffGroups redactions) as Hkey.
  { intros p Hp. unfold diffGroups. apply list_elem_of_fmap. exists p.
    split; [by rewrite byPage_lookup|].
    rewrite merge_sort_Permutation, elem_of_elements. by apply byPage_dom. }
  split.
  - intros i r Hr. exists (onPage redactions (Redaction.page r)).
    split; [|by apply Hin]. apply Hkey. apply list_elem_of_fmap.
    exists r. split; [done|]. by eapply list_elem_of_lookup_2.
  - intros p g H. unfold diffGroups in H.
    apply list_elem_of_fmap in H as (k & H & Hk). injection H as -> ->.
    rewrite merge_sort_Permutation, elem_of_elements, byPage_dom in Hk.
    apply list_elem_of_fmap in Hk as (r & -> & Hr).
    apply list_elem_of_lookup in Hr as [i Hr].
    rewrite byPage_lookup. intros He. specialize (Hin i r Hr).
    rewrite He in Hin. by apply elem_of_nil in Hin.
Qed.

(** * Properties of the jump and of the overlay *)

Lemma find_seq (n a len : nat) :
  find (λ rIndex, bool_decide (rIndex = n)) (seq a len)
  = if decide (a ≤ n < a + len)%nat then Some n else None.
Proof.
  revert a. induction len as [|len IH]; intros a; cbn [seq find].
  - case_decide; [lia|done].
  - case_bool_decide as Ha.
    + subst a. case_decide; [done|lia].
    + rewrite IH. repeat case_decide; try done; lia.
Qed.

Lemma find_first {A} (P : A → bool) (l : list A) (k : nat) (x : A) :
  l !! k = Some x → P x = true →
  (∀ i y, (i < k)%nat → l !! i = Some y → P y = false) →
  find P l = Some x.
Proof.
  revert k. induction l as [|a l IH]; intros k Hk Hx Hlt; [done|].
  destruct k as [|k].
  - injection Hk as ->. cbn [find]. by rewrite Hx.
  - cbn [find]. rewrite (Hlt 0%nat a) by (done || lia).
    apply (IH k); [done|done|]. intros i y Hi Hy. apply (Hlt (S i) y); [lia|done].
Qed.

Lemma lookup_bind_middle {A B} (f : A → list B) (l : list A) (k j : nat)
    (x : A) :
  l !! k = Some x → (j < length (f x))%nat →
  (l ≫= f) !! (length (take k l ≫= f) + j)%nat = f x !! j.
Proof.
  intros Hk Hj.
  assert (l ≫= f = (take k l ≫= f) ++ f x ++ (drop (S k) l ≫= f)) as ->.
  { transitivity ((take k l ++ x :: drop (S k) l) ≫= f);
      [by rewrite take_drop_middle|]. by rewrite bind_app, bind_cons. }
  rewrite lookup_app_r by lia.
  replace (length (take k l ≫= f) + j - length (take k l ≫= f))%nat with j
    by lia.
  by rewrite lookup_app_l.
Qed.

Lemma loadPdf_pages (scale : Q) (rs : list Rendered) (res : LoadResult.t) :
  loadPdf scale (Normal <$> rs) = Normal res →
  PageData.pageNum <$> LoadResult.pages res
  = seq 1 (length (LoadResult.pages res))
  ∧ LoadResult.redactions res
    = (p ← LoadResult.pages res; PageData.redactions p).
Proof.
  unfold loadPdf. rewrite loadStep_fold_result. cbn [fst].
  intros H. injection H as <-.
  cbn [LoadResult.pages LoadResult.redactions app]. split; [|done].
  rewrite length_imap. apply list_eq. intros j.
  rewrite list_lookup_fmap, list_lookup_imap.
  destruct (rs !! j) as [r|] eqn:Hr; simpl.
  - symmetry. apply lookup_seq. split; [done|]. by eapply lookup_lt_Some.
  - symmetry. apply lookup_seq_ge. by apply lookup_ge_None.
Qed.

(** X21. In a loaded document, the region of index [j] on a page has in
    the document's list the index [j] plus the number of regions on the
    pages before, and that is the index the diff view hands to
    [jumpToRedaction].  The jump marks the highlight of this very region
    exactly when [j] is below 100 and the number of regions before the
    page is a multiple of 100, so on the first page, and on a later page
    only then. *)
Theorem jump_highlight (scale : Q) (rs : list Rendered) (res : LoadResult.t)
    (k j : nat) (page : PageData.t) :
  loadPdf scale (Normal <$> rs) = Normal res →
  LoadResult.pages res !! k = Some page →
  (j < length (PageData.redactions page))%nat →
  LoadResult.redactions res !! (regionsBefore (LoadResult.pages res) k + j)%nat
  = PageData.redactions page !! j
  ∧ (jumpToRedaction (LoadResult.pages res) (PageData.pageNum page)
                     (regionsBefore (LoadResult.pages res) k + j) = Some j
     ↔ (regionsBefore (LoadResult.pages res) k mod 100 = 0 ∧ j < 100)%nat).
Proof.
  intros Hload Hk Hj. apply loadPdf_pages in Hload as [Hnum ->].
  set (pages := LoadResult.pages res) in *.
  set (before := regionsBefore pages k).
  split; [by apply lookup_bind_middle|].
  unfold jumpToRedaction.
  assert (∀ i p, pages !! i = Some p → PageData.pageNum p = S i) as Hn.
  { intros i p Hp.
    assert ((PageData.pageNum <$> pages) !! i = Some (PageData.pageNum p)) as H
      by (by rewrite list_lookup_fmap, Hp).
    rewrite Hnum in H. apply lookup_seq in H as [-> _]. done. }
  rewrite (find_first _ pages k page Hk).
  2:{ by apply bool_decide_eq_true. }
  2:{ intros i y Hi Hy. apply bool_decide_eq_false.
      rewrite (Hn i y Hy), (Hn k page Hk). lia. }
  cbn [mbind option_bind]. unfold highlights.
  rewrite (imap_seq_0 (PageData.redactions page) (λ rIndex, rIndex)).
  rewrite list_fmap_id, find_seq.
  pose proof (Nat.mod_upper_bound (before + j) 100 ltac:(done)) as Hub.
  pose proof (Nat.div_mod_eq (before + j) 100) as Hbj.
  pose proof (Nat.mod_upper_bound before 100 ltac:(done)) as Hub'.
  pose proof (Nat.div_mod_eq before 100) as Hb.
  set (m := ((before + j) mod 100)%nat) in *.
  set (q := ((before + j) / 100)%nat) in *.
  set (m' := (before mod 100)%nat) in *.
  set (q' := (before / 100)%nat) in *.
  split.
  - case_decide as Hd; [|done]. intros H. injection H as Hm. lia.
  - intros [Hm' Hj']. assert (m = j) as -> by lia.
    case_decide; [done|lia].
Qed.

Lemma jump_highlight_witness :
  LoadResult.redactions exDocument
    !! (regionsBefore (LoadResult.pages exDocument) 1 + 0)%nat
  = PageData.redactions (processPage 1 exCovered 2) !! 0%nat
  ∧ (jumpToRedaction (LoadResult.pages exDocument)
                     (PageData.pageNum (processPage 1 exCovered 2))
                     (regionsBefore (LoadResult.pages exDocument) 1 + 0)
     = Some 0%nat
     ↔ (regionsBefore (LoadResult.pages exDocument) 1 mod 100 = 0
        ∧ 0 < 100)%nat).
Proof.
  apply (jump_highlight 1 [exCovered; exCovered] exDocument 1 0
                        (processPage 1 exCovered 2)).
  - vm_compute. reflexivity.
  - vm_compute. reflexivity.
  - vm_compute. lia.
Defined.

(** X22. The overlay of the fixed viewer and the export draw the same
    texts in the same order: every span of the overlay is a draw call of
    the export, moved to the scale of the canvas on screen, with its top
    one font size above the base line of the call. *)
Theorem overlay_matches_export (scale displayWidth displayHeight : Q)
    (page : PageData.t) :
  renderTextLayerForRedactions scale displayWidth displayHeight page
  = spanOf (displayWidth / PageData.width page)
           (displayHeight / PageData.height page)
    <$> renderTextForExport scale page.
Proof.
  unfold renderTextLayerForRedactions, renderTextForExport.
  induction (PageData.textItems page) as [|item items IH]; [done|].
  rewrite !omap_cons, IH.
  destruct (skipped item); [done|].
  by destruct (isInRedaction _ _ _ _).
Qed.

(** * Properties of the download *)

Lemma normalPrefix_fmap (rs : list Rendered) : normalPrefix (Normal <$> rs) = rs.
Proof. induction rs as [|r rs IH]; [done|]. cbn. by rewrite IH. Qed.

Lemma loadPdf_Normal (scale : Q) (rs : list Rendered) :
  ∃ res, loadPdf scale (Normal <$> rs) = Normal res.
Proof. unfold loadPdf. rewrite loadStep_fold_result. by eexists. Qed.

Lemma processFile_loaded (now : N) (file : File.t) (app : App.t)
    (rs : list Rendered) :
  File.document file = Normal (Normal <$> rs) →
  ∃ doc,
    App.documents (processFile now file app)
    = <[generateDocId now (File.name file) := doc]> (App.documents app)
    ∧ Doc.name doc = File.name file
    ∧ App.currentDocId (processFile now file app)
      = Some (generateDocId now (File.name file))
    ∧ ProcessorState.scale (App.processor (processFile now file app))
      = ProcessorState.scale (App.processor app)
    ∧ ProcessorState.fileName (App.processor (processFile now file app))
      = File.name file
    ∧ ProcessorState.pages (App.processor (processFile now file app))
      = imap (λ j r, processPage (ProcessorState.scale (App.processor app))
                                 r (S j)) rs.
Proof.
  intros Hdoc. unfold processFile, loadPdfState. rewrite Hdoc.
  rewrite normalPrefix_fmap.
  destruct (loadPdf_Normal (ProcessorState.scale (App.processor app)) rs)
    as [res ->].
  unfold selectDocument. cbn [App.documents].
  rewrite lookup_insert_eq. cbn. eexists. repeat split; reflexivity.
Qed.

(** X23. The application has one processor, and the download reads the
    file name and the pages from it and not from the selected document:
    after a first file and then a second one have been loaded, with the
    first one selected again, [downloadFixed] saves the pages of the
    second file under the name made from the second file's name. *)
Theorem download_saves_last_load (app : App.t) (nowA nowB : N)
    (fileA fileB : File.t) (rsA rsB : list Rendered) :
  File.document fileA = Normal (Normal <$> rsA) →
  File.document fileB = Normal (Normal <$> rsB) →
  rsB ≠ [] →
  generateDocId nowA (File.name fileA) ≠ generateDocId nowB (File.name fileB) →
  let app' := selectDocument (generateDocId nowA (File.name fileA))
                (processFile nowB fileB (processFile nowA fileA app)) in
  App.currentDocId app' = Some (generateDocId nowA (File.name fileA))
  ∧ Doc.name <$> App.documents app' !! generateDocId nowA (File.name fileA)
    = Some (File.name fileA)
  ∧ (downloadFixed app').2
    = Some (imap (λ j r, processPage (ProcessorState.scale (App.processor app))
                                     r (S j)) rsB,
            replaceFirst (of_ascii ".pdf") (of_ascii "_unredacted.pdf")
                         (File.name fileB)).
Proof.
  intros HA HB Hne Hid app'.
  destruct (processFile_loaded nowA fileA app rsA HA)
    as (docA & HdA & HnA & _ & HsA & _ & _).
  destruct (processFile_loaded nowB fileB (processFile nowA fileA app) rsB HB)
    as (docB & HdB & _ & _ & HsB & HfB & HpB).
  set (idA := generateDocId nowA (File.name fileA)) in *.
  set (idB := generateDocId nowB (File.name fileB)) in *.
  set (app2 := processFile nowB fileB (processFile nowA fileA app)) in *.
  assert (App.documents app2 !! idA = Some docA) as Hlook.
  { rewrite HdB, lookup_insert_ne by done. by rewrite HdA, lookup_insert_eq. }
  assert (app' = App.mk (App.processor app2) (App.documents app2) (Some idA))
    as Happ'.
  { subst app'. unfold selectDocument. by rewrite Hlook. }
  rewrite Happ'. cbn [App.currentDocId App.documents].
  split; [done|]. split; [by rewrite Hlook, <- HnA|].
  unfold downloadFixed. cbn [App.currentDocId App.documents App.processor].
  rewrite Hlook, HpB, HfB, HsA.
  destruct rsB as [|r rsB]; [done|]. rewrite imap_cons.
  cbn [downloadFixedPdf].
  by destruct (replaceFirst _ _ _).
Qed.

Lemma download_saves_last_load_witness :
  let app' := selectDocument (generateDocId 1 (File.name exFileA))
                (processFile 2 exFileB (processFile 1 exFileA newApp)) in
  App.currentDocId app' = Some (generateDocId 1 (File.name exFileA))
  ∧ Doc.name <$> App.documents app' !! generateDocId 1 (File.name exFileA)
    = Some (File.name exFileA)
  ∧ (downloadFixed app').2
    = Some (imap (λ j r, processPage (ProcessorState.scale
                                        (App.processor newApp)) r (S j))
                 [exCovered],
            replaceFirst (of_ascii ".pdf") (of_ascii "_unredacted.pdf")
                         (File.name exFileB)).
Proof.
  apply (download_saves_last_load newApp 1 2 exFileA exFileB
                                  [exCovered] [exCovered]).
  - reflexivity.
  - reflexivity.
  - discriminate.
  - vm_compute. discriminate.
Defined.

(** X24. A file that cannot be opened adds no document and leaves the
    selection and the pages of the processor as they were, and still
    gives the processor its name: the next download saves the pages of
    the document loaded before under the name made from the name of the
    file that failed. *)
Theorem failed_load_renames_download (app : App.t) (nowA nowB : N)
    (fileA fileB : File.t) (rsA : list Rendered) (e : js_string) :
  File.document fileA = Normal (Normal <$> rsA) →
  rsA ≠ [] →
  File.document fileB = Throw e →
  let app1 := processFile nowA fileA app in
  let app2 := processFile nowB fileB app1 in
  App.documents app2 = App.documents app1
  ∧ App.currentDocId app2 = Some (generateDocId nowA (File.name fileA))
  ∧ (downloadFixed app2).2
    = Some (imap (λ j r, processPage (ProcessorState.scale (App.processor app))
                                     r (S j)) rsA,
            replaceFirst (of_ascii ".pdf") (of_ascii "_unredacted.pdf")
                         (File.name fileB)).
Proof.
  intros HA Hne HB app1 app2.
  destruct (processFile_loaded nowA fileA app rsA HA)
    as (docA & HdA & _ & HcA & _ & _ & HpA).
  fold app1 in HdA, HcA, HpA.
  assert (app2 = App.mk (ProcessorState.mk
                           (ProcessorState.scale (App.processor app1))
                           (File.name fileB)
                           (ProcessorState.pages (App.processor app1))
                           (ProcessorState.redactions (App.processor app1)))
                        (App.documents app1) (App.currentDocId app1)) as ->.
  { subst app2. unfold processFile at 1, loadPdfState. by rewrite HB. }
  cbn [App.documents App.currentDocId]. split; [done|]. split; [done|].
  unfold downloadFixed.
  cbn [App.currentDocId App.documents App.processor ProcessorState.pages
       ProcessorState.fileName].
  rewrite HcA, HdA, lookup_insert_eq, HpA.
  destruct rsA as [|r rsA]; [done|]. rewrite imap_cons.
  cbn [downloadFixedPdf].
  by destruct (replaceFirst _ _ _).
Qed.

Lemma failed_load_renames_download_witness :
  let app1 := processFile 1 exFileA newApp in
  let app2 := processFile 2 exFileBad app1 in
  App.documents app2 = App.documents app1
  ∧ App.currentDocId app2 = Some (generateDocId 1 (File.name exFileA))
  ∧ (downloadFixed app2).2
    = Some (imap (λ j r, processPage (ProcessorState.scale
                                        (App.processor newApp)) r (S j))
                 [exCovered],
            replaceFirst (of_ascii ".pdf") (of_ascii "_unredacted.pdf")
                         (File.name exFileBad)).
Proof.
  apply (failed_load_renames_download newApp 1 2 exFileA exFileBad [exCovered]
           (of_ascii "Invalid PDF structure")).
  - reflexivity.
  - discriminate.
  - reflexivity.
Defined.

Lemma normalPrefix_app (before : list Rendered) (e : js_string)
    (after : list (completion Rendered)) :
  normalPrefix ((Normal <$> before) ++ Throw e :: after) = before.
Proof. induction before as [|r rs IH]; [done|]. cbn. by rewrite IH. Qed.

(** X25. A load rejects with the error of the first page that throws,
    whatever the pages after it do; the processor is left with the name
    of the file and with the pages before that page, processed, and
    their redactions. *)
Theorem loadPdf_first_failure (st : ProcessorState.t) (name : js_string)
    (before : list Rendered) (e : js_string)
    (after : list (completion Rendered)) :
  let pushed := imap (λ j r, processPage (ProcessorState.scale st) r (S j))
                     before in
  loadPdfState st (File.mk name
                     (Normal ((Normal <$> before) ++ Throw e :: after)))
  = (ProcessorState.mk (ProcessorState.scale st) name pushed
                       (p ← pushed; PageData.redactions p),
     Throw e).
Proof.
  intros pushed. unfold loadPdfState. cbn [File.document File.name].
  by rewrite normalPrefix_app, loadPdf_rejects.
Qed.
